(** * jsclaw: a shallow embedding of the orchestrator core

    The development follows the source files of the repository:

    - [JS]: the fragment of JavaScript strings and JSON values the code relies on
      (code units as [ascii], [indexOf], [slice], [trim], truthiness);
    - [MountSecurity]: src/mount-security.js;
    - [ContainerRunner]: src/container-runner.js (framing parser and the
      closure state of [runContainerAgent]);
    - [IpcUtils]: src/ipc-utils.js ([writeIpcFile], [readIpcFile],
      [drainIpcDir], [writeCloseSentinel]);
    - [Ipc]: src/ipc.js (the message loop of [poll]);
    - [GroupQueue]: src/group-queue.js as a transition system;
    - [AgentRunner]: container/agent-runner.js ([writeOutput], [shouldClose],
      [drainIpcInput]);
    - [McpServer]: container/mcp-server.js (what the tools write);
    - [TelegramExample]: [splitMessage] of the Telegram example.

    Definitions come first; the theorems about them follow: Part II on the
    behaviour the specification describes, Part III on further behaviour of
    the code. *)

From Stdlib Require Import Ascii String ZArith Lia Bool Arith.
From Stdlib Require Import Permutation Sorted List.
From Equations Require Import Equations.
From Equations.Prop Require Import Logic.
Import ListNotations.

Set Warnings "-register-all".

(* ===================================================================== *)
(** * Part I. The embedding                                               *)
(* ===================================================================== *)

Module JS.

(** A JavaScript string is a sequence of code units; the embedding keeps the
    code units below 256. *)
Definition str := list ascii.

Definition lit (s : string) : str := list_ascii_of_string s.

Fixpoint str_eqb (a b : str) : bool :=
  match a, b with
  | [], [] => true
  | x :: a', y :: b' => Ascii.eqb x y && str_eqb a' b'
  | _, _ => false
  end.

(** [prefixb p s]: [s.startsWith(p)]. *)
Fixpoint prefixb (p s : str) : bool :=
  match p, s with
  | [], _ => true
  | x :: p', y :: s' => Ascii.eqb x y && prefixb p' s'
  | _ :: _, [] => false
  end.

Definition startsWith (s p : str) : bool := prefixb p s.

Definition endsWith (s p : str) : bool := prefixb (rev p) (rev s).

(** First index at which [needle] occurs in [hay], scanning from 0. *)
Fixpoint index0 (needle hay : str) : option nat :=
  if prefixb needle hay then Some 0
  else match hay with
       | [] => None
       | _ :: t => option_map S (index0 needle t)
       end.

(** [hay.indexOf(needle, from)]; [None] stands for -1.  The start position is
    clamped to the length of the string, as in the language. *)
Definition indexOf (hay needle : str) (from : nat) : option nat :=
  let k := Nat.min from (length hay) in
  option_map (Nat.add k) (index0 needle (skipn k hay)).

Definition includes (hay needle : str) : bool :=
  match indexOf hay needle 0 with Some _ => true | None => false end.

(** [s.slice(a, b)] for indices [0 <= a], [0 <= b]. *)
Definition slice (s : str) (a b : nat) : str := firstn (b - a) (skipn a s).

(** [s.slice(a)] for [0 <= a]. *)
Definition slice_from (s : str) (a : nat) : str := skipn a s.

(** [s.slice(-n)]: the last [n] code units; [-0] is [0], the whole string. *)
Definition slice_last (s : str) (n : nat) : str :=
  if n =? 0 then s else skipn (length s - n) s.

Definition lower_char (c : ascii) : ascii :=
  let n := nat_of_ascii c in
  if ((65 <=? n) && (n <=? 90))
     || ((192 <=? n) && (n <=? 222) && negb (n =? 215))
  then ascii_of_nat (n + 32) else c.

(** [s.toLowerCase()]. *)
Definition toLowerCase (s : str) : str := map lower_char s.

(** White space and line terminators, as [trim] sees them. *)
Definition is_space (c : ascii) : bool :=
  let n := nat_of_ascii c in
  (n =? 32) || ((9 <=? n) && (n <=? 13)) || (n =? 160).

Fixpoint trimStart (s : str) : str :=
  match s with
  | c :: t => if is_space c then trimStart t else s
  | [] => []
  end.

Definition trimEnd (s : str) : str := rev (trimStart (rev s)).

Definition trim (s : str) : str := trimEnd (trimStart s).

(** Insertion sort by code units: [Array.prototype.sort()] on strings. *)
Fixpoint str_leb (a b : str) : bool :=
  match a, b with
  | [], _ => true
  | _ :: _, [] => false
  | x :: a', y :: b' =>
      let n := nat_of_ascii x in
      let m := nat_of_ascii y in
      if n <? m then true else if m <? n then false else str_leb a' b'
  end.

Fixpoint insert_sorted (x : str) (l : list str) : list str :=
  match l with
  | [] => [x]
  | y :: t => if str_leb x y then x :: l else y :: insert_sorted x t
  end.

Fixpoint sort (l : list str) : list str :=
  match l with
  | [] => []
  | x :: t => insert_sorted x (sort t)
  end.

(** Decimal rendering of a number in a template string. *)
Fixpoint digits_fuel (fuel n : nat) (acc : str) : str :=
  match fuel with
  | 0 => acc
  | S f =>
      let d := ascii_of_nat (48 + n mod 10) in
      if n / 10 =? 0 then d :: acc else digits_fuel f (n / 10) (d :: acc)
  end.

Definition nat_to_str (n : nat) : str := digits_fuel (S n) n [].

Definition Z_to_str (z : Z) : str :=
  match z with
  | Z0 => lit "0"
  | Zpos p => nat_to_str (Pos.to_nat p)
  | Zneg p => lit "-" ++ nat_to_str (Pos.to_nat p)
  end.

(** JSON values, as [JSON.parse] returns them.  The fields of an object are
    its own properties; a key occurs once. *)
Inductive json : Type :=
| JNull
| JBool (b : bool)
| JNum (n : Z)
| JStr (s : str)
| JArr (l : list json)
| JObj (fields : list (str * json)).

(** Truthiness of a parsed value. *)
Definition truthy (v : json) : bool :=
  match v with
  | JNull => false
  | JBool b => b
  | JNum n => negb (n =? 0)%Z
  | JStr s => match s with [] => false | _ => true end
  | JArr _ | JObj _ => true
  end.

Fixpoint assoc (k : str) (fields : list (str * json)) : option json :=
  match fields with
  | [] => None
  | (k', v) :: t => if str_eqb k k' then Some v else assoc k t
  end.

(** [v.k] on a value that is not [null]; [None] is [undefined].  The keys read
    by the code are not properties of strings, numbers or arrays. *)
Definition get_prop (v : json) (k : str) : option json :=
  match v with
  | JObj fields => assoc k fields
  | _ => None
  end.

(** Truthiness of a possibly undefined value. *)
Definition truthy_opt (v : option json) : bool :=
  match v with Some j => truthy j | None => false end.

(** [a || b] on possibly undefined values. *)
Definition or_else (a b : option json) : option json :=
  if truthy_opt a then a else b.

(** Strict equality [===] restricted to what the code compares: a parsed value
    against a string. *)
Definition strict_eq_str (v : json) (s : str) : bool :=
  match v with
  | JStr t => str_eqb t s
  | _ => false
  end.

(** Lists of pending continuations: taking one out, putting one back. *)
Fixpoint remove_nth {A : Type} (n : nat) (l : list A) : list A :=
  match n, l with
  | _, [] => []
  | 0, _ :: t => t
  | S n', x :: t => x :: remove_nth n' t
  end.

Fixpoint replace_nth {A : Type} (n : nat) (x : A) (l : list A) : list A :=
  match n, l with
  | _, [] => []
  | 0, _ :: t => x :: t
  | S n', y :: t => y :: replace_nth n' x t
  end.

(** A call either returns or throws. *)
Inductive outcome (A : Type) : Type :=
| Returns (a : A)
| Throws.
Arguments Returns {A} a.
Arguments Throws {A}.

End JS.

Import JS.

(* ===================================================================== *)
(** ** src/mount-security.js                                              *)
(* ===================================================================== *)

Module MountSecurity.

(** What the module asks of [node:fs], [node:path] and [JSON]. [None] is a
    thrown exception. *)
Record Host := {
  realpathSync : str -> option str;
  readFileSync : str -> option str;
  normalize : str -> str;
  resolve : str -> str;
  JSON_parse : str -> option json
}.

Definition DEFAULT_BLOCKED_PATTERNS : list str :=
  [ lit ".ssh"; lit ".gnupg"; lit ".gpg"; lit ".aws"; lit ".azure";
    lit ".gcloud"; lit ".config/gcloud"; lit ".kube"; lit ".docker";
    lit ".env"; lit "private_key"; lit "id_rsa"; lit "id_ed25519";
    lit "credentials"; lit "secrets"; lit ".npmrc"; lit ".pypirc" ].

Record AdditionalMount := {
  host_path : str;
  container_path : str;
  read_only : option bool
}.

(** [blocked_patterns] is what the caller (or the allowlist file) supplied:
    [None] when the property is absent. *)
Record MountAllowlist := {
  allowed_roots : list str;
  blocked_patterns : option json
}.

Record MountResult := { valid : bool; reason : option str }.

Record MountsResult := { all_valid : bool; errors : list str }.

(** [parsed.allowed_roots.map((r) => resolve(r))]: [resolve] throws on an
    element that is not a string. *)
Fixpoint resolve_roots (h : Host) (l : list json) : option (list str) :=
  match l with
  | [] => Some []
  | JStr r :: t =>
      match resolve_roots h t with
      | Some t' => Some (resolve h r :: t')
      | None => None
      end
  | _ :: _ => None
  end.

Definition loadMountAllowlist (h : Host) (allowlistPath : str)
  : option MountAllowlist :=
  match readFileSync h allowlistPath with
  | None => None
  | Some raw =>
      match JSON_parse h raw with
      | None => None
      | Some JNull => None              (* property read on null throws *)
      | Some parsed =>
          match get_prop parsed (lit "allowed_roots") with
          | Some (JArr roots) =>
              match resolve_roots h roots with
              | Some rs =>
                  Some {| allowed_roots := rs;
                          blocked_patterns :=
                            or_else (get_prop parsed (lit "blocked_patterns"))
                                    (Some (JArr [])) |}
              | None => None
              end
          | _ => None
          end
      end
  end.

(** [...extraBlocked]: arrays and strings are iterable. *)
Definition spread (v : json) : outcome (list json) :=
  match v with
  | JArr l => Returns l
  | JStr s => Returns (map (fun c => JStr [c]) s)
  | _ => Throws
  end.

(** The [for] loop of [matchesBlocked]; a pattern that is not a string has no
    [toLowerCase]. *)
Fixpoint first_blocked (normalized : str) (allBlocked : list json)
  : outcome (option str) :=
  match allBlocked with
  | [] => Returns None
  | JStr pattern :: rest =>
      if includes normalized (toLowerCase pattern) then Returns (Some pattern)
      else first_blocked normalized rest
  | _ :: _ => Throws
  end.

Definition matchesBlocked (h : Host) (hostPath : str) (extraBlocked : option json)
  : outcome (option str) :=
  let extra := match extraBlocked with Some v => v | None => JArr [] end in
  match spread extra with
  | Throws => Throws
  | Returns l =>
      let allBlocked := map JStr DEFAULT_BLOCKED_PATTERNS ++ l in
      let normalized := toLowerCase (normalize h hostPath) in
      first_blocked normalized allBlocked
  end.

(** [allowlist.allowed_roots.some(...)]. *)
Definition underAllowedRoot (roots : list str) (realHostPath : str) : bool :=
  existsb (fun root => str_eqb realHostPath root
                       || startsWith realHostPath (root ++ lit "/")) roots.

Definition invalid (msg : str) : outcome MountResult :=
  Returns {| valid := false; reason := Some msg |}.

Definition validateMount (h : Host) (mount : AdditionalMount) (isMain : bool)
    (allowlist : MountAllowlist) : outcome MountResult :=
  if includes (container_path mount) (lit "..")
     || negb (startsWith (container_path mount) (lit "/"))
  then invalid (lit "Invalid container path: " ++ container_path mount)
  else
    match realpathSync h (host_path mount) with
    | None => invalid (lit "Host path does not exist: " ++ host_path mount)
    | Some realHostPath =>
        match matchesBlocked h realHostPath (blocked_patterns allowlist) with
        | Throws => Throws
        | Returns blocked =>
            match blocked with
            | Some ((_ :: _) as pattern) =>
                invalid (lit "Path matches blocked pattern '" ++ pattern
                         ++ lit "': " ++ realHostPath)
            | _ =>
                (* [if (blocked)]: null and the empty string are falsy *)
                if negb (underAllowedRoot (allowed_roots allowlist) realHostPath)
                then invalid (lit "Path not under any allowed root: "
                              ++ realHostPath)
                else Returns {| valid := true; reason := None |}
            end
        end
    end.

(** The loop of [validateAdditionalMounts], collecting the reasons. *)
Fixpoint collect_errors (h : Host) (mounts : list AdditionalMount)
    (isMain : bool) (allowlist : MountAllowlist) (errs : list str)
  : outcome (list str) :=
  match mounts with
  | [] => Returns errs
  | mount :: rest =>
      match validateMount h mount isMain allowlist with
      | Throws => Throws
      | Returns result =>
          let errs' :=
            if negb (valid result)
            then errs ++ [match reason result with Some r => r | None => [] end]
            else errs in
          collect_errors h rest isMain allowlist errs'
      end
  end.

(** [allowlistPath] is [None] when the argument is undefined; the empty string
    is falsy as well. *)
Definition validateAdditionalMounts (h : Host) (mounts : list AdditionalMount)
    (groupName : str) (isMain : bool) (allowlistPath : option str)
  : outcome MountsResult :=
  match mounts with
  | [] => Returns {| all_valid := true; errors := [] |}
  | _ :: _ =>
      match allowlistPath with
      | None | Some [] =>
          Returns {| all_valid := false;
                     errors := [lit "No mount allowlist configured. All additional mounts are blocked."] |}
      | Some path =>
          match loadMountAllowlist h path with
          | None =>
              Returns {| all_valid := false;
                         errors := [lit "Failed to load mount allowlist from: " ++ path] |}
          | Some allowlist =>
              match collect_errors h mounts isMain allowlist [] with
              | Throws => Throws
              | Returns errs =>
                  Returns {| all_valid := match errs with [] => true | _ => false end;
                             errors := errs |}
              end
          end
      end
  end.

(** [generateAllowlistTemplate()]. *)
Definition generateAllowlistTemplate : json :=
  JObj [ (lit "allowed_roots", JArr [JStr (lit "/home"); JStr (lit "/opt/data")]);
         (lit "blocked_patterns", JArr []);
         (lit "_comment",
          JStr (lit "Add host directories that containers may mount. Default blocked patterns always apply.")) ].

End MountSecurity.

(* ===================================================================== *)
(** ** src/container-runner.js                                            *)
(* ===================================================================== *)

Module ContainerRunner.

Definition OUTPUT_START_MARKER : str := lit "---JSCLAW_OUTPUT_START---".
Definition OUTPUT_END_MARKER : str := lit "---JSCLAW_OUTPUT_END---".

(** The object pushed when [JSON.parse] throws. *)
Definition parse_failure (jsonStr : str) : json :=
  JObj [ (lit "status", JStr (lit "error"));
         (lit "result", JNull);
         (lit "error", JStr (lit "Failed to parse output: " ++ slice jsonStr 0 200)) ].

(** One turn of the [while (true)] loop up to the two [break]s: the trimmed
    text between the markers and what follows the end marker. *)
Definition next_frame (remaining : str) : option (str * str) :=
  match indexOf remaining OUTPUT_START_MARKER 0 with
  | None => None
  | Some startIdx =>
      let afterStart := startIdx + length OUTPUT_START_MARKER in
      match indexOf remaining OUTPUT_END_MARKER afterStart with
      | None => None
      | Some endIdx =>
          Some (trim (slice remaining afterStart endIdx),
                slice_from remaining (endIdx + length OUTPUT_END_MARKER))
      end
  end.

Lemma index0_nil (needle : str) (i : nat) :
  index0 needle [] = Some i -> needle = [].
Proof. destruct needle; simpl; [reflexivity | discriminate]. Qed.

Lemma next_frame_shrinks (remaining jsonStr rest : str) :
  next_frame remaining = Some (jsonStr, rest) ->
  length rest < length remaining.
Proof.
  unfold next_frame, indexOf, slice_from.
  destruct (index0 OUTPUT_START_MARKER (skipn _ remaining)) as [s|]; simpl; [|discriminate].
  destruct (index0 OUTPUT_END_MARKER (skipn _ remaining)) as [e|] eqn:He; simpl; [|discriminate].
  intros H; injection H as _ <-.
  rewrite length_skipn.
  destruct remaining as [|c r].
  - simpl in He. rewrite skipn_nil in He. apply index0_nil in He. discriminate.
  - change (length OUTPUT_END_MARKER) with 23. simpl length. lia.
Qed.

Section Parser.

Variable JSON_parse : str -> option json.

(** The [try]/[catch] around [JSON.parse(jsonStr)]. *)
Definition decode (jsonStr : str) : json :=
  match JSON_parse jsonStr with
  | Some v => v
  | None => parse_failure jsonStr
  end.

Equations parse_loop (outputs : list json) (remaining : str)
  : list json * str by wf (length remaining) lt :=
  parse_loop outputs remaining with inspect (next_frame remaining) := {
    | exist _ None _ => (outputs, remaining)
    | exist _ (Some (jsonStr, rest)) Hframe =>
        parse_loop (outputs ++ [decode jsonStr]) rest
  }.
Next Obligation. eapply next_frame_shrinks; eassumption. Qed.

Definition parseContainerOutput (buffer : str) : list json * str :=
  parse_loop [] buffer.

(** The [data] handler of stdout fed with successive chunks, each call carrying
    the remaining buffer of the previous one. *)
Fixpoint feed (stdoutBuffer : str) (chunks : list str) : list json * str :=
  match chunks with
  | [] => ([], stdoutBuffer)
  | chunk :: more =>
      let '(outputs, remaining) := parseContainerOutput (stdoutBuffer ++ chunk) in
      let '(later, final) := feed remaining more in
      (outputs ++ later, final)
  end.

(** *** The closure state of [runContainerAgent] *)

Record Config := {
  containerTimeout : Z;
  maxOutputSize : nat
}.

(** [lastOutput] starts as [null].  [onOutput_calls] records the outputs the
    per-output loop has taken up, in order; [kills] counts [killContainer]
    calls.  [suspended] holds the stdout handlers waiting at
    [await onOutput(output)], each with the outputs it has still to take up. *)
Record Runner := {
  stdoutBuffer : str;
  stderrBuffer : str;
  lastOutput : json;
  timedOut : bool;
  onOutput_calls : list json;
  kills : nat;
  suspended : list (list json)
}.

Definition spawned : Runner :=
  {| stdoutBuffer := []; stderrBuffer := []; lastOutput := JNull;
     timedOut := false; onOutput_calls := []; kills := 0; suspended := [] |}.

(** [lastOutput = output; resetTimeout();] and the call of [onOutput]. *)
Definition deliver (st : Runner) (output : json) : Runner :=
  {| stdoutBuffer := stdoutBuffer st; stderrBuffer := stderrBuffer st;
     lastOutput := output; timedOut := timedOut st;
     onOutput_calls := onOutput_calls st ++ [output]; kills := kills st;
     suspended := suspended st |}.

Definition with_suspended (st : Runner) (l : list (list json)) : Runner :=
  {| stdoutBuffer := stdoutBuffer st; stderrBuffer := stderrBuffer st;
     lastOutput := lastOutput st; timedOut := timedOut st;
     onOutput_calls := onOutput_calls st; kills := kills st;
     suspended := l |}.

(** Whether the caller passed [onOutput]. *)
Variable onOutput : bool.

(** [for (const output of outputs)]: without [onOutput] the loop has no
    [await] and runs through; with it the handler stops at the first
    [await onOutput(output)] and other events may come before it resumes. *)
Definition output_loop (st : Runner) (outputs : list json) : Runner :=
  if onOutput then
    match outputs with
    | [] => st
    | output :: rest =>
        let st1 := deliver st output in
        with_suspended st1 (suspended st1 ++ [rest])
    end
  else fold_left deliver outputs st.

Definition on_stdout_data (cfg : Config) (st : Runner) (chunk : str) : Runner :=
  let buffer := stdoutBuffer st ++ chunk in
  if maxOutputSize cfg <? length buffer then
    {| stdoutBuffer := buffer; stderrBuffer := stderrBuffer st;
       lastOutput := lastOutput st; timedOut := timedOut st;
       onOutput_calls := onOutput_calls st; kills := S (kills st);
       suspended := suspended st |}
  else
    let '(outputs, remaining) := parseContainerOutput buffer in
    output_loop
      {| stdoutBuffer := remaining; stderrBuffer := stderrBuffer st;
         lastOutput := lastOutput st; timedOut := timedOut st;
         onOutput_calls := onOutput_calls st; kills := kills st;
         suspended := suspended st |}
      outputs.

(** The awaited [onOutput] of the [n]-th suspended handler settles (a rejection
    is caught and logged): the loop takes up its next output, if any. *)
Definition on_output_settled (st : Runner) (n : nat) : Runner :=
  match nth_error (suspended st) n with
  | None => st
  | Some [] => with_suspended st (remove_nth n (suspended st))
  | Some (output :: rest) =>
      let st1 := deliver st output in
      with_suspended st1 (replace_nth n rest (suspended st1))
  end.

Definition on_stderr_data (cfg : Config) (st : Runner) (chunk : str) : Runner :=
  let buffer := stderrBuffer st ++ chunk in
  {| stdoutBuffer := stdoutBuffer st;
     stderrBuffer := if maxOutputSize cfg <? length buffer
                     then slice_last buffer (maxOutputSize cfg / 2)
                     else buffer;
     lastOutput := lastOutput st; timedOut := timedOut st;
     onOutput_calls := onOutput_calls st; kills := kills st;
     suspended := suspended st |}.

(** The idle timer firing. *)
Definition on_timeout (st : Runner) : Runner :=
  {| stdoutBuffer := stdoutBuffer st; stderrBuffer := stderrBuffer st;
     lastOutput := lastOutput st; timedOut := true;
     onOutput_calls := onOutput_calls st; kills := S (kills st);
     suspended := suspended st |}.

(** What may happen between the spawn and the [close] event. *)
Inductive Event :=
| StdoutData (chunk : str)
| StderrData (chunk : str)
| IdleTimeout
| OutputSettled (n : nat).

Definition handle (cfg : Config) (st : Runner) (e : Event) : Runner :=
  match e with
  | StdoutData chunk => on_stdout_data cfg st chunk
  | StderrData chunk => on_stderr_data cfg st chunk
  | IdleTimeout => on_timeout st
  | OutputSettled n => on_output_settled st n
  end.

Definition run (cfg : Config) (events : list Event) : Runner :=
  fold_left (handle cfg) events spawned.

(** [lastOutput?.k]. *)
Definition opt_chain (v : json) (k : str) : option json :=
  match v with
  | JNull => None
  | _ => get_prop v k
  end.

Definition field (k : str) (v : option json) : list (str * json) :=
  match v with Some j => [(k, j)] | None => [] end.

Definition code_to_str (code : option Z) : str :=
  match code with Some c => Z_to_str c | None => lit "null" end.

(** The value handed to [resolve] by the [close] handler.  A property whose
    value is [undefined] is left out of the object. *)
Definition on_close (cfg : Config) (st : Runner) (code : option Z) : json :=
  if timedOut st then
    JObj ([ (lit "status", JStr (lit "error")) ]
          ++ field (lit "result")
               (or_else (opt_chain (lastOutput st) (lit "result")) (Some JNull))
          ++ [ (lit "error",
                JStr (lit "Container timed out after "
                      ++ Z_to_str (containerTimeout cfg) ++ lit "ms")) ]
          ++ field (lit "newSessionId")
               (opt_chain (lastOutput st) (lit "newSessionId")))
  else if truthy (lastOutput st) then lastOutput st
  else
    match code with
    | Some 0%Z =>
        JObj [ (lit "status", JStr (lit "success")); (lit "result", JNull) ]
    | _ =>
        JObj [ (lit "status", JStr (lit "error"));
               (lit "result", JNull);
               (lit "error",
                JStr (lit "Container exited with code " ++ code_to_str code
                      ++ lit ". stderr: " ++ slice_last (stderrBuffer st) 500)) ]
    end.

End Parser.

End ContainerRunner.

(* ===================================================================== *)
(** ** src/ipc-utils.js                                                   *)
(* ===================================================================== *)

Module IpcUtils.

(** A file of a mailbox directory: its text, when [readFileSync] succeeds, and
    whether [unlinkSync] succeeds on it. *)
Record File := {
  content : option str;
  removable : bool
}.

(** A directory lists its entries by name. *)
Definition Dir := list (str * File).

Fixpoint lookup (name : str) (d : Dir) : option File :=
  match d with
  | [] => None
  | (n, f) :: t => if str_eqb name n then Some f else lookup name t
  end.

Fixpoint unlink (name : str) (d : Dir) : Dir :=
  match d with
  | [] => []
  | (n, f) :: t => if str_eqb name n then unlink name t else (n, f) :: unlink name t
  end.

Section Drain.

Variable JSON_parse : str -> option json.

(** [readIpcFile]: the parsed data, or [null] on any failure. *)
Definition readIpcFile (file : option File) : json :=
  match file with
  | Some f =>
      match content f with
      | Some raw =>
          match JSON_parse raw with
          | Some data => data
          | None => JNull
          end
      | None => JNull
      end
  | None => JNull
  end.

Definition is_null (v : json) : bool :=
  match v with JNull => true | _ => false end.

(** [if (filter && !filter(name)) continue]. *)
Definition rejected (filter : option (str -> bool)) (name : str) : bool :=
  match filter with
  | Some f => negb (f name)
  | None => false
  end.

(** The [for] loop over the sorted names; [d] is the directory as the loop
    leaves it. *)
Fixpoint drain_loop (filter : option (str -> bool)) (names : list str)
    (d : Dir) (results : list (json * str)) : list (json * str) * Dir :=
  match names with
  | [] => (results, d)
  | name :: more =>
      if negb (endsWith name (lit ".json")) then drain_loop filter more d results
      else if startsWith name (lit ".") then drain_loop filter more d results
      else if rejected filter name then drain_loop filter more d results
      else
        let data := readIpcFile (lookup name d) in
        if negb (is_null data) then
          let d' := match lookup name d with
                    | Some f => if removable f then unlink name d else d
                    | None => d
                    end in
          drain_loop filter more d' (results ++ [(data, name)])
        else drain_loop filter more d results
  end.

(** [dir] is [None] when [readdirSync] throws. *)
Definition drainIpcDir (dir : option Dir) (filter : option (str -> bool))
  : list (json * str) * option Dir :=
  match dir with
  | None => ([], None)
  | Some d =>
      let entries := map fst d in
      let '(results, d') := drain_loop filter (sort entries) d [] in
      (results, Some d')
  end.

End Drain.

(** *** Writing

    The order in which a directory lists its entries carries no meaning
    ([drainIpcDir] sorts the names): a file that is written goes to the end of
    the list. *)

(** [writeFileSync(join(dir, name), text)]: the file is created, or replaced.
    [unlinkable] tells whether [unlinkSync] will succeed on it. *)
Definition writeFileSync (name text : str) (unlinkable : bool) (d : Dir) : Dir :=
  unlink name d ++ [(name, {| content := Some text; removable := unlinkable |})].

(** [renameSync(join(dir, from), join(dir, to))]; it throws when [from] does
    not exist. *)
Definition renameSync (from to : str) (d : Dir) : outcome Dir :=
  match lookup from d with
  | Some f => Returns (unlink from (unlink to d) ++ [(to, f)])
  | None => Throws
  end.

(** [`${prefix}${Date.now()}-${randomUUID().slice(0, 8)}.json`]. *)
Definition ipc_filename (prefix : str) (now : nat) (uuid : str) : str :=
  prefix ++ nat_to_str now ++ lit "-" ++ slice uuid 0 8 ++ lit ".json".

(** [`.${filename}.tmp`]. *)
Definition tmp_name (filename : str) : str := lit "." ++ filename ++ lit ".tmp".

Section Write.

Variable JSON_stringify : json -> str.

(** [writeIpcFile(dir, data, prefix)] with what [Date.now()] and
    [randomUUID()] answer; [dir] is [None] when the directory does not exist
    yet ([mkdirSync] creates it).  The answer names the file inside [dir]. *)
Definition writeIpcFile (dir : option Dir) (data : json) (prefix : str)
    (now : nat) (uuid : str) (unlinkable : bool) : outcome (str * Dir) :=
  let d := match dir with Some d => d | None => [] end in
  let filename := ipc_filename prefix now uuid in
  let d1 := writeFileSync (tmp_name filename) (JSON_stringify data) unlinkable d in
  match renameSync (tmp_name filename) filename d1 with
  | Returns d2 => Returns (filename, d2)
  | Throws => Throws
  end.

End Write.

(** [writeCloseSentinel(dir)]: an empty file named [_close]. *)
Definition writeCloseSentinel (dir : option Dir) (unlinkable : bool) : Dir :=
  let d := match dir with Some d => d | None => [] end in
  writeFileSync (lit "_close") [] unlinkable d.

End IpcUtils.

(* ===================================================================== *)
(** ** src/ipc.js                                                         *)
(* ===================================================================== *)

Module Ipc.

Import IpcUtils.

Record RegisteredGroup := {
  jid : str;
  name : str;
  folder : str
}.

(** What one tick does to its surroundings, in order. *)
Inductive Effect :=
| SendMessage (resolvedJid text : json) (sender : option json)
| OnTask (type data : json) (sourceGroup : str) (isMain : bool)
| LogWarn (msg : str) (filename groupFolder : str)
| LogError (msg : str) (filename groupFolder : str)
| MoveToErrors (sourceDir filename : str).

(** [Object.values(groups).find((g) => g.folder === groupFolder)]. *)
Definition find_group (groups : list RegisteredGroup) (groupFolder : str)
  : option RegisteredGroup :=
  find (fun g => str_eqb (folder g) groupFolder) groups.

Definition is_main (groups : list RegisteredGroup) (groupFolder : str) : bool :=
  existsb (fun g => str_eqb (folder g) groupFolder
                    && str_eqb (folder g) (lit "main")) groups.

Section Poll.

(** Whether the awaited collaborator call rejects. *)
Variable rejects : Effect -> bool.

(** The [catch] block: log, then [moveToErrors]. *)
Definition failed (what dir filename groupFolder : str) : list Effect :=
  [ LogError what filename groupFolder; MoveToErrors dir filename ].

(** An awaited collaborator call inside the [try] block. *)
Definition dispatch (call : Effect) (what dir filename groupFolder : str)
  : list Effect :=
  call :: (if rejects call then failed what dir filename groupFolder else []).

(** The [try] block of the message loop, for [data] other than [null]. *)
Definition route_message (groups : list RegisteredGroup) (groupFolder : str)
    (isMain : bool) (data : json) (filename : str) : list Effect :=
  let targetJid := or_else (get_prop data (lit "targetJid"))
                           (get_prop data (lit "target_jid")) in
  let text := get_prop data (lit "text") in
  let sender := get_prop data (lit "sender") in
  match text with
  | None => [ LogWarn (lit "IPC message missing text") filename groupFolder ]
  | Some txt =>
      if negb (truthy txt) then
        [ LogWarn (lit "IPC message missing text") filename groupFolder ]
      else
        let blocked :=
          if negb isMain && truthy_opt targetJid then
            match find_group groups groupFolder, targetJid with
            | Some group, Some t => negb (strict_eq_str t (jid group))
            | _, _ => false
            end
          else false in
        if blocked then
          [ LogWarn (lit "Non-main group attempted cross-group message")
                    filename groupFolder ]
        else
          let resolvedJid :=
            if truthy_opt targetJid then targetJid
            else option_map (fun g => JStr (jid g)) (find_group groups groupFolder) in
          match resolvedJid with
          | Some r =>
              if truthy r then
                dispatch (SendMessage r txt sender)
                  (lit "Failed to process IPC message") (lit "messages")
                  filename groupFolder
              else []
          | None => []
          end
  end.

(** Body of the [for] loop over the drained messages of one group; reading a
    property of [null] throws into the [catch] block. *)
Definition process_message (groups : list RegisteredGroup) (groupFolder : str)
    (isMain : bool) (data : json) (filename : str) : list Effect :=
  match data with
  | JNull => failed (lit "Failed to process IPC message") (lit "messages")
                    filename groupFolder
  | _ => route_message groups groupFolder isMain data filename
  end.

(** The [try] block of the task loop, for [data] other than [null]. *)
Definition route_task (groupFolder : str) (isMain : bool) (data : json)
    (filename : str) : list Effect :=
  match get_prop data (lit "type") with
  | Some type =>
      if truthy type then
        let payload := match or_else (get_prop data (lit "data")) (Some data) with
                       | Some v => v
                       | None => data
                       end in
        dispatch (OnTask type payload groupFolder isMain)
          (lit "Failed to process IPC task") (lit "tasks") filename groupFolder
      else [ LogWarn (lit "IPC task missing type") filename groupFolder ]
  | None => [ LogWarn (lit "IPC task missing type") filename groupFolder ]
  end.

(** Body of the [for] loop over the drained task directives. *)
Definition process_task (groupFolder : str) (isMain : bool) (data : json)
    (filename : str) : list Effect :=
  match data with
  | JNull => failed (lit "Failed to process IPC task") (lit "tasks")
                    filename groupFolder
  | _ => route_task groupFolder isMain data filename
  end.

Variable JSON_parse : str -> option json.

(** The mailboxes of one group folder under the IPC base directory. *)
Record Mailboxes := {
  messages : option Dir;
  tasks : option Dir
}.

(** One turn of [for (const groupFolder of groupDirs)]. *)
Definition poll_group (groups : list RegisteredGroup) (groupFolder : str)
    (boxes : Mailboxes) : list Effect * Mailboxes :=
  let isMain := is_main groups groupFolder in
  let '(msgs, messages') := drainIpcDir JSON_parse (messages boxes) None in
  let '(tsks, tasks') := drainIpcDir JSON_parse (tasks boxes) None in
  (flat_map (fun e => process_message groups groupFolder isMain (fst e) (snd e)) msgs
   ++ flat_map (fun e => process_task groupFolder isMain (fst e) (snd e)) tsks,
   {| messages := messages'; tasks := tasks' |}).

(** The loop over the group directories. *)
Fixpoint poll_dirs (groups : list RegisteredGroup) (ipc : list (str * Mailboxes))
  : list Effect * list (str * Mailboxes) :=
  match ipc with
  | [] => ([], [])
  | (groupFolder, boxes) :: more =>
      let '(effects, boxes') := poll_group groups groupFolder boxes in
      let '(later, more') := poll_dirs groups more in
      (effects ++ later, (groupFolder, boxes') :: more')
  end.

(** One tick: [ipc] is the directories found under the IPC base, [None] when
    listing it throws; [groups] is what [getRegisteredGroups()] returns. *)
Definition poll (groups : list RegisteredGroup)
    (ipc : option (list (str * Mailboxes)))
  : list Effect * option (list (str * Mailboxes)) :=
  match ipc with
  | None => ([], None)
  | Some dirs =>
      let '(effects, dirs') := poll_dirs groups dirs in
      (effects, Some dirs')
  end.

End Poll.

End Ipc.

(* ===================================================================== *)
(** ** src/group-queue.js                                                 *)
(* ===================================================================== *)

Module GroupQueue.

Definition MAX_RETRIES : nat := 5.
Definition BASE_RETRY_DELAY : Z := 5000.

(** A queue item.  [promise] names the promise whose [resolve] and [reject] the
    item carries; [fn] tells whether a custom processing function is set. *)
Record QueueItem := {
  promise : nat;
  fn : bool;
  taskId : option str
}.

Record GroupState := {
  jid : str;
  process : option nat;
  containerName : option str;
  groupFolder : option str;
  processing : bool;
  queue : list QueueItem
}.

(** A call [_processItem(group, item, attempt)]; the group object is named by
    its jid, the key under which the map holds it. *)
Record Call := {
  target : str;
  item : QueueItem;
  attempt : nat
}.

(** How the awaited processing function settles. *)
Inductive Outcome :=
| Fulfilled (result : bool)
| Failed.

(** What the queue does that its callers can see. *)
Inductive Event :=
| Attempted (p k : nat)
| RetryScheduled (p k : nat) (delay : Z)
| Resolved (p : nat) (result : bool)
| Rejected (p k : nat).

(** The fields of the class, the calls suspended at their [await], the pending
    [setTimeout] callbacks and the trace.  [groups] keeps the insertion order of
    the map. *)
Record State := {
  groups : list GroupState;
  activeCount : Z;
  maxConcurrentContainers : Z;
  processMessagesFn : bool;
  awaiting : list Call;
  timers : list (Z * Call);
  trace : list Event;
  promises : nat
}.

Definition constructor (maxConcurrent : Z) : State :=
  {| groups := []; activeCount := 0; maxConcurrentContainers := maxConcurrent;
     processMessagesFn := false; awaiting := []; timers := []; trace := [];
     promises := 0 |}.

Definition with_groups (st : State) (gs : list GroupState) : State :=
  {| groups := gs; activeCount := activeCount st;
     maxConcurrentContainers := maxConcurrentContainers st;
     processMessagesFn := processMessagesFn st; awaiting := awaiting st;
     timers := timers st; trace := trace st; promises := promises st |}.

Definition with_activeCount (st : State) (n : Z) : State :=
  {| groups := groups st; activeCount := n;
     maxConcurrentContainers := maxConcurrentContainers st;
     processMessagesFn := processMessagesFn st; awaiting := awaiting st;
     timers := timers st; trace := trace st; promises := promises st |}.

Definition with_awaiting (st : State) (l : list Call) : State :=
  {| groups := groups st; activeCount := activeCount st;
     maxConcurrentContainers := maxConcurrentContainers st;
     processMessagesFn := processMessagesFn st; awaiting := l;
     timers := timers st; trace := trace st; promises := promises st |}.

Definition with_timers (st : State) (l : list (Z * Call)) : State :=
  {| groups := groups st; activeCount := activeCount st;
     maxConcurrentContainers := maxConcurrentContainers st;
     processMessagesFn := processMessagesFn st; awaiting := awaiting st;
     timers := l; trace := trace st; promises := promises st |}.

Definition emit (st : State) (e : Event) : State :=
  {| groups := groups st; activeCount := activeCount st;
     maxConcurrentContainers := maxConcurrentContainers st;
     processMessagesFn := processMessagesFn st; awaiting := awaiting st;
     timers := timers st; trace := trace st ++ [e]; promises := promises st |}.

Definition setProcessMessagesFn (st : State) : State :=
  {| groups := groups st; activeCount := activeCount st;
     maxConcurrentContainers := maxConcurrentContainers st;
     processMessagesFn := true; awaiting := awaiting st;
     timers := timers st; trace := trace st; promises := promises st |}.

Definition next_promise (st : State) : State :=
  {| groups := groups st; activeCount := activeCount st;
     maxConcurrentContainers := maxConcurrentContainers st;
     processMessagesFn := processMessagesFn st; awaiting := awaiting st;
     timers := timers st; trace := trace st; promises := S (promises st) |}.

Definition has_group (j : str) (gs : list GroupState) : bool :=
  existsb (fun g => str_eqb (jid g) j) gs.

Definition _getGroup (st : State) (j : str) : State :=
  if has_group j (groups st) then st
  else with_groups st
         (groups st ++ [ {| jid := j; process := None; containerName := None;
                            groupFolder := None; processing := false;
                            queue := [] |} ]).

(** Mutation of the group object held under key [j]. *)
Definition update (j : str) (f : GroupState -> GroupState)
    (gs : list GroupState) : list GroupState :=
  map (fun g => if str_eqb (jid g) j then f g else g) gs.

Definition set_queue (q : list QueueItem) (g : GroupState) : GroupState :=
  {| jid := jid g; process := process g; containerName := containerName g;
     groupFolder := groupFolder g; processing := processing g; queue := q |}.

Definition push (i : QueueItem) (g : GroupState) : GroupState :=
  set_queue (queue g ++ [i]) g.

Definition unshift (i : QueueItem) (g : GroupState) : GroupState :=
  set_queue (i :: queue g) g.

(** [group.processing = true] and [group.queue.shift()]. *)
Definition take (g : GroupState) : GroupState :=
  {| jid := jid g; process := process g; containerName := containerName g;
     groupFolder := groupFolder g; processing := true; queue := tl (queue g) |}.

(** The assignments of the [finally] block. *)
Definition release (g : GroupState) : GroupState :=
  {| jid := jid g; process := None; containerName := None;
     groupFolder := groupFolder g; processing := false; queue := queue g |}.

Definition register (proc : nat) (cname folder : str) (g : GroupState)
  : GroupState :=
  {| jid := jid g; process := Some proc; containerName := Some cname;
     groupFolder := Some folder; processing := processing g; queue := queue g |}.

Definition retry_delay (attempt : nat) : Z :=
  BASE_RETRY_DELAY * 2 ^ Z.of_nat attempt.

Definition retry (c : Call) : Call :=
  {| target := target c; item := item c; attempt := S (attempt c) |}.

Section ProcessItem.

(** The [_drain] that [finally] calls back into. *)
Variable redrain : State -> State.

(** The [finally] block. *)
Definition finally_ (st : State) (c : Call) : State :=
  if (MAX_RETRIES <=? attempt c) || negb (fn (item c)) then
    redrain (with_activeCount
               (with_groups st (update (target c) release (groups st)))
               (activeCount st - 1))
  else st.

(** The [catch] block followed by [finally]. *)
Definition on_failure (st : State) (c : Call) : State :=
  if attempt c <? MAX_RETRIES then
    let st1 := emit st (RetryScheduled (promise (item c)) (attempt c)
                                       (retry_delay (attempt c))) in
    finally_ (with_timers st1 (timers st1 ++ [(retry_delay (attempt c), retry c)])) c
  else
    finally_ (emit st (Rejected (promise (item c)) (attempt c))) c.

(** What follows the [await], once the processing function has settled. *)
Definition settle (st : State) (c : Call) (o : Outcome) : State :=
  match o with
  | Fulfilled result => finally_ (emit st (Resolved (promise (item c)) result)) c
  | Failed => on_failure st c
  end.

(** [_processItem(group, item, attempt)] up to its [await]; with no processing
    function at all the call throws at once. *)
Definition _processItem (st : State) (c : Call) : State :=
  let st1 := emit st (Attempted (promise (item c)) (attempt c)) in
  if fn (item c) || processMessagesFn st1 then
    with_awaiting st1 (awaiting st1 ++ [c])
  else on_failure st1 c.

End ProcessItem.

(** The [for] loop of [_drain] up to the group it starts. *)
Fixpoint pick (st : State) (gs : list GroupState) : option GroupState :=
  match gs with
  | [] => None
  | g :: rest =>
      if processing g || (length (queue g) =? 0) then pick st rest
      else if (maxConcurrentContainers st <=? activeCount st)%Z then None
      else Some g
  end.

(** [_drain]; the nested calls made from [finally] are counted by [n]. *)
Fixpoint drain_fuel (n : nat) (st : State) : State :=
  match n with
  | 0 => st
  | S n' =>
      if (maxConcurrentContainers st <=? activeCount st)%Z then st
      else
        match pick st (groups st) with
        | None => st
        | Some g =>
            match queue g with
            | [] => st
            | i :: _ =>
                let st1 := with_activeCount
                             (with_groups st (update (jid g) take (groups st)))
                             (activeCount st + 1) in
                _processItem (drain_fuel n') st1
                  {| target := jid g; item := i; attempt := 0 |}
            end
        end
  end.

Definition queued (st : State) : nat :=
  list_sum (map (fun g => length (queue g)) (groups st)).

(** Each nested call follows a [shift], so one more than the number of queued
    items covers them all. *)
Definition _drain (st : State) : State := drain_fuel (S (queued st)) st.

Definition enqueueMessageCheck (st : State) (groupJid : str) : State :=
  let st1 := _getGroup st groupJid in
  let i := {| promise := promises st1; fn := false; taskId := None |} in
  _drain (next_promise (with_groups st1 (update groupJid (push i) (groups st1)))).

Definition enqueueTask (st : State) (groupJid taskId : str) : State :=
  let st1 := _getGroup st groupJid in
  let i := {| promise := promises st1; fn := true; taskId := Some taskId |} in
  _drain (next_promise (with_groups st1 (update groupJid (unshift i) (groups st1)))).

Definition registerProcess (st : State) (groupJid : str) (proc : nat)
    (cname folder : str) : State :=
  let st1 := _getGroup st groupJid in
  with_groups st1 (update groupJid (register proc cname folder) (groups st1)).

Definition hasActiveContainer (st : State) (groupJid : str) : bool :=
  match find (fun g => str_eqb (jid g) groupJid) (groups st) with
  | Some g => match process g with Some _ => true | None => false end
  | None => false
  end.

(** The steps of the event loop that touch the queue. *)
Inductive Op :=
| SetProcessMessagesFn
| EnqueueMessageCheck (groupJid : str)
| EnqueueTask (groupJid taskId : str)
| RegisterProcess (groupJid : str) (proc : nat) (cname folder : str)
| Settle (n : nat) (o : Outcome)      (* the n-th suspended call resumes *)
| Fire (n : nat).                     (* the n-th pending timer fires *)

Definition step (st : State) (op : Op) : State :=
  match op with
  | SetProcessMessagesFn => setProcessMessagesFn st
  | EnqueueMessageCheck j => enqueueMessageCheck st j
  | EnqueueTask j t => enqueueTask st j t
  | RegisterProcess j p c f => registerProcess st j p c f
  | Settle n o =>
      match nth_error (awaiting st) n with
      | Some c => settle _drain (with_awaiting st (remove_nth n (awaiting st))) c o
      | None => st
      end
  | Fire n =>
      match nth_error (timers st) n with
      | Some (_, c) => _processItem _drain (with_timers st (remove_nth n (timers st))) c
      | None => st
      end
  end.

Definition run (st : State) (ops : list Op) : State := fold_left step ops st.

(** [Σ over groups of (1 if processing else 0)]. *)
Definition processing_count (st : State) : Z :=
  Z.of_nat (length (filter processing (groups st))).

(** The items of group [j] that are in flight: suspended at their [await] or
    waiting for their retry timer. *)
Definition in_flight (st : State) (j : str) : list Call :=
  filter (fun c => str_eqb (target c) j) (awaiting st ++ map snd (timers st)).

Definition group_processing (st : State) (j : str) : option bool :=
  option_map processing (find (fun g => str_eqb (jid g) j) (groups st)).

(** [sendMessage(groupJid, text)]: the state [_getGroup] leaves and, when the
    answer is [true], the folder whose input directory receives the file and
    the data handed to [writeIpcFile]; [None] is the answer [false].
    [timestamp] is what [new Date().toISOString()] gives. *)
Definition sendMessage (st : State) (groupJid : str) (text : json)
    (timestamp : str) : State * option (str * json) :=
  let st1 := _getGroup st groupJid in
  (st1,
   match find (fun g => str_eqb (jid g) groupJid) (groups st1) with
   | Some g =>
       match process g, groupFolder g with
       | Some _, Some ((_ :: _) as folder) =>
           Some (folder, JObj [ (lit "text", text);
                                (lit "timestamp", JStr timestamp) ])
       | _, _ => None
       end
   | None => None
   end).

(** [closeContainer(groupJid)]: the state [_getGroup] leaves and the folder
    whose input directory receives the close sentinel, if any. *)
Definition closeContainer (st : State) (groupJid : str) : State * option str :=
  let st1 := _getGroup st groupJid in
  (st1,
   match find (fun g => str_eqb (jid g) groupJid) (groups st1) with
   | Some g =>
       match groupFolder g with
       | Some ((_ :: _) as folder) => Some folder
       | _ => None
       end
   | None => None
   end).

End GroupQueue.

(* ===================================================================== *)
(** ** container/agent-runner.js                                          *)
(* ===================================================================== *)

Module AgentRunner.

Import IpcUtils.

Definition OUTPUT_START_MARKER : str := lit "---JSCLAW_OUTPUT_START---".
Definition OUTPUT_END_MARKER : str := lit "---JSCLAW_OUTPUT_END---".

(** What [writeOutput(output)] writes to stdout. *)
Definition writeOutput (JSON_stringify : json -> str) (output : json) : str :=
  ["010"%char] ++ OUTPUT_START_MARKER ++ ["010"%char] ++ JSON_stringify output
    ++ ["010"%char] ++ OUTPUT_END_MARKER ++ ["010"%char].

(** [shouldClose()]; [dir] is the input directory, [None] when it does not
    exist. *)
Definition shouldClose (dir : option Dir) : bool :=
  match dir with
  | Some d => match lookup (lit "_close") d with Some _ => true | None => false end
  | None => false
  end.

Section Input.

Variable JSON_parse : str -> option json.

(** The [for] loop of [drainIpcInput]: anything thrown inside the [try] skips
    the rest of the turn; [unlinkSync] comes after the push. *)
Fixpoint input_loop (names : list str) (d : Dir) (messages : list json)
  : list json * Dir :=
  match names with
  | [] => (messages, d)
  | name :: more =>
      match lookup name d with
      | Some f =>
          match content f with
          | Some raw =>
              match JSON_parse raw with
              | Some JNull => input_loop more d messages
              | Some data =>
                  let messages' :=
                    match get_prop data (lit "text") with
                    | Some text => if truthy text then messages ++ [text]
                                   else messages
                    | None => messages
                    end in
                  input_loop more (if removable f then unlink name d else d)
                             messages'
              | None => input_loop more d messages
              end
          | None => input_loop more d messages
          end
      | None => input_loop more d messages
      end
  end.

(** [drainIpcInput()]: the message texts, and the directory as it is left. *)
Definition drainIpcInput (dir : option Dir) : list json * option Dir :=
  match dir with
  | None => ([], None)
  | Some d =>
      let entries :=
        sort (filter (fun f => endsWith f (lit ".json")
                               && negb (startsWith f (lit ".")))
                     (map fst d)) in
      let '(messages, d') := input_loop entries d [] in
      (messages, Some d')
  end.

End Input.

End AgentRunner.

(* ===================================================================== *)
(** ** container/mcp-server.js                                            *)
(* ===================================================================== *)

Module McpServer.

(** The environment variables the host sets; [None] when unset. *)
Record ProcessEnv := {
  JSCLAW_CHAT_JID : option str;
  JSCLAW_GROUP_FOLDER : option str;
  JSCLAW_IS_MAIN : option str
}.

Definition CHAT_JID (env : ProcessEnv) : str :=
  match JSCLAW_CHAT_JID env with Some s => s | None => [] end.

Definition GROUP_FOLDER (env : ProcessEnv) : str :=
  match JSCLAW_GROUP_FOLDER env with Some s => s | None => [] end.

Definition IS_MAIN (env : ProcessEnv) : bool :=
  match JSCLAW_IS_MAIN env with Some s => str_eqb s (lit "true") | None => false end.

Definition IPC_MESSAGES_DIR : str := lit "/workspace/ipc/messages".
Definition IPC_TASKS_DIR : str := lit "/workspace/ipc/tasks".

(** A property of an object literal; one whose value is [undefined] is left
    out by [JSON.stringify]. *)
Definition prop (k : string) (v : option json) : list (str * json) :=
  match v with Some j => [(lit k, j)] | None => [] end.

Section Tools.

Variable env : ProcessEnv.

(** Whether [parseExpression(schedule_value)] of cron-parser returns. *)
Variable cron_parses : option json -> bool.

(** What a tool call hands to [writeIpcFile], if anything: the directory and
    the data.  (The text replied to the agent is not part of this.)
    [timestamp] is what [new Date().toISOString()] gives. *)
Definition handleToolCall (name : str) (args : json) (timestamp : str)
  : option (str * json) :=
  if str_eqb name (lit "send_message") then
    let text := get_prop args (lit "text") in
    let sender := get_prop args (lit "sender") in
    let target_jid := get_prop args (lit "target_jid") in
    if truthy_opt target_jid && negb (IS_MAIN env) then None
    else
      Some (IPC_MESSAGES_DIR,
            JObj (prop "text" text
                  ++ prop "sender" (if truthy_opt sender then sender else None)
                  ++ prop "targetJid" (or_else target_jid (Some (JStr (CHAT_JID env))))
                  ++ prop "sourceGroup" (Some (JStr (GROUP_FOLDER env)))
                  ++ prop "timestamp" (Some (JStr timestamp))))
  else if str_eqb name (lit "schedule_task") then
    let prompt := get_prop args (lit "prompt") in
    let schedule_type := get_prop args (lit "schedule_type") in
    let schedule_value := get_prop args (lit "schedule_value") in
    let context_mode := get_prop args (lit "context_mode") in
    let target_group_jid := get_prop args (lit "target_group_jid") in
    if match schedule_type with
       | Some t => strict_eq_str t (lit "cron") && negb (cron_parses schedule_value)
       | None => false
       end
    then None
    else if truthy_opt target_group_jid && negb (IS_MAIN env) then None
    else
      Some (IPC_TASKS_DIR,
            JObj (prop "type" (Some (JStr (lit "schedule_task")))
                  ++ prop "data"
                       (Some (JObj
                          (prop "prompt" prompt
                           ++ prop "schedule_type" schedule_type
                           ++ prop "schedule_value" schedule_value
                           ++ prop "context_mode"
                                (or_else context_mode (Some (JStr (lit "fresh"))))
                           ++ prop "chat_jid"
                                (or_else target_group_jid
                                         (Some (JStr (CHAT_JID env))))
                           ++ prop "group_folder" (Some (JStr (GROUP_FOLDER env))))))
                  ++ prop "sourceGroup" (Some (JStr (GROUP_FOLDER env)))
                  ++ prop "timestamp" (Some (JStr timestamp))))
  else if str_eqb name (lit "list_tasks") then None
  else if str_eqb name (lit "pause_task") || str_eqb name (lit "resume_task")
          || str_eqb name (lit "cancel_task") then
    Some (IPC_TASKS_DIR,
          JObj (prop "type" (Some (JStr name))
                ++ prop "data"
                     (Some (JObj (prop "task_id" (get_prop args (lit "task_id")))))
                ++ prop "sourceGroup" (Some (JStr (GROUP_FOLDER env)))
                ++ prop "timestamp" (Some (JStr timestamp))))
  else None.

(** The request handler: [handleToolCall(name, args || {})]. *)
Definition callTool (name : str) (args : option json) (timestamp : str)
  : option (str * json) :=
  handleToolCall name
    (match args with
     | Some a => if truthy a then a else JObj []
     | None => JObj []
     end)
    timestamp.

End Tools.

End McpServer.

(* ===================================================================== *)
(** ** examples/telegram.js                                               *)
(* ===================================================================== *)

Module TelegramExample.

Definition LF : ascii := "010"%char.

(** [s.lastIndexOf('\n', from)]: the last index at most [from] that holds a
    line feed. *)
Fixpoint lastIndexOf_LF (s : str) (from : nat) : option nat :=
  match s with
  | [] => None
  | x :: t =>
      match from with
      | 0 => if Ascii.eqb x LF then Some 0 else None
      | S from' =>
          match lastIndexOf_LF t from' with
          | Some i => Some (S i)
          | None => if Ascii.eqb x LF then Some 0 else None
          end
      end
  end.

(** [s.replace(/^\n/, '')]. *)
Definition drop_leading_LF (s : str) : str :=
  match s with
  | c :: t => if Ascii.eqb c LF then t else s
  | [] => []
  end.

(** The [while] loop of [splitMessage]; [fuel] bounds its turns, and [None]
    says that the bound was reached. *)
Fixpoint split_loop (fuel : nat) (remaining : str) (maxLen : nat)
    (chunks : list str) : option (list str) :=
  match fuel with
  | 0 => None
  | S fuel' =>
      if length remaining =? 0 then Some chunks
      else if length remaining <=? maxLen then Some (chunks ++ [remaining])
      else
        let splitAt :=
          match lastIndexOf_LF remaining maxLen with
          | Some i => if 2 * i <? maxLen then maxLen else i
          | None => maxLen
          end in
        split_loop fuel' (drop_leading_LF (slice_from remaining splitAt)) maxLen
                   (chunks ++ [slice remaining 0 splitAt])
  end.

(** [splitMessage(text, maxLen)] for a length [maxLen]. *)
Definition splitMessage (text : str) (maxLen : nat) : option (list str) :=
  if length text <=? maxLen then Some [text]
  else split_loop (S (length text)) text maxLen [].

End TelegramExample.

(* ===================================================================== *)
(** * Part II. Properties                                                 *)
(* ===================================================================== *)

(** ** Strings *)

Lemma str_eqb_eq (a b : str) : str_eqb a b = true <-> a = b.
Proof.
  revert b; induction a as [|x a IH]; intros [|y b]; simpl; split;
    try discriminate; try reflexivity.
  - intros H. apply andb_true_iff in H as [Hx Hr].
    apply Ascii.eqb_eq in Hx. apply IH in Hr. congruence.
  - intros H; injection H as -> ->.
    apply andb_true_iff; split; [apply Ascii.eqb_refl | now apply IH].
Qed.

Lemma str_eqb_refl (a : str) : str_eqb a a = true.
Proof. now apply str_eqb_eq. Qed.

Lemma str_eqb_neq (a b : str) : str_eqb a b = false <-> a <> b.
Proof.
  split.
  - intros H E. apply str_eqb_eq in E. congruence.
  - intros H. destruct (str_eqb a b) eqn:E; [|reflexivity].
    apply str_eqb_eq in E. contradiction.
Qed.

Lemma prefixb_app (p s : str) : prefixb p (p ++ s) = true.
Proof.
  induction p as [|x p IH]; simpl; [reflexivity|].
  now rewrite Ascii.eqb_refl, IH.
Qed.

Lemma prefixb_spec (p s : str) :
  prefixb p s = true <-> exists r, s = p ++ r.
Proof.
  split.
  - revert s; induction p as [|x p IH]; intros s H.
    + now exists s.
    + destruct s as [|y s]; simpl in H; [discriminate|].
      apply andb_true_iff in H as [Hx Hr].
      apply Ascii.eqb_eq in Hx. destruct (IH _ Hr) as [r ->].
      exists r. now subst.
  - intros [r ->]. apply prefixb_app.
Qed.

Lemma prefixb_length (p s : str) : prefixb p s = true -> length p <= length s.
Proof.
  intros H. apply prefixb_spec in H as [r ->]. rewrite length_app. lia.
Qed.

Lemma index0_prefix (p s : str) : prefixb p s = true -> index0 p s = Some 0.
Proof. intros H. destruct s; simpl; now rewrite H. Qed.

Lemma index0_occurrence (p a b : str) : index0 p (a ++ p ++ b) <> None.
Proof.
  induction a as [|x a IH]; simpl.
  - rewrite index0_prefix; [discriminate | apply prefixb_app].
  - destruct (prefixb p (x :: a ++ p ++ b)); [discriminate|].
    destruct (index0 p (a ++ p ++ b)); [discriminate | contradiction].
Qed.

Lemma includes_index0 (hay needle : str) :
  includes hay needle = match index0 needle hay with Some _ => true | None => false end.
Proof.
  unfold includes, indexOf. simpl.
  now destruct (index0 needle hay).
Qed.

Lemma includes_occurrence (p a b : str) : includes (a ++ p ++ b) p = true.
Proof.
  rewrite includes_index0.
  pose proof (index0_occurrence p a b) as H.
  destruct (index0 p (a ++ p ++ b)); [reflexivity | contradiction].
Qed.

(** ** Mount security *)

Import MountSecurity.

(** A host on which every path exists, is its own real path and is already
    normalized; no file can be read. *)
Definition plain_host : Host :=
  {| realpathSync := fun p => Some p;
     readFileSync := fun _ => None;
     normalize := fun p => p;
     resolve := fun p => p;
     JSON_parse := fun _ => None |}.

Definition mount (host container : string) : AdditionalMount :=
  {| host_path := lit host; container_path := lit container; read_only := None |}.

Lemma first_blocked_strings (normalized : str) (l : list str) :
  first_blocked normalized (map JStr l)
  = Returns (find (fun p => includes normalized (toLowerCase p)) l).
Proof.
  induction l as [|p l IH]; simpl; [reflexivity|].
  destruct (includes normalized (toLowerCase p)); [reflexivity | exact IH].
Qed.

Lemma matchesBlocked_strings (h : Host) (hostPath : str) (user : list str) :
  matchesBlocked h hostPath (Some (JArr (map JStr user)))
  = Returns (find (fun p => includes (toLowerCase (normalize h hostPath)) (toLowerCase p))
                  (DEFAULT_BLOCKED_PATTERNS ++ user)).
Proof.
  unfold matchesBlocked. simpl spread. cbv beta iota.
  rewrite <- map_app. apply first_blocked_strings.
Qed.

Lemma matchesBlocked_absent (h : Host) (hostPath : str) :
  matchesBlocked h hostPath None
  = Returns (find (fun p => includes (toLowerCase (normalize h hostPath)) (toLowerCase p))
                  DEFAULT_BLOCKED_PATTERNS).
Proof.
  unfold matchesBlocked. simpl spread. cbv beta iota.
  rewrite app_nil_r. apply first_blocked_strings.
Qed.

Lemma find_app {A : Type} (f : A -> bool) (a b : list A) :
  find f (a ++ b) = match find f a with Some x => Some x | None => find f b end.
Proof.
  induction a as [|x a IH]; simpl; [reflexivity|].
  destruct (f x); [reflexivity | exact IH].
Qed.

Lemma find_exists {A : Type} (f : A -> bool) (l : list A) (x : A) :
  In x l -> f x = true -> exists y, find f l = Some y.
Proof.
  intros Hin Hf. destruct (find f l) as [y|] eqn:E; [now exists y|].
  now rewrite (find_none f l E x Hin) in Hf.
Qed.

Lemma default_patterns_nonempty : Forall (fun p => p <> []) DEFAULT_BLOCKED_PATTERNS.
Proof. repeat constructor; discriminate. Qed.

(** The pattern [matchesBlocked] reports is the first one, built-in patterns
    first, whose lower-case form occurs in the lower-cased path. *)
Lemma first_match_nonempty (normalized : str) (user : list str) :
  (exists p, In p DEFAULT_BLOCKED_PATTERNS
             /\ includes normalized (toLowerCase p) = true)
  \/ (Forall (fun p => p <> []) user
      /\ exists p, In p user /\ includes normalized (toLowerCase p) = true) ->
  exists p, find (fun p => includes normalized (toLowerCase p))
                 (DEFAULT_BLOCKED_PATTERNS ++ user) = Some p
            /\ p <> [].
Proof.
  set (f := fun p => includes normalized (toLowerCase p)).
  intros [[p [Hin Hp]] | [Hne [p [Hin Hp]]]].
  - destruct (find_exists f _ p Hin Hp) as [y Hy].
    exists y. rewrite find_app, Hy. split; [reflexivity|].
    apply find_some in Hy as [Hy _].
    pose proof default_patterns_nonempty as D.
    rewrite Forall_forall in D. now apply D.
  - assert (Hin' : In p (DEFAULT_BLOCKED_PATTERNS ++ user))
      by (apply in_or_app; now right).
    destruct (find_exists f _ p Hin' Hp) as [y Hy].
    exists y. split; [exact Hy|].
    apply find_some in Hy as [Hy _].
    apply in_app_or in Hy as [Hy | Hy].
    + pose proof default_patterns_nonempty as D.
      rewrite Forall_forall in D. now apply D.
    + rewrite Forall_forall in Hne. now apply Hne.
Qed.

Definition blocked_reason (pattern realHostPath : str) : str :=
  lit "Path matches blocked pattern '" ++ pattern ++ lit "': " ++ realHostPath.

Lemma blocked_reason_names (pattern realHostPath : str) :
  includes (blocked_reason pattern realHostPath) pattern = true.
Proof. apply includes_occurrence. Qed.

(** What [validateMount] answers once the container path is accepted and the
    host path resolves, for an allowlist whose patterns are strings. *)
Lemma validateMount_resolved (h : Host) (m : AdditionalMount) (isMain : bool)
    (roots user : list str) (real : str) :
  includes (container_path m) (lit "..") = false ->
  startsWith (container_path m) (lit "/") = true ->
  realpathSync h (host_path m) = Some real ->
  validateMount h m isMain
    {| allowed_roots := roots; blocked_patterns := Some (JArr (map JStr user)) |}
  = match find (fun p => includes (toLowerCase (normalize h real)) (toLowerCase p))
               (DEFAULT_BLOCKED_PATTERNS ++ user) with
    | Some ((_ :: _) as pattern) => invalid (blocked_reason pattern real)
    | _ => if negb (underAllowedRoot roots real)
           then invalid (lit "Path not under any allowed root: " ++ real)
           else Returns {| valid := true; reason := None |}
    end.
Proof.
  intros Hdots Hslash Hreal. unfold validateMount.
  rewrite Hdots, Hslash, Hreal. simpl orb. cbv iota.
  simpl blocked_patterns. rewrite matchesBlocked_strings. reflexivity.
Qed.

Lemma validateMount_resolved_absent (h : Host) (m : AdditionalMount)
    (isMain : bool) (roots : list str) (real : str) :
  includes (container_path m) (lit "..") = false ->
  startsWith (container_path m) (lit "/") = true ->
  realpathSync h (host_path m) = Some real ->
  validateMount h m isMain {| allowed_roots := roots; blocked_patterns := None |}
  = match find (fun p => includes (toLowerCase (normalize h real)) (toLowerCase p))
               DEFAULT_BLOCKED_PATTERNS with
    | Some ((_ :: _) as pattern) => invalid (blocked_reason pattern real)
    | _ => if negb (underAllowedRoot roots real)
           then invalid (lit "Path not under any allowed root: " ++ real)
           else Returns {| valid := true; reason := None |}
    end.
Proof.
  intros Hdots Hslash Hreal. unfold validateMount.
  rewrite Hdots, Hslash, Hreal. simpl orb. cbv iota.
  simpl blocked_patterns. rewrite matchesBlocked_absent. reflexivity.
Qed.




(** The truthiness test [if (blocked)] lets an empty user pattern through, and
    with it every pattern listed after it. *)
Lemma validateMount_empty_pattern_masks :
  validateMount plain_host (mount "/home/u/vault" "/mnt/v") false
    {| allowed_roots := [lit "/home/u"];
       blocked_patterns := Some (JArr [JStr []; JStr (lit "vault")]) |}
  = Returns {| valid := true; reason := None |}.
Proof. reflexivity. Qed.

(** When [loadMountAllowlist] answers [null]: the file cannot be read, is not
    JSON, is the JSON [null], or has no array under [allowed_roots]. *)
Lemma loadMountAllowlist_fails (h : Host) (path : str) :
  readFileSync h path = None
  \/ (exists raw, readFileSync h path = Some raw /\ JSON_parse h raw = None)
  \/ (exists raw parsed,
        readFileSync h path = Some raw /\ JSON_parse h raw = Some parsed
        /\ forall roots, get_prop parsed (lit "allowed_roots") <> Some (JArr roots)) ->
  loadMountAllowlist h path = None.
Proof.
  unfold loadMountAllowlist.
  intros [Hread | [[raw [Hread Hparse]] | [raw [parsed [Hread [Hparse Hroots]]]]]];
    rewrite Hread; [reflexivity | now rewrite Hparse |].
  rewrite Hparse.
  destruct (get_prop parsed (lit "allowed_roots")) as [[| | | |roots|]|] eqn:E;
    try (now destruct parsed).
  exfalso. now apply (Hroots roots).
Qed.

(** C4 (amended).  For every non-empty [mounts], group name and [isMain]:
    with no allowlist path (undefined, or the empty string)
    [validateAdditionalMounts] returns valid:false with the single error
    "No mount allowlist configured..."; with a path whose allowlist fails to
    load (the file cannot be read, is not JSON, or has no array under
    [allowed_roots]) it returns valid:false with the error "Failed to load
    mount allowlist from: <path>".  An empty [mounts] returns valid:true with no
    errors, whatever the allowlist. *)
Theorem validateAdditionalMounts_without_allowlist :
  forall (h : Host) (mounts : list AdditionalMount) (groupName : str)
         (isMain : bool),
    mounts <> [] ->
    validateAdditionalMounts h mounts groupName isMain None
    = Returns {| all_valid := false;
                 errors := [lit "No mount allowlist configured. All additional mounts are blocked."] |}
    /\ validateAdditionalMounts h mounts groupName isMain (Some [])
       = Returns {| all_valid := false;
                    errors := [lit "No mount allowlist configured. All additional mounts are blocked."] |}
    /\ (forall path,
          path <> [] ->
          loadMountAllowlist h path = None ->
          validateAdditionalMounts h mounts groupName isMain (Some path)
          = Returns {| all_valid := false;
                       errors := [lit "Failed to load mount allowlist from: " ++ path] |})
    /\ (forall path,
          readFileSync h path = None
          \/ (exists raw, readFileSync h path = Some raw /\ JSON_parse h raw = None)
          \/ (exists raw parsed,
                readFileSync h path = Some raw /\ JSON_parse h raw = Some parsed
                /\ forall roots,
                     get_prop parsed (lit "allowed_roots") <> Some (JArr roots)) ->
          loadMountAllowlist h path = None)
    /\ (forall allowlistPath,
          validateAdditionalMounts h [] groupName isMain allowlistPath
          = Returns {| all_valid := true; errors := [] |}).
Proof.
  intros h mounts groupName isMain Hne.
  destruct mounts as [|m mounts]; [contradiction|].
  split; [reflexivity|]. split; [reflexivity|]. split; [|split].
  - intros path Hpath Hload. unfold validateAdditionalMounts.
    destruct path; [contradiction|]. now rewrite Hload.
  - apply loadMountAllowlist_fails.
  - reflexivity.
Qed.

Lemma validateAdditionalMounts_without_allowlist_witness :
  validateAdditionalMounts plain_host [mount "/srv/data" "/mnt/data"] (lit "g1")
    false None
  = Returns {| all_valid := false;
               errors := [lit "No mount allowlist configured. All additional mounts are blocked."] |}
  /\ validateAdditionalMounts plain_host [mount "/srv/data" "/mnt/data"] (lit "g1")
       false (Some (lit "/etc/allow.json"))
     = Returns {| all_valid := false;
                  errors := [lit "Failed to load mount allowlist from: /etc/allow.json"] |}.
Proof.
  assert (Hne : [mount "/srv/data" "/mnt/data"] <> []) by discriminate.
  pose proof (validateAdditionalMounts_without_allowlist plain_host
                [mount "/srv/data" "/mnt/data"] (lit "g1") false Hne)
    as [Hnone [_ [Hload [Hcause _]]]].
  split; [exact Hnone|].
  apply (Hload (lit "/etc/allow.json")); [discriminate|].
  apply Hcause. now left.
Defined.

(** C4 as stated fails on the empty list: with no allowlist configured the
    call returns valid:true. *)
Lemma validateAdditionalMounts_without_allowlist_counterexample :
  validateAdditionalMounts plain_host [] (lit "g1") false None
  = Returns {| all_valid := true; errors := [] |}.
Proof. reflexivity. Qed.

(** ** The allowed-root check *)

Lemma underAllowedRoot_spec (roots : list str) (p : str) :
  underAllowedRoot roots p = true
  <-> exists root, In root roots
                   /\ (p = root \/ exists rest, p = root ++ lit "/" ++ rest).
Proof.
  unfold underAllowedRoot. rewrite existsb_exists.
  split; intros [root [Hin H]]; exists root; (split; [exact Hin|]).
  - apply orb_true_iff in H as [H | H].
    + left. now apply str_eqb_eq.
    + right. unfold startsWith in H. apply prefixb_spec in H as [rest ->].
      exists rest. now rewrite <- app_assoc.
  - apply orb_true_iff. destruct H as [-> | [rest ->]].
    + left. apply str_eqb_refl.
    + right. unfold startsWith. rewrite app_assoc. apply prefixb_app.
Qed.

(** C10.  [validateMount] answers valid:true only when the resolved host path
    equals an allowed root or begins with that root followed by "/"; the
    allowed-root test itself holds exactly in that case; and /home/user2, which
    only shares a string prefix with the root /home/user, is rejected as not
    under any allowed root. *)
Theorem validateMount_allowed_root :
  (forall (h : Host) (m : AdditionalMount) (isMain : bool)
          (allowlist : MountAllowlist) (r : MountResult),
      validateMount h m isMain allowlist = Returns r ->
      valid r = true ->
      exists real root,
        realpathSync h (host_path m) = Some real
        /\ In root (allowed_roots allowlist)
        /\ (real = root \/ exists rest, real = root ++ lit "/" ++ rest))
  /\ (forall (roots : list str) (p : str),
        underAllowedRoot roots p = true
        <-> exists root, In root roots
                         /\ (p = root \/ exists rest, p = root ++ lit "/" ++ rest))
  /\ (forall (h : Host) (isMain : bool),
        realpathSync h (lit "/home/user2") = Some (lit "/home/user2") ->
        normalize h (lit "/home/user2") = lit "/home/user2" ->
        validateMount h (mount "/home/user2" "/mnt/data") isMain
          {| allowed_roots := [lit "/home/user"]; blocked_patterns := None |}
        = Returns {| valid := false;
                     reason := Some (lit "Path not under any allowed root: /home/user2") |}).
Proof.
  split; [|split].
  - intros h m isMain allowlist r Hret Hvalid.
    unfold validateMount, invalid in Hret.
    destruct (includes (container_path m) (lit "..")
              || negb (startsWith (container_path m) (lit "/"))).
    { injection Hret as <-. discriminate. }
    destruct (realpathSync h (host_path m)) as [real|].
    2:{ injection Hret as <-. discriminate. }
    destruct (matchesBlocked h real (blocked_patterns allowlist)) as [blocked|];
      [|discriminate].
    assert (Hroot : underAllowedRoot (allowed_roots allowlist) real = true).
    { destruct blocked as [[|c pattern]|];
        try (injection Hret as <-; discriminate);
        destruct (underAllowedRoot (allowed_roots allowlist) real);
        try reflexivity; injection Hret as <-; discriminate. }
    apply underAllowedRoot_spec in Hroot as [root [Hin Hroot]].
    exists real, root. now repeat split.
  - exact underAllowedRoot_spec.
  - intros h isMain Hreal Hnorm.
    rewrite (validateMount_resolved_absent h (mount "/home/user2" "/mnt/data") isMain
               [lit "/home/user"] (lit "/home/user2")); try reflexivity; try exact Hreal.
    rewrite Hnorm. reflexivity.
Qed.

Lemma validateMount_allowed_root_witness :
  (exists real root,
      realpathSync plain_host (lit "/home/user/docs") = Some real
      /\ In root [lit "/home/user"]
      /\ (real = root \/ exists rest, real = root ++ lit "/" ++ rest))
  /\ validateMount plain_host (mount "/home/user2" "/mnt/data") false
       {| allowed_roots := [lit "/home/user"]; blocked_patterns := None |}
     = Returns {| valid := false;
                  reason := Some (lit "Path not under any allowed root: /home/user2") |}.
Proof.
  split.
  - apply (proj1 validateMount_allowed_root plain_host
             (mount "/home/user/docs" "/mnt/docs") false
             {| allowed_roots := [lit "/home/user"]; blocked_patterns := None |}
             {| valid := true; reason := None |}); reflexivity.
  - apply (proj2 (proj2 validateMount_allowed_root) plain_host false); reflexivity.
Defined.

(** ** Searching in a string that grows *)

Lemma prefixb_app_r (n h b : str) :
  prefixb n h = true -> prefixb n (h ++ b) = true.
Proof.
  intros H. apply prefixb_spec in H as [r ->].
  rewrite <- app_assoc. apply prefixb_app.
Qed.

Lemma prefixb_app_long (n h b : str) :
  length n <= length h -> prefixb n (h ++ b) = prefixb n h.
Proof.
  revert h; induction n as [|x n IH]; intros [|y h] Hlen; simpl in *;
    try reflexivity; try lia.
  rewrite IH by lia. reflexivity.
Qed.

Lemma index0_bound (n h : str) (i : nat) :
  index0 n h = Some i -> i + length n <= length h.
Proof.
  revert i; induction h as [|y h IH]; intros i; simpl.
  - destruct (prefixb n []) eqn:E; [|discriminate].
    intros H; injection H as <-. apply prefixb_length in E. simpl in *. lia.
  - destruct (prefixb n (y :: h)) eqn:E.
    + intros H; injection H as <-. apply prefixb_length in E. simpl in *. lia.
    + destruct (index0 n h) as [j|]; simpl; [|discriminate].
      intros H; injection H as <-. specialize (IH j eq_refl). lia.
Qed.

Lemma index0_app_stable (n h b : str) (i : nat) :
  index0 n h = Some i -> index0 n (h ++ b) = Some i.
Proof.
  revert i; induction h as [|y h IH]; intros i.
  - simpl. destruct (prefixb n []) eqn:E; [|discriminate].
    intros H; injection H as <-.
    apply index0_prefix. now apply (prefixb_app_r n [] b).
  - simpl. destruct (prefixb n (y :: h)) eqn:E.
    + intros H; injection H as <-.
      change (y :: h ++ b) with ((y :: h) ++ b).
      now rewrite (prefixb_app_r n (y :: h) b E).
    + destruct (index0 n h) as [j|] eqn:Ej; simpl; [|discriminate].
      intros H; injection H as <-.
      pose proof (index0_bound n h j Ej) as Hb.
      change (y :: h ++ b) with ((y :: h) ++ b).
      rewrite (prefixb_app_long n (y :: h) b) by (simpl; lia).
      rewrite E. now rewrite (IH j eq_refl).
Qed.

Lemma skipn_app_le {A : Type} (k : nat) (a b : list A) :
  k <= length a -> skipn k (a ++ b) = skipn k a ++ b.
Proof.
  intros H. rewrite skipn_app.
  replace (k - length a) with 0 by lia. reflexivity.
Qed.

Lemma firstn_app_le {A : Type} (k : nat) (a b : list A) :
  k <= length a -> firstn k (a ++ b) = firstn k a.
Proof.
  intros H. rewrite firstn_app.
  replace (k - length a) with 0 by lia. simpl. apply app_nil_r.
Qed.

Lemma indexOf_bound (hay needle : str) (from i : nat) :
  needle <> [] ->
  indexOf hay needle from = Some i ->
  from <= i /\ i + length needle <= length hay.
Proof.
  unfold indexOf. intros Hne.
  destruct (index0 needle (skipn (Nat.min from (length hay)) hay)) as [j|] eqn:E;
    simpl; [|discriminate].
  intros H; injection H as <-.
  pose proof (index0_bound _ _ _ E) as Hb. rewrite length_skipn in Hb.
  destruct (Nat.le_gt_cases from (length hay)) as [Hle | Hgt].
  - rewrite Nat.min_l in * by lia. lia.
  - rewrite Nat.min_r in E by lia. rewrite skipn_all in E.
    apply ContainerRunner.index0_nil in E. contradiction.
Qed.

Lemma indexOf_app_stable (hay needle b : str) (from i : nat) :
  needle <> [] ->
  indexOf hay needle from = Some i ->
  indexOf (hay ++ b) needle from = Some i.
Proof.
  intros Hne H. pose proof (indexOf_bound hay needle from i Hne H) as [Hfrom Hb].
  unfold indexOf in *.
  assert (Hle : from <= length hay) by lia.
  rewrite Nat.min_l in H by lia.
  rewrite Nat.min_l by (rewrite length_app; lia).
  rewrite skipn_app_le by lia.
  destruct (index0 needle (skipn from hay)) as [j|] eqn:E; simpl in H; [|discriminate].
  now rewrite (index0_app_stable _ _ b j E).
Qed.

(** ** The framing parser *)

Import ContainerRunner.

Lemma markers_nonempty : OUTPUT_START_MARKER <> [] /\ OUTPUT_END_MARKER <> [].
Proof. split; discriminate. Qed.

(** A complete frame found in a buffer is found, unchanged, in any extension
    of the buffer. *)
Lemma next_frame_app (a b jsonStr rest : str) :
  next_frame a = Some (jsonStr, rest) ->
  next_frame (a ++ b) = Some (jsonStr, rest ++ b).
Proof.
  destruct markers_nonempty as [Hs He].
  unfold next_frame.
  destruct (indexOf a OUTPUT_START_MARKER 0) as [s|] eqn:Es; [|discriminate].
  rewrite (indexOf_app_stable a _ b 0 s Hs Es).
  destruct (indexOf a OUTPUT_END_MARKER (s + length OUTPUT_START_MARKER))
    as [e|] eqn:Ee; [|discriminate].
  rewrite (indexOf_app_stable a _ b _ e He Ee).
  pose proof (indexOf_bound a _ _ e He Ee) as [Hfrom Hb].
  intros H; injection H as <- <-.
  unfold slice, slice_from.
  rewrite !skipn_app_le by lia.
  rewrite firstn_app_le by (rewrite length_skipn; lia).
  reflexivity.
Qed.

Section ParserFacts.

Variable JSON_parse : str -> option json.

Lemma parse_loop_unfold (outputs : list json) (remaining : str) :
  parse_loop JSON_parse outputs remaining
  = match next_frame remaining with
    | None => (outputs, remaining)
    | Some (jsonStr, rest) =>
        parse_loop JSON_parse (outputs ++ [decode JSON_parse jsonStr]) rest
    end.
Proof.
  funelim (parse_loop JSON_parse outputs remaining);
    match goal with H : next_frame _ = _ |- _ => now rewrite H end.
Qed.

(** The loop only appends to the outputs it is given. *)
Lemma parse_loop_acc (outputs : list json) (remaining : str) :
  parse_loop JSON_parse outputs remaining
  = (outputs ++ fst (parseContainerOutput JSON_parse remaining),
     snd (parseContainerOutput JSON_parse remaining)).
Proof.
  unfold parseContainerOutput.
  remember (length remaining) as n eqn:Hn.
  revert outputs remaining Hn.
  induction n as [n IH] using lt_wf_ind. intros outputs remaining ->.
  rewrite (parse_loop_unfold outputs), (parse_loop_unfold []).
  destruct (next_frame remaining) as [[jsonStr rest]|] eqn:E.
  - pose proof (next_frame_shrinks _ _ _ E) as Hlt.
    rewrite (IH _ Hlt (outputs ++ [decode JSON_parse jsonStr]) rest eq_refl).
    rewrite (IH _ Hlt ([] ++ [decode JSON_parse jsonStr]) rest eq_refl).
    simpl. now rewrite <- app_assoc.
  - simpl. now rewrite app_nil_r.
Qed.

(** Parsing a buffer that grows: the frames complete in [a] are the first
    outputs of [a ++ b], and the rest comes from the remainder followed by
    [b]. *)
Lemma parse_loop_app (a b : str) (outputs : list json) :
  parse_loop JSON_parse outputs (a ++ b)
  = let '(o1, r1) := parse_loop JSON_parse outputs a in
    parse_loop JSON_parse o1 (r1 ++ b).
Proof.
  remember (length a) as n eqn:Hn.
  revert outputs a Hn.
  induction n as [n IH] using lt_wf_ind. intros outputs a ->.
  rewrite (parse_loop_unfold outputs a).
  destruct (next_frame a) as [[jsonStr rest]|] eqn:E.
  - rewrite (parse_loop_unfold outputs (a ++ b)).
    rewrite (next_frame_app a b jsonStr rest E).
    apply (IH _ (next_frame_shrinks _ _ _ E) _ rest eq_refl).
  - reflexivity.
Qed.

Lemma parseContainerOutput_app (a b : str) :
  parseContainerOutput JSON_parse (a ++ b)
  = let '(o1, r1) := parseContainerOutput JSON_parse a in
    let '(o2, r2) := parseContainerOutput JSON_parse (r1 ++ b) in
    (o1 ++ o2, r2).
Proof.
  unfold parseContainerOutput at 1 2. rewrite parse_loop_app.
  destruct (parse_loop JSON_parse [] a) as [o1 r1].
  rewrite parse_loop_acc.
  now destruct (parseContainerOutput JSON_parse (r1 ++ b)).
Qed.

(** What the parser leaves holds no complete frame. *)
Lemma parse_loop_remaining (outputs : list json) (a : str) :
  parse_loop JSON_parse [] (snd (parse_loop JSON_parse outputs a))
  = ([], snd (parse_loop JSON_parse outputs a)).
Proof.
  remember (length a) as n eqn:Hn.
  revert outputs a Hn.
  induction n as [n IH] using lt_wf_ind. intros outputs a ->.
  rewrite (parse_loop_unfold outputs a).
  destruct (next_frame a) as [[jsonStr rest]|] eqn:E.
  - apply (IH _ (next_frame_shrinks _ _ _ E) _ rest eq_refl).
  - simpl. rewrite parse_loop_unfold. now rewrite E.
Qed.

Lemma parseContainerOutput_remaining (a : str) :
  parseContainerOutput JSON_parse (snd (parseContainerOutput JSON_parse a))
  = ([], snd (parseContainerOutput JSON_parse a)).
Proof. apply parse_loop_remaining. Qed.

(** The remainder is what is left of the buffer. *)
Lemma parse_loop_remaining_length (outputs : list json) (a : str) :
  length (snd (parse_loop JSON_parse outputs a)) <= length a.
Proof.
  remember (length a) as n eqn:Hn.
  revert outputs a Hn.
  induction n as [n IH] using lt_wf_ind. intros outputs a ->.
  rewrite (parse_loop_unfold outputs a).
  destruct (next_frame a) as [[jsonStr rest]|] eqn:E; [|simpl; lia].
  pose proof (next_frame_shrinks _ _ _ E) as Hlt.
  specialize (IH _ Hlt (outputs ++ [decode JSON_parse jsonStr]) rest eq_refl). lia.
Qed.

Lemma feed_settled (buffer : str) (chunks : list str) :
  parseContainerOutput JSON_parse buffer = ([], buffer) ->
  feed JSON_parse buffer chunks
  = parseContainerOutput JSON_parse (buffer ++ concat chunks).
Proof.
  revert buffer; induction chunks as [|chunk more IH]; intros buffer Hb.
  - simpl. now rewrite app_nil_r, Hb.
  - simpl. rewrite app_assoc.
    rewrite (parseContainerOutput_app (buffer ++ chunk) (concat more)).
    pose proof (parseContainerOutput_remaining (buffer ++ chunk)) as Hr.
    destruct (parseContainerOutput JSON_parse (buffer ++ chunk)) as [o1 r1].
    simpl in Hr. now rewrite (IH r1 Hr).
Qed.

Lemma feed_concat (chunks : list str) :
  feed JSON_parse [] chunks = parseContainerOutput JSON_parse (concat chunks).
Proof.
  apply (feed_settled [] chunks).
  unfold parseContainerOutput. now rewrite parse_loop_unfold.
Qed.

End ParserFacts.

(** *** Frames as the container emits them *)

Definition LF : str := ["010"%char].

(** [START\n<json>\nEND]. *)
Definition frame (doc : str) : str :=
  OUTPUT_START_MARKER ++ LF ++ doc ++ LF ++ OUTPUT_END_MARKER.

Lemma prefixb_skip_char (c : ascii) (n x y : str) :
  ~ In c n -> prefixb n (x ++ c :: y) = prefixb n x.
Proof.
  revert x; induction n as [|b n IH]; intros x Hc; [reflexivity|].
  destruct x as [|a x]; simpl.
  - destruct (Ascii.eqb_spec b c) as [->|_]; [|reflexivity].
    exfalso. apply Hc. now left.
  - rewrite IH; [reflexivity|]. intros H. apply Hc. now right.
Qed.

(** A needle that does not contain [c] cannot straddle an occurrence of [c]. *)
Lemma index0_skip_char (c : ascii) (n x y : str) :
  ~ In c n -> n <> [] ->
  index0 n (x ++ c :: y)
  = match index0 n x with
    | Some i => Some i
    | None => option_map (fun k => length x + 1 + k) (index0 n y)
    end.
Proof.
  intros Hc Hne. induction x as [|a x IH].
  - pose proof (prefixb_skip_char c n [] y Hc) as Hp.
    destruct n as [|b n]; [contradiction|].
    simpl in *. rewrite Hp.
    destruct (index0 (b :: n) y); reflexivity.
  - pose proof (prefixb_skip_char c n (a :: x) y Hc) as Hp.
    simpl app in *. cbn [index0]. rewrite Hp.
    destruct (prefixb n (a :: x)); [reflexivity|].
    rewrite IH.
    destruct (index0 n x); simpl; [reflexivity|].
    destruct (index0 n y); reflexivity.
Qed.

Lemma skipn_exact {A : Type} (a b : list A) : skipn (length a) (a ++ b) = b.
Proof. induction a; simpl; auto. Qed.

Lemma firstn_exact {A : Type} (a b : list A) : firstn (length a) (a ++ b) = a.
Proof. induction a; simpl; [reflexivity | now f_equal]. Qed.

Lemma slice_mid (a m b : str) :
  slice (a ++ m ++ b) (length a) (length a + length m) = m.
Proof.
  unfold slice. rewrite skipn_exact.
  replace (length a + length m - length a) with (length m) by lia.
  apply firstn_exact.
Qed.

Lemma end_marker_no_newline : ~ In "010"%char OUTPUT_END_MARKER.
Proof.
  unfold OUTPUT_END_MARKER. simpl.
  intros H. repeat (destruct H as [H | H]; [discriminate|]). exact H.
Qed.

Lemma index0_end_marker (doc rest : str) :
  includes doc OUTPUT_END_MARKER = false ->
  index0 OUTPUT_END_MARKER ((LF ++ doc ++ LF) ++ OUTPUT_END_MARKER ++ rest)
  = Some (length (LF ++ doc ++ LF)).
Proof.
  intros Hdoc. rewrite includes_index0 in Hdoc.
  destruct (index0 OUTPUT_END_MARKER doc) eqn:E; [discriminate|].
  destruct markers_nonempty as [_ He].
  replace ((LF ++ doc ++ LF) ++ OUTPUT_END_MARKER ++ rest)
    with ([] ++ "010"%char :: (doc ++ "010"%char :: (OUTPUT_END_MARKER ++ rest)))
    by (unfold LF; cbn [app]; now rewrite <- app_assoc).
  rewrite (index0_skip_char "010"%char OUTPUT_END_MARKER []
             (doc ++ "010"%char :: (OUTPUT_END_MARKER ++ rest))
             end_marker_no_newline He).
  replace (index0 OUTPUT_END_MARKER []) with (@None nat) by reflexivity.
  rewrite (index0_skip_char "010"%char OUTPUT_END_MARKER doc
             (OUTPUT_END_MARKER ++ rest) end_marker_no_newline He), E.
  rewrite (index0_prefix _ _ (prefixb_app OUTPUT_END_MARKER rest)).
  unfold LF. cbn [option_map app length]. rewrite length_app. cbn [length].
  f_equal. lia.
Qed.

Lemma next_frame_of_frame (doc rest : str) :
  includes doc OUTPUT_END_MARKER = false ->
  next_frame (frame doc ++ rest) = Some (trim (LF ++ doc ++ LF), rest).
Proof.
  intros Hdoc.
  assert (Hshape : frame doc ++ rest
                   = OUTPUT_START_MARKER ++ (LF ++ doc ++ LF)
                       ++ (OUTPUT_END_MARKER ++ rest))
    by (unfold frame; now rewrite <- !app_assoc).
  rewrite Hshape. unfold next_frame.
  assert (Hs : indexOf (OUTPUT_START_MARKER ++ (LF ++ doc ++ LF)
                          ++ OUTPUT_END_MARKER ++ rest) OUTPUT_START_MARKER 0
               = Some 0).
  { unfold indexOf. rewrite Nat.min_0_l. cbn [skipn].
    now rewrite (index0_prefix _ _
                   (prefixb_app OUTPUT_START_MARKER
                      ((LF ++ doc ++ LF) ++ OUTPUT_END_MARKER ++ rest))). }
  rewrite Hs. cbn [Nat.add].
  assert (He : indexOf (OUTPUT_START_MARKER ++ (LF ++ doc ++ LF)
                          ++ OUTPUT_END_MARKER ++ rest) OUTPUT_END_MARKER
                 (length OUTPUT_START_MARKER)
               = Some (length OUTPUT_START_MARKER + length (LF ++ doc ++ LF))).
  { unfold indexOf. rewrite Nat.min_l by (rewrite length_app; lia).
    rewrite skipn_exact, (index0_end_marker doc rest Hdoc). reflexivity. }
  rewrite He. f_equal. f_equal.
  - now rewrite slice_mid.
  - unfold slice_from.
    rewrite <- Nat.add_assoc, <- !length_app.
    rewrite !app_assoc. rewrite <- (app_assoc OUTPUT_START_MARKER).
    apply skipn_exact.
Qed.

Lemma trimEnd_space (s : str) (c : ascii) :
  is_space c = true -> trimEnd (s ++ [c]) = trimEnd s.
Proof.
  intros Hc. unfold trimEnd. rewrite rev_app_distr. simpl. now rewrite Hc.
Qed.

Lemma trim_app_space (s : str) (c : ascii) :
  is_space c = true -> trim (s ++ [c]) = trim s.
Proof.
  intros Hc. unfold trim. induction s as [|x s IH]; simpl.
  - now rewrite Hc.
  - destruct (is_space x); [exact IH|].
    change (x :: s ++ [c]) with ((x :: s) ++ [c]). now apply trimEnd_space.
Qed.

(** The line feeds around the document are trimmed away. *)
Lemma trim_framed (doc : str) : trim (LF ++ doc ++ LF) = trim doc.
Proof.
  unfold LF. rewrite app_assoc, trim_app_space by reflexivity.
  reflexivity.
Qed.

Section RoundTrip.

Variable JSON_parse : str -> option json.

Lemma parse_loop_frames (docs : list str) :
  Forall (fun doc => includes doc OUTPUT_END_MARKER = false) docs ->
  forall outputs,
    parse_loop JSON_parse outputs (concat (map frame docs))
    = (outputs ++ map (fun doc => decode JSON_parse (trim doc)) docs, []).
Proof.
  induction 1 as [|doc docs Hdoc _ IH]; intros outputs.
  - cbn [map concat]. rewrite parse_loop_unfold. now rewrite app_nil_r.
  - cbn [map concat].
    rewrite parse_loop_unfold, (next_frame_of_frame doc _ Hdoc).
    rewrite IH, trim_framed, <- app_assoc. reflexivity.
Qed.

End RoundTrip.

(** A stand-in for [JSON.parse] that knows the documents used in the examples
    below and throws on everything else. *)
Definition example_message : json :=
  JObj [ (lit "text", JStr (lit "hi")); (lit "targetJid", JStr (lit "j2")) ].

Definition example_output : json :=
  JObj [ (lit "status", JStr (lit "success")); (lit "result", JStr (lit "ok")) ].

(** A JSON string literal. *)
Definition quoted (s : string) : str := ["034"%char] ++ lit s ++ ["034"%char].

Definition example_message_text : str :=
  lit "{" ++ quoted "text" ++ lit ":" ++ quoted "hi" ++ lit ","
    ++ quoted "targetJid" ++ lit ":" ++ quoted "j2" ++ lit "}".

Definition example_output_text : str :=
  lit "{" ++ quoted "status" ++ lit ":" ++ quoted "success" ++ lit ","
    ++ quoted "result" ++ lit ":" ++ quoted "ok" ++ lit "}".

Definition example_parse (raw : str) : option json :=
  if str_eqb raw (lit "null") then Some JNull
  else if str_eqb raw example_output_text then Some example_output
  else if str_eqb raw example_message_text then Some example_message
  else None.

Definition example_stringify (v : json) : str :=
  match v with
  | JNull => lit "null"
  | _ => example_output_text
  end.

(** C7.  For every [JSON.parse]: (1) parsing the concatenation of two buffers
    equals parsing the first, carrying its remainder in front of the second and
    appending the output lists; (2) feeding any list of chunks through the
    stdout handler, each call starting from the remainder of the previous one,
    gives what one call on the whole stream gives; (3) for any sequence of
    outputs serialized to documents that do not contain the end marker and
    parse back to themselves, emitted as [START\n<json>\nEND] frames, and for
    every way of cutting the stream into chunks, the chunks fed in order yield
    exactly that sequence of outputs and leave an empty buffer.  (Nothing is
    asked about the start marker inside a document.) *)
Theorem parseContainerOutput_chunking :
  forall JSON_parse : str -> option json,
    (forall a b : str,
        parseContainerOutput JSON_parse (a ++ b)
        = let '(o1, r1) := parseContainerOutput JSON_parse a in
          let '(o2, r2) := parseContainerOutput JSON_parse (r1 ++ b) in
          (o1 ++ o2, r2))
    /\ (forall chunks : list str,
          feed JSON_parse [] chunks
          = parseContainerOutput JSON_parse (concat chunks))
    /\ (forall (outputs : list json) (stringify : json -> str)
               (chunks : list str),
          (forall o, In o outputs ->
                     includes (stringify o) OUTPUT_END_MARKER = false
                     /\ JSON_parse (trim (stringify o)) = Some o) ->
          concat chunks = concat (map (fun o => frame (stringify o)) outputs) ->
          feed JSON_parse [] chunks = (outputs, [])).
Proof.
  intros JSON_parse. split; [|split].
  - apply parseContainerOutput_app.
  - apply feed_concat.
  - intros outputs stringify chunks Hdocs Hstream.
    rewrite feed_concat, Hstream. unfold parseContainerOutput.
    rewrite <- (map_map stringify frame).
    rewrite parse_loop_frames.
    + cbn [app]. f_equal. rewrite map_map.
      rewrite <- (map_id outputs) at 2. apply map_ext_in.
      intros o Ho. unfold decode. now rewrite (proj2 (Hdocs o Ho)).
    + apply Forall_forall. intros doc Hin.
      apply in_map_iff in Hin as [o [<- Ho]]. apply (Hdocs o Ho).
Qed.

(** Scenario S2: one frame arriving in three chunks cut inside the markers. *)
Lemma parseContainerOutput_chunking_witness :
  feed example_parse []
    [ lit "---JSCLAW_OUT";
      lit "PUT_START---" ++ LF ++ example_output_text ++ LF
        ++ lit "---JSCLAW_OUTPUT_";
      lit "END---" ]
  = ([example_output], []).
Proof.
  apply (proj2 (proj2 (parseContainerOutput_chunking example_parse))
           [example_output] example_stringify).
  - intros o [<- | []]. split; reflexivity.
  - reflexivity.
Defined.

(** ** The close handler of [runContainerAgent] *)

Definition is_idle_timeout (e : ContainerRunner.Event) : bool :=
  match e with IdleTimeout => true | _ => false end.

Section RunnerFacts.

Variable JSON_parse : str -> option json.
Variable onOutput : bool.
Variable cfg : Config.

Definition settled_last (st : Runner) : Prop :=
  lastOutput st = last (onOutput_calls st) JNull.

Lemma deliver_last (st : Runner) (output : json) : settled_last (deliver st output).
Proof. unfold settled_last. simpl. now rewrite last_last. Qed.

Lemma deliver_fold (outputs : list json) (st : Runner) :
  settled_last st ->
  let st' := fold_left deliver outputs st in
  settled_last st' /\ timedOut st' = timedOut st.
Proof.
  revert st; induction outputs as [|o outputs IH]; intros st Hst; simpl.
  - now split.
  - destruct (IH (deliver st o) (deliver_last st o)) as [H1 H2].
    split; assumption.
Qed.

Lemma handle_invariant (st : Runner) (e : ContainerRunner.Event) :
  settled_last st ->
  let st' := handle JSON_parse onOutput cfg st e in
  settled_last st' /\ timedOut st' = timedOut st || is_idle_timeout e.
Proof.
  intros Hst. destruct e as [chunk | chunk | | n]; simpl.
  - unfold on_stdout_data.
    destruct (maxOutputSize cfg <? length (stdoutBuffer st ++ chunk)).
    + split; [exact Hst | now rewrite orb_false_r].
    + destruct (parseContainerOutput JSON_parse (stdoutBuffer st ++ chunk))
        as [outputs remaining].
      rewrite orb_false_r. unfold output_loop. destruct onOutput.
      * destruct outputs as [|o rest]; [now split|].
        split; [|reflexivity]. unfold settled_last. simpl. now rewrite last_last.
      * match goal with |- context [fold_left deliver outputs ?s] =>
          apply (deliver_fold outputs s Hst) end.
  - split; [exact Hst | now rewrite orb_false_r].
  - split; [exact Hst | now rewrite orb_true_r].
  - rewrite orb_false_r. unfold on_output_settled.
    destruct (nth_error (suspended st) n) as [[|o rest]|]; try now split.
    split; [|reflexivity]. unfold settled_last. simpl. now rewrite last_last.
Qed.

Lemma run_invariant (events : list ContainerRunner.Event) :
  let st := ContainerRunner.run JSON_parse onOutput cfg events in
  settled_last st /\ timedOut st = existsb is_idle_timeout events.
Proof.
  unfold ContainerRunner.run.
  induction events as [|e events IH] using rev_ind; [now split|].
  rewrite fold_left_app. simpl. destruct IH as [IH1 IH2].
  destruct (handle_invariant _ e IH1) as [H1 H2].
  split; [exact H1|].
  rewrite H2, IH2, existsb_app. simpl. now rewrite orb_false_r.
Qed.

End RunnerFacts.

Lemma deliver_fold_fields (outputs : list json) (st : Runner) :
  let st' := fold_left deliver outputs st in
  onOutput_calls st' = onOutput_calls st ++ outputs
  /\ stdoutBuffer st' = stdoutBuffer st.
Proof.
  revert st; induction outputs as [|o outputs IH]; intros st; simpl.
  - now rewrite app_nil_r.
  - destruct (IH (deliver st o)) as [H1 H2]. rewrite H1, H2. simpl.
    now rewrite <- app_assoc.
Qed.

(** Without [onOutput], and as long as the buffer stays within
    [maxOutputSize], the stdout handler hands on what [feed] computes. *)
Lemma stdout_handler_feeds (JSON_parse : str -> option json) (cfg : Config)
    (chunks : list str) (st : Runner) :
  length (stdoutBuffer st) + length (concat chunks) <= maxOutputSize cfg ->
  let st' := fold_left (handle JSON_parse false cfg) (map StdoutData chunks) st in
  onOutput_calls st'
  = onOutput_calls st ++ fst (feed JSON_parse (stdoutBuffer st) chunks)
  /\ stdoutBuffer st' = snd (feed JSON_parse (stdoutBuffer st) chunks).
Proof.
  revert st; induction chunks as [|chunk more IH]; intros st Hsize.
  - simpl. now rewrite app_nil_r.
  - cbn [map fold_left handle concat feed] in *.
    rewrite length_app in Hsize.
    unfold on_stdout_data, output_loop.
    assert (Hfit : (maxOutputSize cfg <? length (stdoutBuffer st ++ chunk)) = false)
      by (apply Nat.ltb_ge; rewrite length_app; lia).
    rewrite Hfit.
    pose proof (parse_loop_remaining_length JSON_parse [] (stdoutBuffer st ++ chunk))
      as Hrem.
    fold (parseContainerOutput JSON_parse (stdoutBuffer st ++ chunk)) in Hrem.
    destruct (parseContainerOutput JSON_parse (stdoutBuffer st ++ chunk))
      as [outputs remaining].
    cbn [snd] in Hrem. rewrite length_app in Hrem.
    match goal with |- context [fold_left deliver outputs ?s] =>
      destruct (deliver_fold_fields outputs s) as [Hcalls Hbuf];
      set (st1 := fold_left deliver outputs s) in *
    end.
    cbn [onOutput_calls stdoutBuffer] in Hcalls, Hbuf.
    destruct (IH st1) as [H1 H2]; [rewrite Hbuf; lia|].
    rewrite Hbuf in H1, H2. rewrite H1, H2, Hcalls.
    destruct (feed JSON_parse remaining more) as [later final].
    cbn [fst snd]. now rewrite <- app_assoc.
Qed.

(** [lastOutput?.result || null]. *)
Definition preserved_result (last_output : json) : json :=
  match opt_chain last_output (lit "result") with
  | Some r => if truthy r then r else JNull
  | None => JNull
  end.

(** C8 (amended).  When the child closes with exit code [code] after any
    sequence of stdout chunks, stderr chunks, idle-timer firings and settled
    [onOutput] calls, with or without an [onOutput] callback,
    [runContainerAgent] resolves by this case split, [last_output] being the
    framed output the per-output loop took up last ([null] when there is
    none): if the idle timer fired, with status error, the message "Container
    timed out after <N>ms", the result of [last_output] when truthy (else null)
    and its newSessionId when defined; else, if [last_output] is truthy, with
    [last_output]; else (no output, or a last output that is null, false, 0 or
    the empty string), if the code is 0, with status success and result null;
    else with status error, result null and the message "Container exited with
    code <code>. stderr: " followed by the last 500 code units of the stderr
    buffer. *)
Theorem on_close_case_split :
  forall (JSON_parse : str -> option json) (onOutput : bool) (cfg : Config)
         (events : list ContainerRunner.Event) (code : option Z),
    let st := ContainerRunner.run JSON_parse onOutput cfg events in
    let last_output := last (onOutput_calls st) JNull in
    on_close cfg st code
    = if existsb is_idle_timeout events then
        JObj ([ (lit "status", JStr (lit "error"));
                (lit "result", preserved_result last_output);
                (lit "error",
                 JStr (lit "Container timed out after "
                       ++ Z_to_str (containerTimeout cfg) ++ lit "ms")) ]
              ++ match opt_chain last_output (lit "newSessionId") with
                 | Some sid => [ (lit "newSessionId", sid) ]
                 | None => []
                 end)
      else if truthy last_output then last_output
      else if match code with Some 0%Z => true | _ => false end then
        JObj [ (lit "status", JStr (lit "success")); (lit "result", JNull) ]
      else
        JObj [ (lit "status", JStr (lit "error"));
               (lit "result", JNull);
               (lit "error",
                JStr (lit "Container exited with code " ++ code_to_str code
                      ++ lit ". stderr: " ++ slice_last (stderrBuffer st) 500)) ].
Proof.
  intros JSON_parse onOutput cfg events code st last_output.
  destruct (run_invariant JSON_parse onOutput cfg events) as [Hlast Htimed].
  fold st in Hlast, Htimed. unfold settled_last in Hlast.
  fold last_output in Hlast.
  unfold on_close. rewrite Htimed, Hlast.
  destruct (existsb is_idle_timeout events).
  - f_equal. unfold preserved_result, or_else, truthy_opt, field.
    destruct (opt_chain last_output (lit "result")) as [r|]; [|reflexivity].
    destruct (truthy r); reflexivity.
  - destruct (truthy last_output); [reflexivity|].
    destruct code as [[| |]|]; reflexivity.
Qed.

(** C8 as stated fails when the last framed output is a falsy JSON value: the
    frame [null] is parsed and taken up by the output loop, yet on close with
    code 1 the call resolves with the exit-code error, not with that output. *)
Lemma on_close_case_split_counterexample :
  let cfg := {| containerTimeout := 1800000; maxOutputSize := 4096 |} in
  let st := ContainerRunner.run example_parse false cfg
              [StdoutData (frame (lit "null")); StderrData (lit "boom")] in
  parseContainerOutput example_parse (frame (lit "null")) = ([JNull], [])
  /\ onOutput_calls st = [JNull]
  /\ timedOut st = false
  /\ on_close cfg st (Some 1%Z)
     = JObj [ (lit "status", JStr (lit "error"));
              (lit "result", JNull);
              (lit "error",
               JStr (lit "Container exited with code 1. stderr: boom")) ]
  /\ on_close cfg st (Some 1%Z) <> last (onOutput_calls st) JNull.
Proof.
  cbv zeta. repeat split; try reflexivity.
  vm_compute. discriminate.
Qed.

(** With a slow [onOutput], the close handler can run while the stdout handler
    is suspended with outputs it has not taken up yet: it then resolves with
    the output taken up last, not with the last one parsed. *)
Lemma on_close_before_handler_resumes :
  let cfg := {| containerTimeout := 1800000; maxOutputSize := 4096 |} in
  let two := frame example_output_text ++ frame example_message_text in
  let st := ContainerRunner.run example_parse true cfg [StdoutData two] in
  parseContainerOutput example_parse two = ([example_output; example_message], [])
  /\ suspended st = [[example_message]]
  /\ on_close cfg st (Some 0%Z) = example_output.
Proof. repeat split. Qed.

(** ** Draining a mailbox *)

Import IpcUtils.

Definition str_le (a b : str) : Prop := str_leb a b = true.

Lemma str_leb_total (a b : str) : str_leb a b = false -> str_leb b a = true.
Proof.
  revert b; induction a as [|x a IH]; intros [|y b]; simpl; try discriminate;
    try reflexivity.
  destruct (nat_of_ascii x <? nat_of_ascii y) eqn:E1; [discriminate|].
  destruct (nat_of_ascii y <? nat_of_ascii x) eqn:E2; [reflexivity|].
  apply IH.
Qed.

Lemma str_leb_trans (a b c : str) :
  str_leb a b = true -> str_leb b c = true -> str_leb a c = true.
Proof.
  revert b c; induction a as [|x a IH]; intros [|y b] [|z c]; simpl;
    try discriminate; try reflexivity.
  destruct (nat_of_ascii x <? nat_of_ascii y) eqn:Exy;
    destruct (nat_of_ascii y <? nat_of_ascii x) eqn:Eyx;
    destruct (nat_of_ascii y <? nat_of_ascii z) eqn:Eyz;
    destruct (nat_of_ascii z <? nat_of_ascii y) eqn:Ezy;
    destruct (nat_of_ascii x <? nat_of_ascii z) eqn:Exz;
    destruct (nat_of_ascii z <? nat_of_ascii x) eqn:Ezx;
    try discriminate; try reflexivity;
    repeat match goal with
           | H : (_ <? _) = true |- _ => apply Nat.ltb_lt in H
           | H : (_ <? _) = false |- _ => apply Nat.ltb_ge in H
           end; try lia.
  apply IH.
Qed.

Lemma insert_sorted_perm (x : str) (l : list str) :
  Permutation (insert_sorted x l) (x :: l).
Proof.
  induction l as [|y l IH]; simpl; [reflexivity|].
  destruct (str_leb x y); [reflexivity|].
  rewrite IH. apply perm_swap.
Qed.

Lemma sort_perm (l : list str) : Permutation (sort l) l.
Proof.
  induction l as [|x l IH]; simpl; [reflexivity|].
  rewrite insert_sorted_perm. now constructor.
Qed.

Lemma insert_sorted_sorted (x : str) (l : list str) :
  StronglySorted str_le l -> StronglySorted str_le (insert_sorted x l).
Proof.
  induction 1 as [|y l Hs IH Hall]; simpl.
  - repeat constructor.
  - destruct (str_leb x y) eqn:E.
    + constructor; [now constructor|].
      constructor; [exact E|].
      eapply Forall_impl; [|exact Hall].
      intros z Hz. eapply str_leb_trans; eassumption.
    + constructor; [exact IH|].
      apply Forall_forall. intros z Hz.
      apply (Permutation_in _ (insert_sorted_perm x l)) in Hz.
      destruct Hz as [<- | Hz]; [now apply str_leb_total|].
      rewrite Forall_forall in Hall. now apply Hall.
Qed.

Lemma sort_sorted (l : list str) : StronglySorted str_le (sort l).
Proof.
  induction l as [|x l IH]; simpl; [constructor|].
  now apply insert_sorted_sorted.
Qed.

Lemma filter_sorted (f : str -> bool) (l : list str) :
  StronglySorted str_le l -> StronglySorted str_le (filter f l).
Proof.
  induction 1 as [|y l Hs IH Hall]; simpl; [constructor|].
  destruct (f y); [|exact IH].
  constructor; [exact IH|].
  apply Forall_forall. intros z Hz. apply filter_In in Hz as [Hz _].
  rewrite Forall_forall in Hall. now apply Hall.
Qed.

Lemma lookup_unlink_other (n n' : str) (d : Dir) :
  n' <> n -> lookup n' (unlink n d) = lookup n' d.
Proof.
  intros Hne. induction d as [|[m f] d IH]; simpl; [reflexivity|].
  destruct (str_eqb n m) eqn:E.
  - apply str_eqb_eq in E as <-.
    rewrite (proj2 (str_eqb_neq n' n) Hne). exact IH.
  - simpl. destruct (str_eqb n' m); [reflexivity | exact IH].
Qed.

Lemma lookup_in (n : str) (f : File) (d : Dir) :
  NoDup (map fst d) -> In (n, f) d -> lookup n d = Some f.
Proof.
  induction d as [|[m g] d IH]; simpl; intros Hnd Hin; [contradiction|].
  inversion Hnd as [|? ? Hm Hnd']; subst.
  destruct Hin as [Heq | Hin].
  - injection Heq as -> ->. now rewrite str_eqb_refl.
  - destruct (str_eqb n m) eqn:E; [|now apply IH].
    apply str_eqb_eq in E as ->. exfalso. apply Hm.
    apply in_map_iff. now exists (m, f).
Qed.

Lemma unlink_filter (n : str) (d : Dir) :
  unlink n d = filter (fun e => negb (str_eqb n (fst e))) d.
Proof.
  induction d as [|[m f] d IH]; simpl; [reflexivity|].
  destruct (str_eqb n m); simpl; now rewrite IH.
Qed.

Lemma filter_filter {A : Type} (f g : A -> bool) (l : list A) :
  filter f (filter g l) = filter (fun x => g x && f x) l.
Proof.
  induction l as [|x l IH]; simpl; [reflexivity|].
  destruct (g x); simpl; [destruct (f x)|]; now rewrite IH.
Qed.

Definition unlink_all (names : list str) (d : Dir) : Dir :=
  fold_left (fun d n => unlink n d) names d.

Lemma unlink_all_filter (names : list str) (d : Dir) :
  unlink_all names d
  = filter (fun e => negb (existsb (fun n => str_eqb n (fst e)) names)) d.
Proof.
  unfold unlink_all. revert d; induction names as [|n names IH]; intros d; simpl.
  - symmetry. apply forallb_filter_id. now apply forallb_forall.
  - rewrite IH, unlink_filter, filter_filter.
    apply filter_ext. intros e. now rewrite negb_orb.
Qed.

Section DrainFacts.

Variable JSON_parse : str -> option json.
Variable filter_ : option (str -> bool).

(** The name tests of the loop. *)
Definition accepted (name : str) : bool :=
  endsWith name (lit ".json") && negb (startsWith name (lit "."))
  && negb (rejected filter_ name).

Definition read (d : Dir) (name : str) : json :=
  readIpcFile JSON_parse (lookup name d).

Definition kept (d : Dir) (name : str) : bool :=
  accepted name && negb (is_null (read d name)).

Definition deleted (d : Dir) (name : str) : bool :=
  kept d name
  && match lookup name d with Some f => removable f | None => false end.

Lemma drain_loop_spec (names : list str) :
  NoDup names ->
  forall (d : Dir) (results : list (json * str)),
    drain_loop JSON_parse filter_ names d results
    = (results ++ map (fun n => (read d n, n)) (filter (kept d) names),
       unlink_all (filter (deleted d) names) d).
Proof.
  induction 1 as [|name more Hnotin Hnd IH]; intros d results.
  - simpl. now rewrite app_nil_r.
  - cbn [drain_loop filter]. unfold deleted, kept, accepted.
    fold (read d name).
    destruct (endsWith name (lit ".json")); cbn [negb andb];
      [|apply IH].
    destruct (startsWith name (lit ".")); cbn [negb andb]; [apply IH|].
    destruct (rejected filter_ name); cbn [negb andb]; [apply IH|].
    destruct (is_null (read d name)) eqn:Enull; cbn [negb andb]; [apply IH|].
    set (d' := match lookup name d with
               | Some f => if removable f then unlink name d else d
               | None => d
               end).
    assert (Hlook : forall n, In n more -> lookup n d' = lookup n d).
    { intros n Hn. unfold d'.
      destruct (lookup name d) as [f|]; [|reflexivity].
      destruct (removable f); [|reflexivity].
      apply lookup_unlink_other. intros ->. contradiction. }
    rewrite IH.
    assert (Hkept : filter (kept d') more = filter (kept d) more).
    { apply filter_ext_in. intros n Hn. unfold kept, read.
      now rewrite (Hlook n Hn). }
    assert (Hdel : filter (deleted d') more = filter (deleted d) more).
    { apply filter_ext_in. intros n Hn. unfold deleted, kept, read.
      now rewrite (Hlook n Hn). }
    rewrite Hkept, Hdel. f_equal.
    + rewrite <- app_assoc. cbn [app map]. do 2 f_equal.
      apply map_ext_in. intros n Hn. apply filter_In in Hn as [Hn _].
      unfold read. now rewrite (Hlook n Hn).
    + unfold d'. destruct (lookup name d) as [f|]; [|reflexivity].
      destruct (removable f); reflexivity.
Qed.

End DrainFacts.

(** C9 (amended).  A missing directory yields the empty list.  For a directory
    [d] (names are unique), [drainIpcDir] returns, in ascending order of file
    name by code units, exactly the entries whose name ends in [.json], does
    not start with [.], passes the optional filter, and whose file reads and
    parses to a value other than [null]; a file that cannot be read, is not
    JSON, or holds the JSON literal [null] is skipped and stays in the
    directory; a returned entry is in the result whether or not its file could
    be deleted, and a file that cannot be deleted stays. *)
Theorem drainIpcDir_spec :
  forall (JSON_parse : str -> option json) (filter_ : option (str -> bool)),
    drainIpcDir JSON_parse None filter_ = ([], None)
    /\ forall d : Dir,
        NoDup (map fst d) ->
        let results :=
          map (fun n => (read JSON_parse d n, n))
              (filter (kept JSON_parse filter_ d) (sort (map fst d))) in
        let d' := filter (fun e => negb (deleted JSON_parse filter_ d (fst e))) d in
        drainIpcDir JSON_parse (Some d) filter_ = (results, Some d')
        /\ StronglySorted str_le (map snd results)
        /\ (forall n f,
              In (n, f) d ->
              (In (readIpcFile JSON_parse (Some f), n) results
               <-> accepted filter_ n = true
                   /\ readIpcFile JSON_parse (Some f) <> JNull))
        /\ (forall v n,
              In (v, n) results ->
              exists f, In (n, f) d /\ v = readIpcFile JSON_parse (Some f))
        /\ (forall n f,
              In (n, f) d -> readIpcFile JSON_parse (Some f) = JNull ->
              In (n, f) d')
        /\ (forall n f, In (n, f) d -> removable f = false -> In (n, f) d').
Proof.
  intros JSON_parse filter_. split; [reflexivity|].
  intros d Hnd results d'.
  assert (Hsorted_nd : NoDup (sort (map fst d)))
    by (apply (Permutation_NoDup (l := map fst d)); [symmetry; apply sort_perm | exact Hnd]).
  assert (Hnames : forall n, In n (sort (map fst d)) <-> In n (map fst d)).
  { intros n. split; apply Permutation_in;
      [apply sort_perm | symmetry; apply sort_perm]. }
  assert (Hread : forall n f, In (n, f) d ->
                              read JSON_parse d n = readIpcFile JSON_parse (Some f)).
  { intros n f Hin. unfold read. now rewrite (lookup_in n f d Hnd Hin). }
  assert (Hnull : forall v, is_null v = false <-> v <> JNull).
  { intros v. destruct v; simpl; split; congruence. }
  split; [|split; [|split; [|split; [|split]]]].
  - unfold drainIpcDir.
    rewrite (drain_loop_spec JSON_parse filter_ _ Hsorted_nd d []).
    cbn [app]. fold results. f_equal. f_equal.
    rewrite unlink_all_filter. unfold d'. apply filter_ext_in.
    intros [n f] Hin. cbn [fst]. f_equal.
    destruct (deleted JSON_parse filter_ d n) eqn:E.
    + apply existsb_exists. exists n. split; [|apply str_eqb_refl].
      apply filter_In. split; [|exact E].
      apply Hnames. apply in_map_iff. now exists (n, f).
    + destruct (existsb _ _) eqn:Ex; [|reflexivity].
      apply existsb_exists in Ex as [m [Hm Heq]].
      apply str_eqb_eq in Heq as ->. apply filter_In in Hm as [_ Hm].
      cbn [fst] in Hm. congruence.
  - unfold results. rewrite map_map. cbn [snd]. rewrite map_id.
    apply filter_sorted, sort_sorted.
  - intros n f Hin. unfold results. rewrite in_map_iff. split.
    + intros [m [Heq Hm]]. injection Heq as Hv ->.
      apply filter_In in Hm as [_ Hm]. unfold kept in Hm.
      apply andb_true_iff in Hm as [Hacc Hnn]. split; [exact Hacc|].
      apply Hnull. rewrite <- (Hread n f Hin). now apply negb_true_iff.
    + intros [Hacc Hnn]. exists n. split.
      * now rewrite (Hread n f Hin).
      * apply filter_In. split.
        -- apply Hnames. apply in_map_iff. now exists (n, f).
        -- unfold kept. rewrite Hacc, (Hread n f Hin).
           apply Hnull in Hnn. now rewrite Hnn.
  - intros v n Hin. unfold results in Hin.
    apply in_map_iff in Hin as [m [Heq Hm]]. injection Heq as <- ->.
    apply filter_In in Hm as [Hm _]. apply Hnames in Hm.
    apply in_map_iff in Hm as [[m f] [Hfst Hin]]. cbn [fst] in Hfst. subst m.
    exists f. split; [exact Hin | now apply Hread].
  - intros n f Hin Hfail. unfold d'. apply filter_In. split; [exact Hin|].
    cbn [fst]. unfold deleted, kept. rewrite (Hread n f Hin), Hfail.
    cbn [is_null negb]. now rewrite andb_false_r.
  - intros n f Hin Hrm. unfold d'. apply filter_In. split; [exact Hin|].
    cbn [fst]. unfold deleted. rewrite (lookup_in n f d Hnd Hin), Hrm.
    now rewrite andb_false_r.
Qed.

Definition example_dir : Dir :=
  [ (lit "20-b.json", {| content := Some example_message_text; removable := false |});
    (lit ".10-a.json.tmp", {| content := Some example_message_text; removable := true |});
    (lit "10-a.json", {| content := Some example_output_text; removable := true |});
    (lit "30-c.json", {| content := Some (lit "{"); removable := true |});
    (lit "notes.txt", {| content := Some (lit "x"); removable := true |}) ].

Lemma drainIpcDir_spec_witness :
  drainIpcDir example_parse (Some example_dir) None
  = ([ (example_output, lit "10-a.json"); (example_message, lit "20-b.json") ],
     Some [ (lit "20-b.json", {| content := Some example_message_text; removable := false |});
            (lit ".10-a.json.tmp", {| content := Some example_message_text; removable := true |});
            (lit "30-c.json", {| content := Some (lit "{"); removable := true |});
            (lit "notes.txt", {| content := Some (lit "x"); removable := true |}) ]).
Proof.
  assert (Hnd : NoDup (map fst example_dir)).
  { repeat constructor; simpl; intros H;
      repeat (destruct H as [H | H]; [discriminate|]); exact H. }
  exact (proj1 (proj2 (drainIpcDir_spec example_parse None) example_dir Hnd)).
Defined.

(** C9 as stated fails on a file holding the JSON literal [null]: it is read
    and parsed without error, yet it is neither returned nor deleted. *)
Lemma drainIpcDir_spec_counterexample :
  let d := [ (lit "10-a.json", {| content := Some (lit "null"); removable := true |}) ] in
  example_parse (lit "null") = Some JNull
  /\ drainIpcDir example_parse (Some d) None = ([], Some d).
Proof. split; reflexivity. Qed.

(** ** The watcher's authorization rule *)

Import Ipc.

Lemma is_main_only_main (groups : list RegisteredGroup) (groupFolder : str) :
  groupFolder <> lit "main" -> is_main groups groupFolder = false.
Proof.
  intros Hne. unfold is_main.
  induction groups as [|g groups IH]; cbn [existsb]; [reflexivity|].
  rewrite IH, orb_false_r.
  destruct (str_eqb (folder g) groupFolder) eqn:E; [|reflexivity].
  apply str_eqb_eq in E. rewrite E. cbn [andb].
  now apply str_eqb_neq.
Qed.

Lemma strict_eq_str_eq (v : json) (s : str) :
  strict_eq_str v s = true -> v = JStr s.
Proof.
  destruct v; simpl; try discriminate.
  intros H. apply str_eqb_eq in H. now subst.
Qed.

Lemma send_in_dispatch (rejects : Effect -> bool) (call : Effect)
    (what dir filename groupFolder : str) (r t : json) (s : option json) :
  In (SendMessage r t s) (dispatch rejects call what dir filename groupFolder) ->
  call = SendMessage r t s.
Proof.
  unfold dispatch, failed. intros [H | H]; [exact H|].
  destruct (rejects call); [|destruct H].
  destruct H as [H | [H | []]]; discriminate.
Qed.

Lemma send_in_failed (what dir filename groupFolder : str) (r t : json)
    (s : option json) :
  ~ In (SendMessage r t s) (failed what dir filename groupFolder).
Proof. intros [H | [H | []]]; discriminate. Qed.

(** A message of a registered group that is not main reaches [sendMessage]
    only with that group's jid. *)
Lemma route_message_registered (rejects : Effect -> bool)
    (groups : list RegisteredGroup) (groupFolder : str) (group : RegisteredGroup)
    (data : json) (filename : str) (r t : json) (s : option json) :
  find_group groups groupFolder = Some group ->
  In (SendMessage r t s)
     (route_message rejects groups groupFolder false data filename) ->
  r = JStr (Ipc.jid group).
Proof.
  intros Hgroup. unfold route_message. rewrite Hgroup. cbn [negb andb option_map].
  destruct (get_prop data (lit "text")) as [txt|]; [|intros [H | []]; discriminate].
  destruct (truthy txt); cbn [negb]; [|intros [H | []]; discriminate].
  destruct (or_else (get_prop data (lit "targetJid"))
                    (get_prop data (lit "target_jid"))) as [target|] eqn:Et;
    cbn [truthy_opt].
  - destruct (truthy target) eqn:Etruthy.
    + destruct (strict_eq_str target (Ipc.jid group)) eqn:Eq; cbn [negb].
      * apply strict_eq_str_eq in Eq. subst target. rewrite Etruthy.
        intros H. apply send_in_dispatch in H. now injection H as <- _ _.
      * intros [H | []]; discriminate.
    + destruct (truthy (JStr (Ipc.jid group))); [|intros []].
      intros H. apply send_in_dispatch in H. now injection H as <- _ _.
  - destruct (truthy (JStr (Ipc.jid group))); [|intros []].
    intros H. apply send_in_dispatch in H. now injection H as <- _ _.
Qed.

Lemma process_message_registered (rejects : Effect -> bool)
    (groups : list RegisteredGroup) (groupFolder : str) (group : RegisteredGroup)
    (data : json) (filename : str) (r t : json) (s : option json) :
  find_group groups groupFolder = Some group ->
  In (SendMessage r t s)
     (process_message rejects groups groupFolder false data filename) ->
  r = JStr (Ipc.jid group).
Proof.
  intros Hgroup.
  destruct data; cbn [process_message];
    try apply (route_message_registered rejects groups groupFolder group _
                 filename r t s Hgroup).
  intros H. now apply send_in_failed in H.
Qed.

Lemma process_task_never_sends (rejects : Effect -> bool) (groupFolder : str)
    (isMain : bool) (data : json) (filename : str) (r t : json) (s : option json) :
  ~ In (SendMessage r t s) (process_task rejects groupFolder isMain data filename).
Proof.
  assert (Hroute : ~ In (SendMessage r t s)
                       (route_task rejects groupFolder isMain data filename)).
  { unfold route_task.
    destruct (get_prop data (lit "type")) as [type|];
      [|intros [H | []]; discriminate].
    destruct (truthy type); [|intros [H | []]; discriminate].
    intros H. apply send_in_dispatch in H. discriminate. }
  destruct data; cbn [process_task]; try exact Hroute.
  apply send_in_failed.
Qed.

(** The calls of [sendMessage] among the effects all carry jid [j]. *)
Definition sends_only_to (j : str) (e : Effect) : Prop :=
  match e with
  | SendMessage r _ _ => r = JStr j
  | _ => True
  end.


Definition example_group (j f : string) : RegisteredGroup :=
  {| Ipc.jid := lit j; name := lit f; folder := lit f |}.

Definition example_mailboxes : Mailboxes :=
  {| messages := Some [ (lit "1700000000000-0a1b2c3d.json",
                         {| content := Some example_message_text;
                            removable := true |}) ];
     tasks := Some [] |}.



(** ** The group queue *)

Import GroupQueue.

(** *** The bound on nested [_drain] calls *)

Lemma pick_spec (st : State) (gs : list GroupState) (g : GroupState) :
  pick st gs = Some g ->
  In g gs /\ processing g = false /\ queue g <> [].
Proof.
  induction gs as [|h gs IH]; simpl; [discriminate|].
  destruct (processing h) eqn:Ep; simpl.
  - intros H. destruct (IH H) as [H1 H2]. split; [now right | exact H2].
  - destruct (queue h) as [|i q] eqn:Eq; simpl.
    + intros H. destruct (IH H) as [H1 H2]. split; [now right | exact H2].
    + destruct (maxConcurrentContainers st <=? activeCount st)%Z; [discriminate|].
      intros H; injection H as <-. repeat split; [now left | exact Ep |].
      now rewrite Eq.
Qed.

Definition queue_lengths (gs : list GroupState) : nat :=
  list_sum (map (fun g => length (queue g)) gs).

Lemma queue_lengths_update_same (j : str) (f : GroupState -> GroupState)
    (gs : list GroupState) :
  (forall g, queue (f g) = queue g) ->
  queue_lengths (update j f gs) = queue_lengths gs.
Proof.
  intros Hf. unfold queue_lengths, update. rewrite map_map. f_equal.
  apply map_ext. intros g. destruct (str_eqb (GroupQueue.jid g) j); [|reflexivity].
  now rewrite Hf.
Qed.

Lemma queue_lengths_take (g : GroupState) (gs : list GroupState) :
  In g gs -> queue g <> [] ->
  queue_lengths (update (GroupQueue.jid g) take gs) < queue_lengths gs.
Proof.
  intros Hin Hne.
  assert (Hle : forall l, queue_lengths (update (GroupQueue.jid g) take l)
                          <= queue_lengths l).
  { induction l as [|h l IH]; simpl; [lia|].
    unfold queue_lengths in *. simpl.
    destruct (str_eqb (GroupQueue.jid h) (GroupQueue.jid g)); simpl; [|lia].
    destruct (queue h); simpl; lia. }
  induction gs as [|h gs IH]; [contradiction|].
  unfold queue_lengths in *. simpl.
  destruct Hin as [-> | Hin].
  - rewrite str_eqb_refl. simpl. specialize (Hle gs).
    destruct (queue g); [contradiction|]. simpl. lia.
  - specialize (IH Hin).
    destruct (str_eqb (GroupQueue.jid h) (GroupQueue.jid g)); simpl; [|lia].
    destruct (queue h); simpl; lia.
Qed.

(** Any fuel above the number of queued items gives the same [_drain]. *)
Lemma drain_fuel_enough (n m : nat) (st : State) :
  queued st < n -> queued st < m -> drain_fuel n st = drain_fuel m st.
Proof.
  revert m st; induction n as [|n IH]; intros m st Hn Hm; [lia|].
  destruct m as [|m]; [lia|]. simpl.
  destruct (maxConcurrentContainers st <=? activeCount st)%Z; [reflexivity|].
  destruct (pick st (groups st)) as [g|] eqn:Ep; [|reflexivity].
  apply pick_spec in Ep as [Hin [_ Hne]].
  destruct (queue g) as [|i q] eqn:Eq; [reflexivity|].
  unfold _processItem. cbn [emit processMessagesFn with_activeCount with_groups
                             item fn attempt].
  destruct (fn i || processMessagesFn st); [reflexivity|].
  unfold on_failure. cbn [attempt]. change (0 <? MAX_RETRIES) with true. cbv iota.
  unfold finally_. cbn [attempt item]. change (MAX_RETRIES <=? 0) with false.
  destruct (fn i); [reflexivity|]. cbn [orb negb].
  assert (Hq : forall s, queued s = queue_lengths (groups s)) by reflexivity.
  rewrite Hq in Hn, Hm.
  pose proof (queue_lengths_take g (groups st) Hin) as Hlt.
  rewrite Eq in Hlt. specialize (Hlt ltac:(discriminate)).
  apply IH; rewrite Hq;
    cbn [groups with_activeCount with_groups with_timers emit target];
    rewrite queue_lengths_update_same by reflexivity; lia.
Qed.

Lemma _drain_any_fuel (n : nat) (st : State) :
  queued st < n -> drain_fuel n st = _drain st.
Proof. intros H. apply drain_fuel_enough; [exact H | lia]. Qed.

(** *** Slot accounting across a retry *)

(** A task item (one carrying [fn]) that fails before its last attempt keeps
    the slot: nothing but the trace and the timers changes. *)
Lemma task_keeps_slot_during_backoff (redrain : State -> State) (st : State)
    (c : Call) :
  fn (item c) = true -> attempt c < MAX_RETRIES ->
  let st' := settle redrain st c Failed in
  groups st' = groups st
  /\ activeCount st' = activeCount st
  /\ timers st' = timers st ++ [(retry_delay (attempt c), retry c)].
Proof.
  intros Hfn Hk. unfold settle, on_failure.
  rewrite (proj2 (Nat.ltb_lt _ _) Hk). unfold finally_.
  cbn [attempt item with_timers emit]. rewrite Hfn.
  assert (E : (MAX_RETRIES <=? attempt c) = false) by (apply Nat.leb_gt; exact Hk).
  rewrite E. now cbn.
Qed.

(** C2, on the code: a message-check item (no [fn]) whose first attempt fails
    has its retry scheduled in 5000 ms, and at that point the [finally] block
    has already cleared [processing] and decremented [activeCount]: the slot is
    free during the backoff. *)
Theorem message_check_releases_slot_during_backoff :
  let g := lit "g" in
  let st0 := GroupQueue.run (constructor 5)
               [SetProcessMessagesFn; EnqueueMessageCheck g] in
  let st1 := step st0 (Settle 0 Failed) in
  (group_processing st0 g = Some true /\ activeCount st0 = 1%Z)
  /\ timers st1
     = [ (5000%Z, {| target := g;
                     item := {| promise := 0; fn := false; taskId := None |};
                     attempt := 1 |}) ]
  /\ group_processing st1 g = Some false
  /\ activeCount st1 = 0%Z.
Proof. repeat split. Qed.

(** C3, on the code: after a message check has failed once, been retried and
    succeeded, [activeCount] is -1 while no group is processing; and with two
    message checks queued for one group, the retry of the first runs while the
    second is in flight. *)
Theorem exclusivity_broken_by_message_check_retry :
  let g := lit "g" in
  let st := GroupQueue.run (constructor 5)
              [SetProcessMessagesFn; EnqueueMessageCheck g; Settle 0 Failed;
               Fire 0; Settle 0 (Fulfilled true)] in
  let st' := GroupQueue.run (constructor 5)
               [SetProcessMessagesFn; EnqueueMessageCheck g;
                EnqueueMessageCheck g; Settle 0 Failed; Fire 0] in
  (processing_count st = 0%Z /\ activeCount st = (-1)%Z)
  /\ map (fun c => (promise (item c), attempt c)) (in_flight st' g)
     = [(1, 0); (0, 1)]
  /\ awaiting st' = in_flight st' g.
Proof. repeat split. Qed.

(** *** The retry schedule *)

Definition event_ok (e : GroupQueue.Event) : Prop :=
  match e with
  | Attempted _ k => k <= 5
  | RetryScheduled _ k d => k < 5 /\ d = (5000 * 2 ^ Z.of_nat k)%Z
  | Rejected _ k => k = 5
  | Resolved _ _ => True
  end.

(** A pending timer starts attempt [k], between 1 and 5, and was set for
    [5000 * 2^(k-1)] ms. *)
Definition timer_ok (t : Z * Call) : Prop :=
  1 <= attempt (snd t) <= 5
  /\ fst t = (5000 * 2 ^ Z.of_nat (attempt (snd t) - 1))%Z.

Definition call_ok (c : Call) : Prop := attempt c <= 5.

Definition is_attempt (p : nat) (e : GroupQueue.Event) : bool :=
  match e with
  | Attempted q _ => q =? p
  | _ => false
  end.

(** How many times the item of promise [p] has been attempted so far. *)
Definition attempts (p : nat) (st : State) : nat :=
  length (filter (is_attempt p) (trace st)).

(** The attempts the item of promise [p] may still make, by where it is. *)
Definition owes_queue (p : nat) (g : GroupState) : nat :=
  6 * length (filter (fun i => promise i =? p) (queue g)).

Definition owes_call (p : nat) (c : Call) : nat :=
  if promise (item c) =? p then 5 - attempt c else 0.

Definition owes_timer (p : nat) (t : Z * Call) : nat :=
  if promise (item (snd t)) =? p then 6 - attempt (snd t) else 0.

Definition owed (p : nat) (st : State) : nat :=
  list_sum (map (owes_queue p) (groups st))
  + list_sum (map (owes_call p) (awaiting st))
  + list_sum (map (owes_timer p) (timers st)).

(** [credit] accounts for a call that is being handled and sits in no list. *)
Record Good (credit : nat -> nat) (st : State) : Prop := {
  good_jids : NoDup (map GroupQueue.jid (groups st));
  good_timers : Forall timer_ok (timers st);
  good_awaiting : Forall call_ok (awaiting st);
  good_trace : Forall event_ok (trace st);
  good_budget : forall p,
      attempts p st + owed p st + credit p <= if p <? promises st then 6 else 0
}.

Definition no_credit : nat -> nat := fun _ => 0.

Definition credit_for (q n : nat) : nat -> nat :=
  fun p => if q =? p then n else 0.

Lemma list_sum_remove_nth {A : Type} (f : A -> nat) (l : list A) (n : nat) (x : A) :
  nth_error l n = Some x ->
  list_sum (map f (remove_nth n l)) + f x = list_sum (map f l).
Proof.
  revert n; induction l as [|y l IH]; intros [|n]; simpl; try discriminate.
  - intros H; injection H as ->. lia.
  - intros H. specialize (IH n H). lia.
Qed.

Lemma Forall_remove_nth {A : Type} (P : A -> Prop) (l : list A) (n : nat) :
  Forall P l -> Forall P (remove_nth n l).
Proof.
  intros H. revert n; induction H as [|y l Hy Hl IH]; intros [|n]; simpl;
    try constructor; auto.
Qed.

Lemma Forall_nth_error {A : Type} (P : A -> Prop) (l : list A) (n : nat) (x : A) :
  Forall P l -> nth_error l n = Some x -> P x.
Proof.
  intros H Hn. rewrite Forall_forall in H. apply H.
  eapply nth_error_In; eassumption.
Qed.

Lemma update_jids (j : str) (f : GroupState -> GroupState) (gs : list GroupState) :
  (forall g, GroupQueue.jid (f g) = GroupQueue.jid g) ->
  map GroupQueue.jid (update j f gs) = map GroupQueue.jid gs.
Proof.
  intros Hf. unfold update. rewrite map_map. apply map_ext.
  intros g. destruct (str_eqb (GroupQueue.jid g) j); [apply Hf | reflexivity].
Qed.

Lemma owes_queue_update_same (p : nat) (j : str) (f : GroupState -> GroupState)
    (gs : list GroupState) :
  (forall g, queue (f g) = queue g) ->
  list_sum (map (owes_queue p) (update j f gs))
  = list_sum (map (owes_queue p) gs).
Proof.
  intros Hf. unfold update. rewrite map_map. f_equal. apply map_ext.
  intros g. destruct (str_eqb (GroupQueue.jid g) j); [|reflexivity].
  unfold owes_queue. now rewrite Hf.
Qed.

Lemma update_absent (j : str) (f : GroupState -> GroupState) (gs : list GroupState) :
  ~ In j (map GroupQueue.jid gs) -> update j f gs = gs.
Proof.
  intros Hj. unfold update. rewrite <- (map_id gs) at 2. apply map_ext_in.
  intros g Hg. destruct (str_eqb (GroupQueue.jid g) j) eqn:E; [|reflexivity].
  apply str_eqb_eq in E. exfalso. apply Hj. apply in_map_iff. now exists g.
Qed.

(** With distinct jids, [update] changes one group only. *)
Lemma owes_queue_update (p : nat) (f : GroupState -> GroupState)
    (g : GroupState) (gs : list GroupState) :
  NoDup (map GroupQueue.jid gs) -> In g gs ->
  list_sum (map (owes_queue p) (update (GroupQueue.jid g) f gs)) + owes_queue p g
  = list_sum (map (owes_queue p) gs) + owes_queue p (f g).
Proof.
  induction gs as [|h gs IH]; simpl; intros Hnd Hin; [contradiction|].
  inversion Hnd as [|? ? Hh Hnd']; subst.
  destruct Hin as [-> | Hin].
  - rewrite str_eqb_refl. fold (update (GroupQueue.jid g) f gs).
    rewrite (update_absent _ f gs Hh). lia.
  - destruct (str_eqb (GroupQueue.jid h) (GroupQueue.jid g)) eqn:E.
    + apply str_eqb_eq in E. exfalso. apply Hh. rewrite E.
      apply in_map_iff. now exists g.
    + fold (update (GroupQueue.jid g) f gs). specialize (IH Hnd' Hin). lia.
Qed.

Lemma attempts_emit (p : nat) (st : State) (e : GroupQueue.Event) :
  attempts p (emit st e) = attempts p st + (if is_attempt p e then 1 else 0).
Proof.
  unfold attempts. cbn [trace emit]. rewrite filter_app, length_app. simpl.
  destruct (is_attempt p e); reflexivity.
Qed.

(** Projections of an updated state. *)
Ltac fields :=
  cbn [groups activeCount maxConcurrentContainers processMessagesFn awaiting
       timers trace promises with_groups with_activeCount with_awaiting
       with_timers emit setProcessMessagesFn next_promise] in *.

(** Opens the budget of the goal for a promise [p], with the budget [H] of the
    state the goal's state comes from. *)
Ltac budget H :=
  let p := fresh "p" in
  intros p; specialize (H p);
  unfold owed, attempts, no_credit, credit_for in *; fields;
  rewrite ?map_app, ?list_sum_app, ?filter_app, ?length_app;
  rewrite ?map_app, ?list_sum_app, ?filter_app, ?length_app in H;
  cbn [map list_sum fold_right filter is_attempt length] in *.

(** Hides the sums over the lists of [st], so that what was added shows. *)
Ltac freeze p st :=
  set (list_sum (map (owes_queue p) (groups st))) in *;
  set (list_sum (map (owes_call p) (awaiting st))) in *;
  set (list_sum (map (owes_timer p) (timers st))) in *;
  set (length (filter (is_attempt p) (trace st))) in *.

Section Preservation.

Variable redrain : State -> State.
Hypothesis redrain_good : forall s, Good no_credit s -> Good no_credit (redrain s).

Lemma good_finally (st : State) (c : Call) :
  Good no_credit st -> Good no_credit (finally_ redrain st c).
Proof.
  intros H. unfold finally_.
  destruct ((MAX_RETRIES <=? attempt c) || negb (fn (item c))); [|exact H].
  apply redrain_good. destruct H as [H1 H2 H3 H4 H5].
  constructor; fields; try assumption.
  - now rewrite update_jids.
  - budget H5. now rewrite owes_queue_update_same.
Qed.

Lemma good_on_failure (st : State) (c : Call) :
  attempt c <= 5 ->
  Good (credit_for (promise (item c)) (5 - attempt c)) st ->
  Good no_credit (on_failure redrain st c).
Proof.
  intros Hk [H1 H2 H3 H4 H5]. unfold on_failure.
  destruct (Nat.ltb_spec (attempt c) MAX_RETRIES) as [Hlt | Hge];
    apply good_finally; unfold MAX_RETRIES in *.
  - constructor; fields; try assumption.
    + apply Forall_app. split; [exact H2|]. constructor; [|constructor].
      unfold timer_ok, retry_delay, BASE_RETRY_DELAY. cbn [fst snd retry attempt].
      rewrite Nat.sub_succ, Nat.sub_0_r. split; [lia | reflexivity].
    + apply Forall_app. split; [exact H4|]. constructor; [|constructor].
      unfold event_ok, retry_delay, BASE_RETRY_DELAY. now split.
    + budget H5. freeze p st. unfold owes_timer. cbn [snd retry item attempt].
      destruct (promise (item c) =? p); lia.
  - constructor; fields; try assumption.
    + apply Forall_app. split; [exact H4|]. constructor; [|constructor].
      cbn [event_ok]. lia.
    + budget H5. lia.
Qed.

Lemma good_settle (st : State) (c : Call) (o : Outcome) :
  attempt c <= 5 ->
  Good (credit_for (promise (item c)) (5 - attempt c)) st ->
  Good no_credit (settle redrain st c o).
Proof.
  intros Hk H. destruct o as [result|]; [|now apply good_on_failure].
  cbn [settle]. apply good_finally. destruct H as [H1 H2 H3 H4 H5].
  constructor; fields; try assumption.
  - apply Forall_app. split; [exact H4|]. constructor; [exact I | constructor].
  - budget H5. lia.
Qed.

Lemma good_processItem (st : State) (c : Call) :
  attempt c <= 5 ->
  Good (credit_for (promise (item c)) (6 - attempt c)) st ->
  Good no_credit (_processItem redrain st c).
Proof.
  intros Hk [H1 H2 H3 H4 H5]. unfold _processItem.
  assert (Hst1 : Good (credit_for (promise (item c)) (5 - attempt c))
                      (emit st (Attempted (promise (item c)) (attempt c)))).
  { constructor; fields; try assumption.
    - apply Forall_app. split; [exact H4|].
      constructor; [exact Hk | constructor].
    - budget H5. destruct (promise (item c) =? p); cbn [length]; lia. }
  destruct (fn (item c) || processMessagesFn _); [|now apply good_on_failure].
  destruct Hst1 as [G1 G2 G3 G4 G5].
  constructor; fields; try assumption.
  - apply Forall_app. split; [exact G3|].
    constructor; [exact Hk | constructor].
  - budget G5. freeze p st. unfold owes_call.
    destruct (promise (item c) =? p); cbn [length] in *; lia.
Qed.

End Preservation.

Lemma owes_queue_take (p : nat) (i : QueueItem) (q : list QueueItem)
    (g : GroupState) :
  queue g = i :: q ->
  owes_queue p g = owes_queue p (take g) + (if promise i =? p then 6 else 0).
Proof.
  intros Eq. unfold owes_queue. cbn [take queue]. rewrite Eq. cbn [tl filter].
  destruct (promise i =? p); cbn [length]; lia.
Qed.

Lemma good_drain (n : nat) (st : State) :
  Good no_credit st -> Good no_credit (drain_fuel n st).
Proof.
  revert st; induction n as [|n IH]; intros st H; [exact H|].
  simpl. destruct (maxConcurrentContainers st <=? activeCount st)%Z; [exact H|].
  destruct (pick st (groups st)) as [g|] eqn:Ep; [|exact H].
  apply pick_spec in Ep as [Hin [_ Hne]].
  destruct (queue g) as [|i q] eqn:Eq; [exact H|].
  apply (good_processItem (drain_fuel n) IH); cbn [attempt item]; [lia|].
  destruct H as [H1 H2 H3 H4 H5].
  constructor; fields; try assumption.
  - now rewrite update_jids.
  - budget H5.
    pose proof (owes_queue_update p take g (groups st) H1 Hin) as Hq.
    rewrite (owes_queue_take p i q g Eq) in Hq.
    destruct (promise i =? p); lia.
Qed.

Lemma good__drain (st : State) : Good no_credit st -> Good no_credit (_drain st).
Proof. apply good_drain. Qed.

Lemma has_group_in (j : str) (gs : list GroupState) :
  has_group j gs = true -> exists g, In g gs /\ GroupQueue.jid g = j.
Proof.
  unfold has_group. intros H. apply existsb_exists in H as [g [Hin Hj]].
  exists g. split; [exact Hin | now apply str_eqb_eq].
Qed.

Lemma has_group_absent (j : str) (gs : list GroupState) :
  has_group j gs = false -> ~ In j (map GroupQueue.jid gs).
Proof.
  unfold has_group. intros H Hin. apply in_map_iff in Hin as [g [Hj Hin]].
  assert (Ht : existsb (fun g => str_eqb (GroupQueue.jid g) j) gs = true).
  { apply existsb_exists. exists g. split; [exact Hin|]. now apply str_eqb_eq. }
  congruence.
Qed.

Lemma good_getGroup (st : State) (j : str) :
  Good no_credit st ->
  Good no_credit (_getGroup st j) /\ has_group j (groups (_getGroup st j)) = true.
Proof.
  intros H. unfold _getGroup.
  destruct (has_group j (groups st)) eqn:E; [now split|].
  split.
  - destruct H as [H1 H2 H3 H4 H5]. constructor; fields; try assumption.
    + rewrite map_app. cbn [map GroupQueue.jid].
      apply NoDup_app_remove_l with (l := []). cbn [app].
      apply Permutation_NoDup with (l := j :: map GroupQueue.jid (groups st)).
      * apply Permutation_cons_append.
      * constructor; [now apply has_group_absent | exact H1].
    + budget H5. unfold owes_queue at 2. cbn [queue filter length]. lia.
  - fields. unfold has_group. rewrite existsb_app. cbn [existsb GroupQueue.jid].
    now rewrite str_eqb_refl, orb_true_r.
Qed.

Lemma good_enqueue (st : State) (j : str) (mk : nat -> QueueItem)
    (add : QueueItem -> GroupState -> GroupState) :
  (forall n, promise (mk n) = n) ->
  (forall i g, GroupQueue.jid (add i g) = GroupQueue.jid g) ->
  (forall p i g, owes_queue p (add i g)
                 = owes_queue p g + (if promise i =? p then 6 else 0)) ->
  Good no_credit st ->
  Good no_credit
    (_drain (next_promise
               (with_groups (_getGroup st j)
                  (update j (add (mk (promises (_getGroup st j))))
                     (groups (_getGroup st j)))))).
Proof.
  intros Hmk Hjid Hadd H.
  destruct (good_getGroup st j H) as [[H1 H2 H3 H4 H5] Hhas].
  set (st1 := _getGroup st j) in *.
  apply good__drain. constructor; fields; try assumption.
  - rewrite update_jids; [exact H1 | apply Hjid].
  - apply has_group_in in Hhas as [g [Hin <-]].
    budget H5.
    pose proof (owes_queue_update p (add (mk (promises st1))) g (groups st1) H1 Hin)
      as Hq.
    rewrite Hadd, Hmk in Hq.
    destruct (Nat.eqb_spec (promises st1) p) as [Hp | Hp];
      destruct (Nat.ltb_spec p (promises st1));
      destruct (Nat.ltb_spec p (S (promises st1))); lia.
Qed.

Lemma owes_queue_push (p : nat) (i : QueueItem) (g : GroupState) :
  owes_queue p (push i g) = owes_queue p g + (if promise i =? p then 6 else 0).
Proof.
  unfold owes_queue. cbn [push set_queue queue].
  rewrite filter_app, length_app. cbn [filter].
  destruct (promise i =? p); cbn [length]; lia.
Qed.

Lemma owes_queue_unshift (p : nat) (i : QueueItem) (g : GroupState) :
  owes_queue p (unshift i g) = owes_queue p g + (if promise i =? p then 6 else 0).
Proof.
  unfold owes_queue. cbn [unshift set_queue queue filter].
  destruct (promise i =? p); cbn [length]; lia.
Qed.

Lemma good_step (st : State) (op : Op) :
  Good no_credit st -> Good no_credit (step st op).
Proof.
  intros H. destruct op as [| j | j t | j proc cname fold | n o | n]; cbn [step].
  - destruct H as [H1 H2 H3 H4 H5]. constructor; fields; try assumption.
  - apply (good_enqueue st j
             (fun n => {| promise := n; fn := false; taskId := None |}) push);
      auto using owes_queue_push.
  - apply (good_enqueue st j
             (fun n => {| promise := n; fn := true; taskId := Some t |}) unshift);
      auto using owes_queue_unshift.
  - unfold registerProcess.
    destruct (good_getGroup st j H) as [[H1 H2 H3 H4 H5] _].
    constructor; fields; try assumption.
    + now rewrite update_jids.
    + budget H5. now rewrite owes_queue_update_same.
  - destruct (nth_error (awaiting st) n) as [c|] eqn:E; [|exact H].
    destruct H as [H1 H2 H3 H4 H5].
    pose proof (Forall_nth_error call_ok _ n c H3 E) as Hc.
    apply (good_settle _drain good__drain); [exact Hc|].
    constructor; fields; try assumption.
    + now apply Forall_remove_nth.
    + budget H5.
      pose proof (list_sum_remove_nth (owes_call p) (awaiting st) n c E) as Hs.
      unfold owes_call at 2 in Hs.
      destruct (promise (item c) =? p); lia.
  - destruct (nth_error (timers st) n) as [[d c]|] eqn:E; [|exact H].
    destruct H as [H1 H2 H3 H4 H5].
    pose proof (Forall_nth_error timer_ok _ n (d, c) H2 E) as [Hc _].
    cbn [snd] in Hc.
    apply (good_processItem _drain good__drain); [lia|].
    constructor; fields; try assumption.
    + now apply Forall_remove_nth.
    + budget H5.
      pose proof (list_sum_remove_nth (owes_timer p) (timers st) n (d, c) E) as Hs.
      unfold owes_timer at 2 in Hs. cbn [snd] in Hs.
      destruct (promise (item c) =? p); lia.
Qed.

Lemma good_run (ops : list Op) (st : State) :
  Good no_credit st -> Good no_credit (GroupQueue.run st ops).
Proof.
  unfold GroupQueue.run. revert st; induction ops as [|op ops IH]; intros st H;
    [exact H|].
  simpl. apply IH. now apply good_step.
Qed.

Lemma good_constructor (maxConcurrent : Z) : Good no_credit (constructor maxConcurrent).
Proof.
  constructor; cbn; constructor.
Qed.

(** The queue only ever appends to its trace and, within one step, to its
    timers. *)
Definition extends (st st' : State) : Prop :=
  (exists l, trace st' = trace st ++ l) /\ (exists l, timers st' = timers st ++ l).

Lemma extends_refl (st : State) : extends st st.
Proof. split; exists []; now rewrite app_nil_r. Qed.

Lemma extends_trans (a b c : State) : extends a b -> extends b c -> extends a c.
Proof.
  intros [[l1 H1] [l2 H2]] [[l3 H3] [l4 H4]]. split.
  - exists (l1 ++ l3). now rewrite H3, H1, app_assoc.
  - exists (l2 ++ l4). now rewrite H4, H2, app_assoc.
Qed.

Lemma extends_emit (st : State) (e : GroupQueue.Event) : extends st (emit st e).
Proof. split; [now exists [e] | exists []; cbn; now rewrite app_nil_r]. Qed.

Section Extension.

Variable redrain : State -> State.
Hypothesis redrain_extends : forall s, extends s (redrain s).

Lemma finally_extends (st : State) (c : Call) : extends st (finally_ redrain st c).
Proof.
  unfold finally_.
  destruct ((MAX_RETRIES <=? attempt c) || negb (fn (item c)));
    [|apply extends_refl].
  eapply extends_trans; [|apply redrain_extends].
  split; exists []; cbn; now rewrite app_nil_r.
Qed.

Lemma on_failure_extends (st : State) (c : Call) :
  extends st (on_failure redrain st c).
Proof.
  unfold on_failure. destruct (attempt c <? MAX_RETRIES).
  - eapply extends_trans; [|apply finally_extends].
    split; cbn; [now eexists | now eexists].
  - eapply extends_trans; [apply extends_emit | apply finally_extends].
Qed.

Lemma processItem_extends (st : State) (c : Call) :
  extends st (_processItem redrain st c).
Proof.
  unfold _processItem. destruct (fn (item c) || processMessagesFn _).
  - split; cbn; [now eexists | exists []; now rewrite app_nil_r].
  - eapply extends_trans; [apply extends_emit | apply on_failure_extends].
Qed.

End Extension.

Lemma drain_extends (n : nat) (st : State) : extends st (drain_fuel n st).
Proof.
  revert st; induction n as [|n IH]; intros st; [apply extends_refl|].
  simpl. destruct (maxConcurrentContainers st <=? activeCount st)%Z;
    [apply extends_refl|].
  destruct (pick st (groups st)) as [g|]; [|apply extends_refl].
  destruct (queue g) as [|i q]; [apply extends_refl|].
  eapply extends_trans; [|apply (processItem_extends (drain_fuel n) IH)].
  split; exists []; cbn; now rewrite app_nil_r.
Qed.

Lemma _drain_extends (st : State) : extends st (_drain st).
Proof. apply drain_extends. Qed.

(** What a failed attempt does to its own item. *)
Lemma failed_attempt_effect (st : State) (c : Call) :
  let st' := settle _drain st c Failed in
  (attempt c < 5 ->
   In (RetryScheduled (promise (item c)) (attempt c) (retry_delay (attempt c)))
      (trace st')
   /\ In (retry_delay (attempt c), retry c) (timers st'))
  /\ (5 <= attempt c ->
      In (Rejected (promise (item c)) (attempt c)) (trace st')).
Proof.
  cbn [settle]. unfold on_failure, MAX_RETRIES.
  destruct (Nat.ltb_spec (attempt c) 5) as [Hlt | Hge]; (split; [|lia || idtac]);
    try lia.
  - intros _.
    match goal with |- context [finally_ _drain ?s c] =>
      destruct (finally_extends _drain _drain_extends s c) as [[l1 H1] [l2 H2]]
    end.
    rewrite H1, H2. cbn [trace timers with_timers emit].
    split; apply in_or_app; left; apply in_or_app; right; now left.
  - intros _.
    match goal with |- context [finally_ _drain ?s c] =>
      destruct (finally_extends _drain _drain_extends s c) as [[l1 H1] _]
    end.
    rewrite H1. cbn [trace emit].
    apply in_or_app; left; apply in_or_app; right; now left.
Qed.



(** Scenario: a message check whose processing function fails every time is
    attempted six times, with retries set for 5, 10, 20, 40 and 80 seconds,
    and is then rejected. *)
Lemma failing_item_trace :
  let fail_and_retry := [Settle 0 Failed; Fire 0] in
  let st := GroupQueue.run (constructor 5)
              ([SetProcessMessagesFn; EnqueueMessageCheck (lit "g")]
               ++ fail_and_retry ++ fail_and_retry ++ fail_and_retry
               ++ fail_and_retry ++ fail_and_retry ++ [Settle 0 Failed]) in
  trace st
  = [ Attempted 0 0; RetryScheduled 0 0 5000;
      Attempted 0 1; RetryScheduled 0 1 10000;
      Attempted 0 2; RetryScheduled 0 2 20000;
      Attempted 0 3; RetryScheduled 0 3 40000;
      Attempted 0 4; RetryScheduled 0 4 80000;
      Attempted 0 5; Rejected 0 5 ]
  /\ timers st = [] /\ awaiting st = [].
Proof. repeat split. Qed.

(* ===================================================================== *)
(** * Part III. Further properties of the code                            *)
(* ===================================================================== *)

(** ** More on mount security *)

Lemma resolve_roots_spec (h : Host) (l : list json) (rs : list str) :
  resolve_roots h l = Some rs
  <-> exists roots, l = map JStr roots /\ rs = map (resolve h) roots.
Proof.
  revert rs; induction l as [|v l IH]; intros rs; cbn [resolve_roots].
  - split.
    + intros H; injection H as <-. now exists [].
    + intros [[|r roots] [Hl ->]]; [reflexivity | discriminate].
  - split.
    + destruct v; try discriminate.
      destruct (resolve_roots h l) as [t|]; [|discriminate].
      intros H; injection H as <-.
      destruct (proj1 (IH t) eq_refl) as [roots [-> ->]].
      now exists (s :: roots).
    + intros [[|r roots] [Hl ->]]; [discriminate|].
      injection Hl as -> ->.
      now rewrite (proj2 (IH (map (resolve h) roots))
                     (ex_intro _ roots (conj eq_refl eq_refl))).
Qed.

(** X1.  [loadMountAllowlist] answers an allowlist exactly when the file can
    be read, is JSON, and holds an array of strings under [allowed_roots]; the
    roots of the answer are those strings passed through [resolve], and its
    blocked patterns are what the file holds under [blocked_patterns], or the
    empty array when that is missing or falsy.  In every other case the answer
    is [null]. *)
Theorem loadMountAllowlist_spec :
  forall (h : Host) (path : str) (answer : option MountAllowlist),
    loadMountAllowlist h path = answer
    <-> match answer with
        | Some allowlist =>
            exists raw parsed roots,
              readFileSync h path = Some raw
              /\ JSON_parse h raw = Some parsed
              /\ get_prop parsed (lit "allowed_roots") = Some (JArr (map JStr roots))
              /\ allowlist
                 = {| allowed_roots := map (resolve h) roots;
                      blocked_patterns :=
                        or_else (get_prop parsed (lit "blocked_patterns"))
                                (Some (JArr [])) |}
        | None =>
            forall raw parsed roots,
              readFileSync h path = Some raw ->
              JSON_parse h raw = Some parsed ->
              get_prop parsed (lit "allowed_roots") = Some (JArr (map JStr roots)) ->
              False
        end.
Proof.
  intros h path answer.
  assert (Hload : forall raw parsed roots,
             readFileSync h path = Some raw ->
             JSON_parse h raw = Some parsed ->
             get_prop parsed (lit "allowed_roots") = Some (JArr (map JStr roots)) ->
             loadMountAllowlist h path
             = Some {| allowed_roots := map (resolve h) roots;
                       blocked_patterns :=
                         or_else (get_prop parsed (lit "blocked_patterns"))
                                 (Some (JArr [])) |}).
  { intros raw parsed roots Hread Hparse Hroots. unfold loadMountAllowlist.
    rewrite Hread, Hparse.
    destruct parsed; try discriminate. rewrite Hroots.
    now rewrite (proj2 (resolve_roots_spec h (map JStr roots) (map (resolve h) roots))
                   (ex_intro _ roots (conj eq_refl eq_refl))). }
  assert (Hsome : forall allowlist,
             loadMountAllowlist h path = Some allowlist ->
             exists raw parsed roots,
               readFileSync h path = Some raw
               /\ JSON_parse h raw = Some parsed
               /\ get_prop parsed (lit "allowed_roots")
                  = Some (JArr (map JStr roots))
               /\ allowlist
                  = {| allowed_roots := map (resolve h) roots;
                       blocked_patterns :=
                         or_else (get_prop parsed (lit "blocked_patterns"))
                                 (Some (JArr [])) |}).
  { intros allowlist. unfold loadMountAllowlist.
    destruct (readFileSync h path) as [raw|]; [|discriminate].
    destruct (JSON_parse h raw) as [parsed|] eqn:Hparse; [|discriminate].
    assert (Hgo : match get_prop parsed (lit "allowed_roots") with
                  | Some (JArr roots) =>
                      match resolve_roots h roots with
                      | Some rs =>
                          Some {| allowed_roots := rs;
                                  blocked_patterns :=
                                    or_else (get_prop parsed (lit "blocked_patterns"))
                                            (Some (JArr [])) |}
                      | None => None
                      end
                  | _ => None
                  end = Some allowlist ->
                  exists roots,
                    get_prop parsed (lit "allowed_roots")
                    = Some (JArr (map JStr roots))
                    /\ allowlist
                       = {| allowed_roots := map (resolve h) roots;
                            blocked_patterns :=
                              or_else (get_prop parsed (lit "blocked_patterns"))
                                      (Some (JArr [])) |}).
    { destruct (get_prop parsed (lit "allowed_roots")) as [[| | | |l|]|];
        try discriminate.
      destruct (resolve_roots h l) as [rs|] eqn:Hrs; [|discriminate].
      apply resolve_roots_spec in Hrs as [roots [-> ->]].
      intros H; injection H as <-. now exists roots. }
    intros H.
    assert (Hex : exists roots,
               get_prop parsed (lit "allowed_roots") = Some (JArr (map JStr roots))
               /\ allowlist
                  = {| allowed_roots := map (resolve h) roots;
                       blocked_patterns :=
                         or_else (get_prop parsed (lit "blocked_patterns"))
                                 (Some (JArr [])) |})
      by (destruct parsed; try discriminate; now apply Hgo).
    destruct Hex as [roots [Hroots ->]]. now exists raw, parsed, roots. }
  split.
  - intros <-. destruct (loadMountAllowlist h path) as [allowlist|] eqn:E.
    + now apply Hsome.
    + intros raw parsed roots Hread Hparse Hroots.
      specialize (Hload raw parsed roots Hread Hparse Hroots). congruence.
  - destruct answer as [allowlist|].
    + intros [raw [parsed [roots [Hread [Hparse [Hroots ->]]]]]].
      now apply (Hload raw parsed roots).
    + intros Hnone. destruct (loadMountAllowlist h path) as [allowlist|];
        [|reflexivity].
      destruct (Hsome allowlist eq_refl) as [raw [parsed [roots [H1 [H2 [H3 _]]]]]].
      exfalso. now apply (Hnone raw parsed roots).
Qed.

(** A host that holds one file, the allowlist template, and on which every
    path exists and is its own real path. *)
Definition template_host : Host :=
  {| realpathSync := fun p => Some p;
     readFileSync := fun p => if str_eqb p (lit "/etc/allow.json")
                              then Some (lit "template") else None;
     normalize := fun p => p;
     resolve := fun p => p;
     JSON_parse := fun raw => if str_eqb raw (lit "template")
                              then Some generateAllowlistTemplate else None |}.

Lemma loadMountAllowlist_spec_witness :
  loadMountAllowlist template_host (lit "/etc/allow.json")
  = Some {| allowed_roots := [lit "/home"; lit "/opt/data"];
            blocked_patterns := Some (JArr []) |}
  /\ loadMountAllowlist template_host (lit "/etc/none.json") = None.
Proof.
  split.
  - apply (proj2 (loadMountAllowlist_spec template_host (lit "/etc/allow.json")
                    (Some {| allowed_roots := [lit "/home"; lit "/opt/data"];
                             blocked_patterns := Some (JArr []) |}))).
    exists (lit "template"), generateAllowlistTemplate, [lit "/home"; lit "/opt/data"].
    repeat split.
  - apply (proj2 (loadMountAllowlist_spec template_host (lit "/etc/none.json") None)).
    intros raw parsed roots H. discriminate H.
Defined.

Lemma default_patterns_lower :
  Forall (fun p => toLowerCase p = p) DEFAULT_BLOCKED_PATTERNS.
Proof. repeat constructor. Qed.

Lemma first_blocked_defaults (normalized : str) (ps : list str) (l : list json)
    (blocked : option str) :
  Forall (fun p => p <> []) ps ->
  first_blocked normalized (map JStr ps ++ l) = Returns blocked ->
  match blocked with Some (_ :: _) => False | _ => True end ->
  Forall (fun p => includes normalized (toLowerCase p) = false) ps.
Proof.
  induction 1 as [|p ps Hp _ IH]; intros Hret Hfalsy; [constructor|].
  cbn [map app first_blocked] in Hret.
  destruct (includes normalized (toLowerCase p)) eqn:E.
  - injection Hret as <-. destruct p; [contradiction | destruct Hfalsy].
  - constructor; [exact E | now apply IH].
Qed.

(** X2.  What [validateMount] never lets through: when it answers
    valid:true, the container path starts with "/" and holds no "..", the host
    path resolves, and the resolved path, normalized and lower-cased, contains
    none of the built-in blocked patterns, whatever the allowlist says. *)
Theorem validateMount_accepts_only :
  forall (h : Host) (m : AdditionalMount) (isMain : bool)
         (allowlist : MountAllowlist) (r : MountResult),
    validateMount h m isMain allowlist = Returns r ->
    valid r = true ->
    startsWith (container_path m) (lit "/") = true
    /\ includes (container_path m) (lit "..") = false
    /\ reason r = None
    /\ exists real,
         realpathSync h (host_path m) = Some real
         /\ Forall (fun p => includes (toLowerCase (normalize h real)) p = false)
                   DEFAULT_BLOCKED_PATTERNS.
Proof.
  intros h m isMain allowlist r Hret Hvalid.
  unfold validateMount, invalid in Hret.
  destruct (includes (container_path m) (lit "..")) eqn:Edots; cbn [orb] in Hret.
  { injection Hret as <-. discriminate. }
  destruct (startsWith (container_path m) (lit "/")) eqn:Eslash; cbn [negb] in Hret.
  2:{ injection Hret as <-. discriminate. }
  destruct (realpathSync h (host_path m)) as [real|].
  2:{ injection Hret as <-. discriminate. }
  destruct (matchesBlocked h real (blocked_patterns allowlist)) as [blocked|] eqn:Eb;
    [|discriminate].
  assert (Hfalsy : match blocked with Some (_ :: _) => False | _ => True end
                   /\ reason r = None).
  { destruct blocked as [[|c pattern]|];
      try (injection Hret as <-; discriminate);
      destruct (underAllowedRoot (allowed_roots allowlist) real);
      cbn [negb] in Hret; injection Hret as <-; try discriminate; now split. }
  destruct Hfalsy as [Hfalsy Hreason].
  repeat split; try assumption.
  exists real. split; [reflexivity|].
  unfold matchesBlocked in Eb.
  destruct (spread _) as [l|]; [|discriminate].
  pose proof (first_blocked_defaults _ _ _ _ default_patterns_nonempty Eb Hfalsy)
    as Hall.
  pose proof default_patterns_lower as Hlow.
  rewrite Forall_forall in *. intros p Hin.
  rewrite <- (Hlow p Hin). now apply Hall.
Qed.

Lemma validateMount_accepts_only_witness :
  startsWith (lit "/mnt/docs") (lit "/") = true
  /\ includes (lit "/mnt/docs") (lit "..") = false
  /\ @None str = None
  /\ exists real,
       realpathSync plain_host (lit "/home/user/docs") = Some real
       /\ Forall (fun p => includes (toLowerCase (normalize plain_host real)) p = false)
                 DEFAULT_BLOCKED_PATTERNS.
Proof.
  apply (validateMount_accepts_only plain_host (mount "/home/user/docs" "/mnt/docs")
           false {| allowed_roots := [lit "/home/user"]; blocked_patterns := None |}
           {| valid := true; reason := None |}); reflexivity.
Defined.

Lemma collect_errors_spec (h : Host) (isMain : bool) (allowlist : MountAllowlist)
    (mounts : list AdditionalMount) (results : list MountResult) :
  Forall2 (fun m r => validateMount h m isMain allowlist = Returns r)
          mounts results ->
  forall errs,
    collect_errors h mounts isMain allowlist errs
    = Returns (errs ++ flat_map (fun r => if valid r then []
                                          else [match reason r with
                                                | Some why => why
                                                | None => []
                                                end])
                                results).
Proof.
  induction 1 as [|m r mounts results Hm _ IH]; intros errs.
  - cbn. now rewrite app_nil_r.
  - cbn [collect_errors flat_map]. rewrite Hm, IH.
    destruct (valid r); cbn [negb app]; [reflexivity|].
    now rewrite <- app_assoc.
Qed.

(** X3.  With an allowlist that loads, [validateAdditionalMounts] is
    [validateMount] mount by mount: its errors are the reasons of the mounts
    that are not valid, in the order of the mounts, and it answers valid:true
    exactly when every mount is valid. *)
Theorem validateAdditionalMounts_collects :
  forall (h : Host) (mounts : list AdditionalMount) (groupName : str)
         (isMain : bool) (path : str) (allowlist : MountAllowlist)
         (results : list MountResult),
    mounts <> [] ->
    path <> [] ->
    loadMountAllowlist h path = Some allowlist ->
    Forall2 (fun m r => validateMount h m isMain allowlist = Returns r)
            mounts results ->
    validateAdditionalMounts h mounts groupName isMain (Some path)
    = Returns {| all_valid := forallb valid results;
                 errors := flat_map (fun r => if valid r then []
                                              else [match reason r with
                                                    | Some why => why
                                                    | None => []
                                                    end])
                                    results |}.
Proof.
  intros h mounts groupName isMain path allowlist results Hmounts Hpath Hload Hall.
  unfold validateAdditionalMounts.
  destruct mounts as [|m mounts]; [contradiction|].
  destruct path as [|c path]; [contradiction|].
  rewrite Hload, (collect_errors_spec h isMain allowlist _ results Hall []).
  cbn [app]. f_equal. f_equal.
  clear. induction results as [|r results IH]; [reflexivity|].
  cbn [flat_map forallb]. destruct (valid r); cbn [app andb]; [exact IH | reflexivity].
Qed.

Lemma validateAdditionalMounts_collects_witness :
  validateAdditionalMounts template_host
    [ mount "/home/u/project" "/mnt/p"; mount "/home/u/.ssh" "/mnt/k";
      mount "/srv/www" "/mnt/w" ]
    (lit "g1") false (Some (lit "/etc/allow.json"))
  = Returns {| all_valid := false;
               errors := [ lit "Path matches blocked pattern '.ssh': /home/u/.ssh";
                           lit "Path not under any allowed root: /srv/www" ] |}.
Proof.
  apply (validateAdditionalMounts_collects template_host
           [ mount "/home/u/project" "/mnt/p"; mount "/home/u/.ssh" "/mnt/k";
             mount "/srv/www" "/mnt/w" ]
           (lit "g1") false (lit "/etc/allow.json")
           {| allowed_roots := [lit "/home"; lit "/opt/data"];
              blocked_patterns := Some (JArr []) |}
           [ {| valid := true; reason := None |};
             {| valid := false;
                reason := Some (lit "Path matches blocked pattern '.ssh': /home/u/.ssh") |};
             {| valid := false;
                reason := Some (lit "Path not under any allowed root: /srv/www") |} ]).
  - discriminate.
  - discriminate.
  - reflexivity.
  - repeat constructor.
Defined.

(** X4.  An allowlist whose [blocked_patterns] is neither an array nor a
    string cannot be spread into the pattern list: for a mount that gets past
    the container-path check and whose host path resolves, [validateMount]
    throws, and so does [validateAdditionalMounts] when that mount comes
    first. *)
Theorem validateMount_throws_on_patterns :
  forall (h : Host) (m : AdditionalMount) (rest : list AdditionalMount)
         (groupName : str) (isMain : bool) (path : str)
         (allowlist : MountAllowlist) (patterns : json) (real : str),
    includes (container_path m) (lit "..") = false ->
    startsWith (container_path m) (lit "/") = true ->
    realpathSync h (host_path m) = Some real ->
    blocked_patterns allowlist = Some patterns ->
    match patterns with JArr _ | JStr _ => False | _ => True end ->
    validateMount h m isMain allowlist = Throws
    /\ (path <> [] ->
        loadMountAllowlist h path = Some allowlist ->
        validateAdditionalMounts h (m :: rest) groupName isMain (Some path)
        = Throws).
Proof.
  intros h m rest groupName isMain path allowlist patterns real Hdots Hslash Hreal
         Hpat Hshape.
  assert (Hthrow : validateMount h m isMain allowlist = Throws).
  { unfold validateMount. rewrite Hdots, Hslash, Hreal. cbn [orb negb].
    unfold matchesBlocked. rewrite Hpat.
    destruct patterns; try contradiction; reflexivity. }
  split; [exact Hthrow|].
  intros Hpath Hload. unfold validateAdditionalMounts.
  destruct path as [|c path]; [contradiction|].
  rewrite Hload. cbn [collect_errors]. now rewrite Hthrow.
Qed.

Definition numbered_host : Host :=
  {| realpathSync := fun p => Some p;
     readFileSync := fun _ => Some (lit "allow");
     normalize := fun p => p;
     resolve := fun p => p;
     JSON_parse := fun _ =>
       Some (JObj [ (lit "allowed_roots", JArr [JStr (lit "/home")]);
                    (lit "blocked_patterns", JNum 1) ]) |}.

Lemma validateMount_throws_on_patterns_witness :
  validateMount numbered_host (mount "/home/u/project" "/mnt/p") false
    {| allowed_roots := [lit "/home"]; blocked_patterns := Some (JNum 1) |}
  = Throws
  /\ validateAdditionalMounts numbered_host [mount "/home/u/project" "/mnt/p"]
       (lit "g1") false (Some (lit "/etc/allow.json"))
     = Throws.
Proof.
  destruct (validateMount_throws_on_patterns numbered_host
              (mount "/home/u/project" "/mnt/p") [] (lit "g1") false
              (lit "/etc/allow.json")
              {| allowed_roots := [lit "/home"]; blocked_patterns := Some (JNum 1) |}
              (JNum 1) (lit "/home/u/project") eq_refl eq_refl eq_refl eq_refl I)
    as [H1 H2].
  split; [exact H1|]. apply H2; [discriminate | reflexivity].
Defined.

(** ** More on the framing parser *)

Lemma next_frame_suffix (a jsonStr rest : str) :
  next_frame a = Some (jsonStr, rest) -> exists consumed, a = consumed ++ rest.
Proof.
  unfold next_frame.
  destruct (indexOf a OUTPUT_START_MARKER 0) as [s|]; [|discriminate].
  destruct (indexOf a OUTPUT_END_MARKER _) as [e|]; [|discriminate].
  intros H; injection H as _ <-. unfold slice_from.
  exists (firstn (e + length OUTPUT_END_MARKER) a).
  symmetry. apply firstn_skipn.
Qed.

Section ParserMore.

Variable JSON_parse : str -> option json.

Lemma parse_loop_suffix (outputs : list json) (a : str) :
  exists consumed, a = consumed ++ snd (parse_loop JSON_parse outputs a).
Proof.
  remember (length a) as n eqn:Hn.
  revert outputs a Hn.
  induction n as [n IH] using lt_wf_ind. intros outputs a ->.
  pose proof (parse_loop_unfold JSON_parse outputs a) as Hu.
  destruct (next_frame a) as [[jsonStr rest]|] eqn:E.
  - destruct (next_frame_suffix _ _ _ E) as [c1 Hc1].
    destruct (IH _ (next_frame_shrinks _ _ _ E)
                 (outputs ++ [decode JSON_parse jsonStr]) rest eq_refl) as [c2 Hc2].
    exists (c1 ++ c2). rewrite Hu. etransitivity; [exact Hc1|].
    rewrite <- app_assoc. f_equal. exact Hc2.
  - exists []. now rewrite Hu.
Qed.

Lemma parse_loop_settled (outputs : list json) (a : str) :
  next_frame (snd (parse_loop JSON_parse outputs a)) = None.
Proof.
  remember (length a) as n eqn:Hn.
  revert outputs a Hn.
  induction n as [n IH] using lt_wf_ind. intros outputs a ->.
  rewrite (parse_loop_unfold JSON_parse outputs a).
  destruct (next_frame a) as [[jsonStr rest]|] eqn:E; [|exact E].
  apply (IH _ (next_frame_shrinks _ _ _ E) _ rest eq_refl).
Qed.

(** One frame at the head of the buffer. *)
Lemma parse_frame_first (doc rest : str) :
  includes doc OUTPUT_END_MARKER = false ->
  parseContainerOutput JSON_parse (frame doc ++ rest)
  = (decode JSON_parse (trim doc) :: fst (parseContainerOutput JSON_parse rest),
     snd (parseContainerOutput JSON_parse rest)).
Proof.
  intros Hdoc. unfold parseContainerOutput at 1.
  rewrite parse_loop_unfold, (next_frame_of_frame doc rest Hdoc), trim_framed.
  now rewrite parse_loop_acc.
Qed.

End ParserMore.

(** X5.  What [parseContainerOutput] leaves as [remaining] is the end of the
    buffer it was given, and holds no complete frame: parsing it again yields
    no output and leaves it as it is.  A buffer without the start marker is
    left whole, with no output. *)
Theorem parseContainerOutput_remaining_settled :
  forall (JSON_parse : str -> option json) (buffer : str),
    let remaining := snd (parseContainerOutput JSON_parse buffer) in
    (exists consumed, buffer = consumed ++ remaining)
    /\ next_frame remaining = None
    /\ parseContainerOutput JSON_parse remaining = ([], remaining)
    /\ (includes buffer OUTPUT_START_MARKER = false ->
        parseContainerOutput JSON_parse buffer = ([], buffer)).
Proof.
  intros JSON_parse buffer remaining. unfold remaining, parseContainerOutput.
  split; [apply parse_loop_suffix|]. split; [apply parse_loop_settled|].
  split; [apply parse_loop_remaining|].
  intros Hnone. rewrite parse_loop_unfold. unfold next_frame.
  unfold includes in Hnone.
  now destruct (indexOf buffer OUTPUT_START_MARKER 0).
Qed.

Lemma parseContainerOutput_remaining_settled_witness :
  parseContainerOutput example_parse (lit "npm WARN deprecated")
  = ([], lit "npm WARN deprecated").
Proof.
  apply (proj2 (proj2 (proj2 (parseContainerOutput_remaining_settled example_parse
                                (lit "npm WARN deprecated"))))).
  reflexivity.
Defined.

(** X6.  A frame whose text is not JSON does not stop the parser: in its
    place the outputs hold the error object with the message "Failed to parse
    output: " followed by the first 200 code units of the trimmed text, and
    the frames after it are parsed as usual. *)
Theorem malformed_frame_reported :
  forall (JSON_parse : str -> option json) (doc rest : str),
    includes doc OUTPUT_END_MARKER = false ->
    JSON_parse (trim doc) = None ->
    parseContainerOutput JSON_parse (frame doc ++ rest)
    = (JObj [ (lit "status", JStr (lit "error"));
              (lit "result", JNull);
              (lit "error",
               JStr (lit "Failed to parse output: " ++ firstn 200 (trim doc))) ]
         :: fst (parseContainerOutput JSON_parse rest),
       snd (parseContainerOutput JSON_parse rest)).
Proof.
  intros JSON_parse doc rest Hdoc Hbad.
  rewrite (parse_frame_first JSON_parse doc rest Hdoc).
  unfold decode. now rewrite Hbad.
Qed.

Lemma malformed_frame_reported_witness :
  parseContainerOutput example_parse
    (frame (lit "{oops") ++ frame example_output_text)
  = ([ JObj [ (lit "status", JStr (lit "error"));
              (lit "result", JNull);
              (lit "error", JStr (lit "Failed to parse output: {oops")) ];
       example_output ],
     []).
Proof.
  rewrite (malformed_frame_reported example_parse (lit "{oops")
             (frame example_output_text) eq_refl eq_refl).
  reflexivity.
Defined.

(** *** Frames as the agent runner writes them *)

Lemma start_marker_no_newline : ~ In "010"%char OUTPUT_START_MARKER.
Proof.
  unfold OUTPUT_START_MARKER. simpl.
  intros H. repeat (destruct H as [H | H]; [discriminate|]). exact H.
Qed.

Lemma index0_after_newlines (k : nat) (rest : str) :
  index0 OUTPUT_START_MARKER (repeat "010"%char k ++ OUTPUT_START_MARKER ++ rest)
  = Some k.
Proof.
  destruct markers_nonempty as [Hs _].
  induction k as [|k IH]; cbn [repeat app].
  - apply index0_prefix, prefixb_app.
  - change ("010"%char :: repeat "010"%char k ++ OUTPUT_START_MARKER ++ rest)
      with ([] ++ "010"%char :: (repeat "010"%char k ++ OUTPUT_START_MARKER ++ rest)).
    rewrite (index0_skip_char "010"%char OUTPUT_START_MARKER [] _
               start_marker_no_newline Hs).
    replace (index0 OUTPUT_START_MARKER []) with (@None nat) by reflexivity.
    now rewrite IH.
Qed.

Lemma next_frame_after_newlines (k : nat) (doc rest : str) :
  includes doc OUTPUT_END_MARKER = false ->
  next_frame (repeat "010"%char k ++ frame doc ++ rest)
  = Some (trim (LF ++ doc ++ LF), rest).
Proof.
  intros Hdoc.
  set (pre := repeat "010"%char k).
  assert (Hpre : length pre = k) by apply repeat_length.
  assert (Hshape : pre ++ frame doc ++ rest
                   = (pre ++ OUTPUT_START_MARKER) ++ (LF ++ doc ++ LF)
                       ++ (OUTPUT_END_MARKER ++ rest))
    by (unfold frame; now rewrite <- !app_assoc).
  unfold next_frame.
  assert (Hs : indexOf (pre ++ frame doc ++ rest) OUTPUT_START_MARKER 0 = Some k).
  { unfold indexOf. rewrite Nat.min_0_l. cbn [skipn Nat.add option_map].
    unfold frame. rewrite <- !app_assoc.
    now rewrite (index0_after_newlines k). }
  rewrite Hs.
  assert (He : indexOf (pre ++ frame doc ++ rest) OUTPUT_END_MARKER
                 (k + length OUTPUT_START_MARKER)
               = Some (length (pre ++ OUTPUT_START_MARKER)
                       + length (LF ++ doc ++ LF))).
  { rewrite Hshape. unfold indexOf.
    replace (k + length OUTPUT_START_MARKER)
      with (length (pre ++ OUTPUT_START_MARKER)) by (rewrite length_app; lia).
    rewrite Nat.min_l by (rewrite (length_app (pre ++ OUTPUT_START_MARKER)); lia).
    rewrite skipn_exact, (index0_end_marker doc rest Hdoc). reflexivity. }
  rewrite He. f_equal. f_equal.
  - rewrite Hshape.
    replace (k + length OUTPUT_START_MARKER)
      with (length (pre ++ OUTPUT_START_MARKER)) by (rewrite length_app; lia).
    now rewrite slice_mid.
  - unfold slice_from. rewrite Hshape.
    rewrite <- Nat.add_assoc, <- !length_app.
    rewrite !app_assoc.
    rewrite <- (app_assoc (pre ++ OUTPUT_START_MARKER)).
    rewrite <- (app_assoc ((pre ++ OUTPUT_START_MARKER) ++ _)).
    rewrite <- (app_assoc (pre ++ OUTPUT_START_MARKER)).
    apply skipn_exact.
Qed.

Lemma writeOutput_frame (JSON_stringify : json -> str) (output : json) :
  AgentRunner.writeOutput JSON_stringify output
  = LF ++ frame (JSON_stringify output) ++ LF.
Proof.
  unfold AgentRunner.writeOutput, frame, LF. rewrite <- !app_assoc. reflexivity.
Qed.

Section AgentFrames.

Variable JSON_parse : str -> option json.
Variable JSON_stringify : json -> str.

Lemma parse_loop_written (outputs : list json) :
  Forall (fun o => includes (JSON_stringify o) OUTPUT_END_MARKER = false) outputs ->
  forall acc,
    parse_loop JSON_parse acc
      (LF ++ concat (map (AgentRunner.writeOutput JSON_stringify) outputs))
    = (acc ++ map (fun o => decode JSON_parse (trim (JSON_stringify o))) outputs,
       LF).
Proof.
  induction 1 as [|o outputs Ho _ IH]; intros acc.
  - cbn [map concat]. rewrite app_nil_r, parse_loop_unfold.
    now rewrite app_nil_r.
  - cbn [map concat]. rewrite writeOutput_frame.
    replace (LF ++ (LF ++ frame (JSON_stringify o) ++ LF)
                ++ concat (map (AgentRunner.writeOutput JSON_stringify) outputs))
      with (repeat "010"%char 2 ++ frame (JSON_stringify o)
              ++ (LF ++ concat (map (AgentRunner.writeOutput JSON_stringify) outputs)))
      by (unfold LF; cbn [repeat app]; now rewrite <- !app_assoc).
    rewrite parse_loop_unfold, (next_frame_after_newlines 2 _ _ Ho).
    rewrite IH, trim_framed, <- app_assoc. reflexivity.
Qed.

Lemma parse_written (outputs : list json) :
  Forall (fun o => includes (JSON_stringify o) OUTPUT_END_MARKER = false) outputs ->
  parseContainerOutput JSON_parse
    (concat (map (AgentRunner.writeOutput JSON_stringify) outputs))
  = (map (fun o => decode JSON_parse (trim (JSON_stringify o))) outputs,
     match outputs with [] => [] | _ :: _ => LF end).
Proof.
  intros H. unfold parseContainerOutput. destruct H as [|o outputs Ho Hall].
  - cbn [map concat]. now rewrite parse_loop_unfold.
  - cbn [map concat]. rewrite writeOutput_frame.
    replace ((LF ++ frame (JSON_stringify o) ++ LF)
               ++ concat (map (AgentRunner.writeOutput JSON_stringify) outputs))
      with (repeat "010"%char 1 ++ frame (JSON_stringify o)
              ++ (LF ++ concat (map (AgentRunner.writeOutput JSON_stringify) outputs)))
      by (unfold LF; cbn [repeat app]; now rewrite <- !app_assoc).
    rewrite parse_loop_unfold, (next_frame_after_newlines 1 _ _ Ho).
    now rewrite (parse_loop_written outputs Hall), trim_framed.
Qed.

End AgentFrames.



(** ** More on the handlers of [runContainerAgent] *)

Lemma last_cons_default {A : Type} (l : list A) (x d d' : A) :
  last (x :: l) d = last (x :: l) d'.
Proof.
  revert x; induction l as [|y l IH]; intros x; [reflexivity|].
  change (last (y :: l) d = last (y :: l) d'). apply IH.
Qed.

Lemma deliver_fold_rest (outputs : list json) (st : Runner) :
  let st' := fold_left deliver outputs st in
  stderrBuffer st' = stderrBuffer st
  /\ kills st' = kills st
  /\ suspended st' = suspended st
  /\ timedOut st' = timedOut st
  /\ lastOutput st' = last outputs (lastOutput st).
Proof.
  revert st; induction outputs as [|o outputs IH]; intros st; [now repeat split|].
  cbn [fold_left]. destruct (IH (deliver st o)) as [H1 [H2 [H3 [H5 H4]]]].
  repeat split; try assumption.
  rewrite H4. cbn [deliver lastOutput].
  destruct outputs as [|x l]; [reflexivity|].
  change (last (o :: x :: l) (lastOutput st)) with (last (x :: l) (lastOutput st)).
  apply last_cons_default.
Qed.

(** What a handler does to the stderr buffer. *)
Lemma handle_stderrBuffer (JSON_parse : str -> option json) (onOutput : bool)
    (cfg : Config) (st : Runner) (e : ContainerRunner.Event) :
  stderrBuffer (handle JSON_parse onOutput cfg st e)
  = match e with
    | StderrData chunk =>
        if maxOutputSize cfg <? length (stderrBuffer st ++ chunk)
        then slice_last (stderrBuffer st ++ chunk) (maxOutputSize cfg / 2)
        else stderrBuffer st ++ chunk
    | _ => stderrBuffer st
    end.
Proof.
  destruct e as [chunk | chunk | | n]; cbn [handle]; try reflexivity.
  - unfold on_stdout_data.
    destruct (maxOutputSize cfg <? length (stdoutBuffer st ++ chunk));
      [reflexivity|].
    destruct (parseContainerOutput JSON_parse (stdoutBuffer st ++ chunk))
      as [outputs remaining].
    unfold output_loop. destruct onOutput.
    + now destruct outputs.
    + match goal with |- context [fold_left deliver outputs ?s] =>
        now rewrite (proj1 (deliver_fold_rest outputs s)) end.
  - unfold on_output_settled.
    now destruct (nth_error (suspended st) n) as [[|o rest]|].
Qed.

(** The text the container has written to stderr. *)
Definition stderr_written (events : list ContainerRunner.Event) : str :=
  concat (flat_map (fun e => match e with StderrData chunk => [chunk] | _ => [] end)
                   events).

Lemma stderr_written_app (a b : list ContainerRunner.Event) :
  stderr_written (a ++ b) = stderr_written a ++ stderr_written b.
Proof. unfold stderr_written. now rewrite flat_map_app, concat_app. Qed.

Lemma slice_last_suffix (pre s : str) (n : nat) :
  1 <= n -> n <= length s -> slice_last (pre ++ s) n = slice_last s n.
Proof.
  intros H1 Hn. unfold slice_last.
  destruct (Nat.eqb_spec n 0) as [->|_]; [lia|].
  rewrite skipn_app, length_app.
  replace (length pre + length s - n - length pre) with (length s - n) by lia.
  rewrite skipn_all2 by lia. reflexivity.
Qed.

Section StderrFacts.

Variable JSON_parse : str -> option json.
Variable onOutput : bool.
Variable cfg : Config.
Hypothesis roomy : 2 <= maxOutputSize cfg.

(** The buffer is the end of what was written, never longer than the limit,
    and once something was dropped it holds at least half the limit. *)
Definition stderr_kept (events : list ContainerRunner.Event) (st : Runner) : Prop :=
  length (stderrBuffer st) <= maxOutputSize cfg
  /\ exists dropped,
       stderr_written events = dropped ++ stderrBuffer st
       /\ (dropped = [] \/ maxOutputSize cfg / 2 <= length (stderrBuffer st)).

Lemma stderr_kept_step (events : list ContainerRunner.Event) (st : Runner)
    (e : ContainerRunner.Event) :
  stderr_kept events st ->
  stderr_kept (events ++ [e]) (handle JSON_parse onOutput cfg st e).
Proof.
  intros [Hlen [dropped [Hw Hhalf]]]. unfold stderr_kept.
  rewrite handle_stderrBuffer, stderr_written_app.
  assert (Hh : 1 <= maxOutputSize cfg / 2 <= maxOutputSize cfg).
  { split.
    - apply Nat.div_le_lower_bound; lia.
    - apply Nat.Div0.div_le_upper_bound. lia. }
  destruct e as [chunk | chunk | | n];
    try (unfold stderr_written at 2; cbn [flat_map concat]; rewrite app_nil_r;
         split; [exact Hlen | now exists dropped]).
  unfold stderr_written at 2. cbn [flat_map concat app]. rewrite app_nil_r.
  destruct (Nat.ltb_spec (maxOutputSize cfg) (length (stderrBuffer st ++ chunk)))
    as [Hover | Hfit].
  - unfold slice_last.
    destruct (Nat.eqb_spec (maxOutputSize cfg / 2) 0) as [E | _]; [lia|].
    set (buffer := stderrBuffer st ++ chunk) in *.
    set (k := length buffer - maxOutputSize cfg / 2).
    assert (Hk : length (skipn k buffer) = maxOutputSize cfg / 2)
      by (rewrite length_skipn; unfold k; lia).
    split; [lia|].
    exists (dropped ++ firstn k buffer). split; [|right; lia].
    rewrite Hw, <- !app_assoc. f_equal. fold buffer.
    symmetry. apply firstn_skipn.
  - split; [exact Hfit|].
    exists dropped. split; [now rewrite Hw, app_assoc|].
    destruct Hhalf as [-> | Hhalf]; [now left | right].
    rewrite length_app. lia.
Qed.

Lemma stderr_kept_run (events : list ContainerRunner.Event) :
  stderr_kept events (ContainerRunner.run JSON_parse onOutput cfg events).
Proof.
  unfold ContainerRunner.run.
  induction events as [|e events IH] using rev_ind.
  - split; [cbn; lia|]. exists []. split; [reflexivity | now left].
  - rewrite fold_left_app. cbn [fold_left]. now apply stderr_kept_step.
Qed.

End StderrFacts.

(** X8.  With a limit [maxOutputSize] of at least 2, after any sequence of
    events the stderr buffer is never longer than the limit, it is the end of
    all the text the container wrote to stderr, and its last [n] code units
    are the last [n] code units of that text for every [n] from 1 to half the
    limit: with a limit of at least 1000, the 500 code units of stderr quoted
    when the container fails are the last 500 it wrote. *)
Theorem stderr_tail_kept :
  forall (JSON_parse : str -> option json) (onOutput : bool) (cfg : Config)
         (events : list ContainerRunner.Event),
    2 <= maxOutputSize cfg ->
    let st := ContainerRunner.run JSON_parse onOutput cfg events in
    length (stderrBuffer st) <= maxOutputSize cfg
    /\ (exists dropped, stderr_written events = dropped ++ stderrBuffer st)
    /\ (forall n, 1 <= n <= maxOutputSize cfg / 2 ->
                  slice_last (stderrBuffer st) n
                  = slice_last (stderr_written events) n).
Proof.
  intros JSON_parse onOutput cfg events Hroomy st.
  destruct (stderr_kept_run JSON_parse onOutput cfg Hroomy events)
    as [Hlen [dropped [Hw Hhalf]]].
  fold st in Hlen, Hw, Hhalf.
  split; [exact Hlen|]. split; [now exists dropped|].
  intros n [H1 Hn]. rewrite Hw.
  destruct Hhalf as [-> | Hhalf]; [reflexivity|].
  symmetry. apply slice_last_suffix; lia.
Qed.

Lemma stderr_tail_kept_witness :
  let cfg := {| containerTimeout := 1800000; maxOutputSize := 8 |} in
  let events := [StderrData (lit "warning: "); StdoutData (lit "x");
                 StderrData (lit "fatal")] in
  let st := ContainerRunner.run example_parse false cfg events in
  length (stderrBuffer st) <= 8
  /\ (exists dropped, lit "warning: fatal" = dropped ++ stderrBuffer st)
  /\ (forall n, 1 <= n <= 4 ->
                slice_last (stderrBuffer st) n = slice_last (lit "warning: fatal") n).
Proof.
  intros cfg events st.
  apply (stderr_tail_kept example_parse false cfg events). cbn. lia.
Defined.

(** *** The stdout handler *)

Lemma stdout_within_limit (JSON_parse : str -> option json) (cfg : Config)
    (chunks : list str) (st : Runner) :
  length (stdoutBuffer st) + length (concat chunks) <= maxOutputSize cfg ->
  let st' := fold_left (handle JSON_parse false cfg) (map StdoutData chunks) st in
  kills st' = kills st /\ timedOut st' = timedOut st.
Proof.
  revert st; induction chunks as [|chunk more IH]; intros st Hsize; [now split|].
  cbn [map fold_left handle concat] in *.
  rewrite length_app in Hsize.
  unfold on_stdout_data, output_loop.
  assert (Hfit : (maxOutputSize cfg <? length (stdoutBuffer st ++ chunk)) = false)
    by (apply Nat.ltb_ge; rewrite length_app; lia).
  rewrite Hfit.
  pose proof (parse_loop_remaining_length JSON_parse [] (stdoutBuffer st ++ chunk))
    as Hrem.
  fold (parseContainerOutput JSON_parse (stdoutBuffer st ++ chunk)) in Hrem.
  destruct (parseContainerOutput JSON_parse (stdoutBuffer st ++ chunk))
    as [outputs remaining].
  cbn [snd] in Hrem. rewrite length_app in Hrem.
  match goal with |- context [fold_left deliver outputs ?s] =>
    destruct (deliver_fold_rest outputs s) as [_ [Hkills [_ [Htimed _]]]];
    destruct (deliver_fold_fields outputs s) as [_ Hbuf];
    set (st1 := fold_left deliver outputs s) in *
  end.
  cbn [kills timedOut stdoutBuffer] in Hkills, Htimed, Hbuf.
  destruct (IH st1) as [H1 H2]; [rewrite Hbuf; lia|].
  now rewrite H1, H2, Hkills, Htimed.
Qed.



Lemma no_callback_no_suspended (JSON_parse : str -> option json) (cfg : Config)
    (st : Runner) (e : ContainerRunner.Event) :
  suspended st = [] -> suspended (handle JSON_parse false cfg st e) = [].
Proof.
  intros Hs. destruct e as [chunk | chunk | | n]; cbn [handle]; try exact Hs.
  - unfold on_stdout_data.
    destruct (maxOutputSize cfg <? length (stdoutBuffer st ++ chunk)); [exact Hs|].
    destruct (parseContainerOutput JSON_parse (stdoutBuffer st ++ chunk))
      as [outputs remaining].
    unfold output_loop.
    match goal with |- context [fold_left deliver outputs ?s] =>
      now rewrite (proj1 (proj2 (proj2 (deliver_fold_rest outputs s)))) end.
  - unfold on_output_settled. rewrite Hs. now destruct n.
Qed.

Lemma run_no_suspended (JSON_parse : str -> option json) (cfg : Config)
    (events : list ContainerRunner.Event) :
  suspended (ContainerRunner.run JSON_parse false cfg events) = [].
Proof.
  unfold ContainerRunner.run.
  induction events as [|e events IH] using rev_ind; [reflexivity|].
  rewrite fold_left_app. cbn [fold_left]. now apply no_callback_no_suspended.
Qed.

(** The events on which the container is killed once stdout has overflowed. *)
Definition kills_after_overflow (e : ContainerRunner.Event) : bool :=
  match e with
  | StdoutData _ | IdleTimeout => true
  | _ => false
  end.

Lemma overflow_step (JSON_parse : str -> option json) (cfg : Config)
    (st : Runner) (e : ContainerRunner.Event) :
  maxOutputSize cfg < length (stdoutBuffer st) ->
  suspended st = [] ->
  let st' := handle JSON_parse false cfg st e in
  onOutput_calls st' = onOutput_calls st
  /\ lastOutput st' = lastOutput st
  /\ maxOutputSize cfg < length (stdoutBuffer st')
  /\ kills st' = kills st + (if kills_after_overflow e then 1 else 0).
Proof.
  intros Hover Hs. destruct e as [chunk | chunk | | n];
    cbn [handle kills_after_overflow].
  - unfold on_stdout_data.
    assert (Hstill : maxOutputSize cfg < length (stdoutBuffer st ++ chunk))
      by (rewrite length_app; lia).
    rewrite (proj2 (Nat.ltb_lt _ _) Hstill).
    cbn [onOutput_calls lastOutput stdoutBuffer kills]. repeat split; try assumption.
    lia.
  - cbn. repeat split; try assumption. lia.
  - cbn. repeat split; try assumption. lia.
  - unfold on_output_settled. rewrite Hs.
    destruct n; cbn [nth_error]; repeat split; try assumption; lia.
Qed.

(** X10.  Without an [onOutput] callback: once the stdout buffer has grown
    past [maxOutputSize], it is never parsed again.  Whatever the container
    writes from then on, no further output is taken up, the last output stays
    what it was, the buffer stays over the limit, and every further stdout
    chunk, like every firing of the idle timer, calls [killContainer] once
    more. *)
Theorem stdout_overflow_is_final :
  forall (JSON_parse : str -> option json) (cfg : Config)
         (before after : list ContainerRunner.Event),
    let st := ContainerRunner.run JSON_parse false cfg before in
    let st' := ContainerRunner.run JSON_parse false cfg (before ++ after) in
    maxOutputSize cfg < length (stdoutBuffer st) ->
    onOutput_calls st' = onOutput_calls st
    /\ lastOutput st' = lastOutput st
    /\ maxOutputSize cfg < length (stdoutBuffer st')
    /\ kills st' = kills st + length (filter kills_after_overflow after).
Proof.
  intros JSON_parse cfg before after st st' Hover.
  assert (Hs : suspended st = []) by apply run_no_suspended.
  unfold st', ContainerRunner.run. rewrite fold_left_app.
  fold (ContainerRunner.run JSON_parse false cfg before). fold st.
  clearbody st. clear st'. revert st Hover Hs.
  induction after as [|e after IH]; intros st Hover Hs.
  - cbn. repeat split; try assumption. lia.
  - cbn [fold_left filter].
    destruct (overflow_step JSON_parse cfg st e Hover Hs) as [H1 [H2 [H3 H4]]].
    destruct (IH (handle JSON_parse false cfg st e) H3
                 (no_callback_no_suspended JSON_parse cfg st e Hs))
      as [G1 [G2 [G3 G4]]].
    rewrite G1, G2, G4, H1, H2, H4. repeat split; try assumption.
    destruct (kills_after_overflow e); cbn [length]; lia.
Qed.

Lemma stdout_overflow_is_final_witness :
  let cfg := {| containerTimeout := 1800000; maxOutputSize := 8 |} in
  let before := [StdoutData (lit "npm WARN deprecated")] in
  let after := [StdoutData (frame example_output_text); StderrData (lit "x")] in
  let st := ContainerRunner.run example_parse false cfg before in
  let st' := ContainerRunner.run example_parse false cfg (before ++ after) in
  onOutput_calls st' = []
  /\ lastOutput st' = JNull
  /\ 8 < length (stdoutBuffer st')
  /\ kills st' = 2.
Proof.
  intros cfg before after st st'.
  apply (stdout_overflow_is_final example_parse cfg before after).
  vm_compute. lia.
Defined.

(** ** Writing into a mailbox and draining it *)

Lemma lookup_app (n : str) (a b : Dir) :
  lookup n (a ++ b)
  = match lookup n a with Some f => Some f | None => lookup n b end.
Proof.
  induction a as [|[m f] a IH]; simpl; [reflexivity|].
  destruct (str_eqb n m); [reflexivity | exact IH].
Qed.

Lemma lookup_unlink (n m : str) (d : Dir) :
  lookup m (unlink n d) = if str_eqb m n then None else lookup m d.
Proof.
  induction d as [|[k f] d IH]; simpl.
  - now destruct (str_eqb m n).
  - destruct (str_eqb n k) eqn:Enk.
    + apply str_eqb_eq in Enk as <-. rewrite IH.
      now destruct (str_eqb m n).
    + simpl. destruct (str_eqb m k) eqn:Emk; [|exact IH].
      apply str_eqb_eq in Emk as ->.
      destruct (str_eqb k n) eqn:Ekn; [|reflexivity].
      apply str_eqb_eq in Ekn as ->. now rewrite str_eqb_refl in Enk.
Qed.

Lemma lookup_filter_names (p : str -> bool) (n : str) (d : Dir) :
  lookup n (filter (fun e => p (fst e)) d) = if p n then lookup n d else None.
Proof.
  induction d as [|[m f] d IH]; simpl; [now destruct (p n)|].
  destruct (p m) eqn:Em; simpl.
  - destruct (str_eqb n m) eqn:E; [|exact IH].
    apply str_eqb_eq in E as ->. now rewrite Em.
  - destruct (str_eqb n m) eqn:E; [|exact IH].
    apply str_eqb_eq in E as ->. now rewrite Em in *.
Qed.

Lemma lookup_names (n : str) (d : Dir) :
  In n (map fst d) <-> exists f, lookup n d = Some f.
Proof.
  induction d as [|[m f] d IH]; simpl.
  - split; [contradiction | intros [f H]; discriminate].
  - destruct (str_eqb n m) eqn:E.
    + apply str_eqb_eq in E as ->. split; [now exists f | now left].
    + apply str_eqb_neq in E. rewrite <- IH. split; [|now right].
      intros [H | H]; [congruence | exact H].
Qed.

Lemma filter_names_nodup (p : str * File -> bool) (d : Dir) :
  NoDup (map fst d) -> NoDup (map fst (filter p d)).
Proof.
  induction d as [|[m f] d IH]; simpl; intros H; [constructor|].
  inversion H as [|? ? Hm Hd]; subst.
  destruct (p (m, f)); simpl; [|now apply IH].
  constructor; [|now apply IH].
  intros Hin. apply Hm. apply in_map_iff in Hin as [e [He Hin]].
  apply filter_In in Hin as [Hin _]. apply in_map_iff. now exists e.
Qed.

(** Putting a file under a name, whatever was there before. *)
Lemma put_lookup (n m : str) (f : File) (d : Dir) :
  lookup m (unlink n d ++ [(n, f)])
  = if str_eqb m n then Some f else lookup m d.
Proof.
  rewrite lookup_app, lookup_unlink. simpl.
  destruct (str_eqb m n); [reflexivity|]. now destruct (lookup m d).
Qed.

Lemma put_nodup (n : str) (f : File) (d : Dir) :
  NoDup (map fst d) -> NoDup (map fst (unlink n d ++ [(n, f)])).
Proof.
  intros H. rewrite map_app. cbn [map fst].
  apply NoDup_app_remove_l with (l := []). cbn [app].
  apply Permutation_NoDup with (l := n :: map fst (unlink n d)).
  - apply Permutation_cons_append.
  - constructor.
    + intros Hin. apply lookup_names in Hin as [g Hg].
      rewrite lookup_unlink, str_eqb_refl in Hg. discriminate.
    + rewrite unlink_filter. now apply filter_names_nodup.
Qed.

Lemma writeFileSync_lookup (n text : str) (r : bool) (d : Dir) (m : str) :
  lookup m (writeFileSync n text r d)
  = if str_eqb m n then Some {| content := Some text; removable := r |}
    else lookup m d.
Proof. apply put_lookup. Qed.

Lemma renameSync_lookup (from to : str) (d d' : Dir) (f : File) :
  lookup from d = Some f ->
  renameSync from to d = Returns d' ->
  forall m, lookup m d'
            = if str_eqb m to then Some f
              else if str_eqb m from then None else lookup m d.
Proof.
  unfold renameSync. intros Hf. rewrite Hf. intros H; injection H as <-. intros m.
  rewrite lookup_app, lookup_unlink, lookup_unlink. simpl.
  destruct (str_eqb m to); destruct (str_eqb m from); try reflexivity.
  now destruct (lookup m d).
Qed.

Lemma renameSync_nodup (from to : str) (d d' : Dir) :
  NoDup (map fst d) -> renameSync from to d = Returns d' -> NoDup (map fst d').
Proof.
  unfold renameSync. destruct (lookup from d) as [f|]; [|discriminate].
  intros H E; injection E as <-.
  rewrite map_app. cbn [map fst].
  apply NoDup_app_remove_l with (l := []). cbn [app].
  apply Permutation_NoDup with (l := to :: map fst (unlink from (unlink to d))).
  - apply Permutation_cons_append.
  - constructor.
    + intros Hin. apply lookup_names in Hin as [g Hg].
      rewrite !lookup_unlink, str_eqb_refl in Hg.
      destruct (str_eqb to from); discriminate.
    + rewrite !unlink_filter. now do 2 apply filter_names_nodup.
Qed.

(** What [writeIpcFile] leaves: the file under its final name, nothing under
    the temporary one, and everything else as it was. *)
Lemma writeIpcFile_spec (JSON_stringify : json -> str) (dir : option Dir)
    (data : json) (prefix : str) (now : nat) (uuid : str) (r : bool) :
  let d := match dir with Some d => d | None => [] end in
  let filename := ipc_filename prefix now uuid in
  exists d2,
    writeIpcFile JSON_stringify dir data prefix now uuid r = Returns (filename, d2)
    /\ (forall m,
          lookup m d2
          = if str_eqb m filename
            then Some {| content := Some (JSON_stringify data); removable := r |}
            else if str_eqb m (tmp_name filename) then None else lookup m d)
    /\ (NoDup (map fst d) -> NoDup (map fst d2)).
Proof.
  intros d filename. unfold writeIpcFile. fold d. fold filename.
  set (tmp := tmp_name filename).
  set (d1 := writeFileSync tmp (JSON_stringify data) r d).
  assert (Htmp : lookup tmp d1
                 = Some {| content := Some (JSON_stringify data); removable := r |}).
  { unfold d1. now rewrite writeFileSync_lookup, str_eqb_refl. }
  destruct (renameSync tmp filename d1) as [d2|] eqn:E.
  2:{ unfold renameSync in E. now rewrite Htmp in E. }
  exists d2. split; [reflexivity|]. split.
  - intros m. rewrite (renameSync_lookup tmp filename d1 d2 _ Htmp E m).
    destruct (str_eqb m filename); [reflexivity|].
    destruct (str_eqb m tmp) eqn:Em; [reflexivity|].
    unfold d1. now rewrite writeFileSync_lookup, Em.
  - intros Hnd. apply (renameSync_nodup tmp filename d1 d2); [|exact E].
    unfold d1, writeFileSync. now apply put_nodup.
Qed.

(** *** File names *)

Definition is_digit (c : ascii) : Prop := 48 <= nat_of_ascii c <= 57.

Lemma digit_char (k : nat) : k < 10 -> nat_of_ascii (ascii_of_nat (48 + k)) = 48 + k.
Proof. intros H. apply nat_ascii_embedding. lia. Qed.

Lemma digits_fuel_digits (fuel n : nat) (acc : str) :
  0 < fuel -> Forall is_digit acc ->
  Forall is_digit (digits_fuel fuel n acc) /\ digits_fuel fuel n acc <> [].
Proof.
  revert n acc; induction fuel as [|fuel IH]; intros n acc Hf Hacc; [lia|].
  assert (Hd : is_digit (ascii_of_nat (48 + n mod 10))).
  { assert (Hm : n mod 10 < 10) by (apply Nat.mod_upper_bound; lia).
    unfold is_digit. rewrite digit_char; lia. }
  cbn [digits_fuel]. destruct (n / 10 =? 0) eqn:E.
  - split; [now constructor | discriminate].
  - destruct fuel as [|fuel'].
    + cbn [digits_fuel]. split; [now constructor | discriminate].
    + apply IH; [lia | now constructor].
Qed.

Lemma nat_to_str_digits (n : nat) :
  Forall is_digit (nat_to_str n) /\ nat_to_str n <> [].
Proof. apply digits_fuel_digits; [lia | constructor]. Qed.

Lemma endsWith_app (s p : str) : endsWith (s ++ p) p = true.
Proof. unfold endsWith. rewrite rev_app_distr. apply prefixb_app. Qed.

Lemma ipc_filename_json (prefix : str) (now : nat) (uuid : str) :
  endsWith (ipc_filename prefix now uuid) (lit ".json") = true.
Proof.
  unfold ipc_filename. rewrite !app_assoc. apply endsWith_app.
Qed.

Lemma ipc_filename_no_dot (prefix : str) (now : nat) (uuid : str) :
  startsWith prefix (lit ".") = false ->
  startsWith (ipc_filename prefix now uuid) (lit ".") = false.
Proof.
  unfold ipc_filename, startsWith. destruct prefix as [|c p]; [intros _|].
  - destruct (nat_to_str_digits now) as [Hd Hne].
    destruct (nat_to_str now) as [|c s]; [contradiction|].
    inversion Hd as [|? ? Hc _]; subst. unfold is_digit in Hc.
    cbn [app]. cbn [lit list_ascii_of_string prefixb].
    destruct (Ascii.eqb_spec "."%char c) as [<-|_]; [|reflexivity].
    cbn in Hc. lia.
  - cbn [app]. cbn [lit list_ascii_of_string prefixb].
    now destruct (Ascii.eqb "."%char c).
Qed.

Lemma tmp_name_dot (filename : str) :
  startsWith (tmp_name filename) (lit ".") = true.
Proof. reflexivity. Qed.

Section DrainLookup.

Variable JSON_parse : str -> option json.
Variable filter_ : option (str -> bool).

Lemma drainIpcDir_eq (d : Dir) :
  NoDup (map fst d) ->
  drainIpcDir JSON_parse (Some d) filter_
  = (map (fun n => (read JSON_parse d n, n))
         (filter (kept JSON_parse filter_ d) (sort (map fst d))),
     Some (filter (fun e => negb (deleted JSON_parse filter_ d (fst e))) d)).
Proof.
  intros Hnd.
  assert (Hsorted_nd : NoDup (sort (map fst d)))
    by (apply (Permutation_NoDup (l := map fst d));
        [symmetry; apply sort_perm | exact Hnd]).
  unfold drainIpcDir.
  rewrite (drain_loop_spec JSON_parse filter_ _ Hsorted_nd d []).
  cbn [app]. f_equal. f_equal.
  rewrite unlink_all_filter. apply filter_ext_in.
  intros [n f] Hin. cbn [fst]. f_equal.
  destruct (deleted JSON_parse filter_ d n) eqn:E.
  - apply existsb_exists. exists n. split; [|apply str_eqb_refl].
    apply filter_In. split; [|exact E].
    apply (Permutation_in _ (Permutation_sym (sort_perm (map fst d)))).
    apply in_map_iff. now exists (n, f).
  - destruct (existsb _ _) eqn:Ex; [|reflexivity].
    apply existsb_exists in Ex as [m [Hm Heq]].
    apply str_eqb_eq in Heq as ->. apply filter_In in Hm as [_ Hm].
    cbn [fst] in Hm. congruence.
Qed.

(** An entry is returned exactly when its name is accepted and its file reads
    as a value other than [null]. *)
Lemma drain_results (d : Dir) (v : json) (n : str) :
  NoDup (map fst d) ->
  In (v, n) (fst (drainIpcDir JSON_parse (Some d) filter_))
  <-> kept JSON_parse filter_ d n = true /\ v = read JSON_parse d n.
Proof.
  intros Hnd. rewrite (drainIpcDir_eq d Hnd). cbn [fst].
  rewrite in_map_iff. split.
  - intros [m [Heq Hm]]. injection Heq as <- <-.
    apply filter_In in Hm as [_ Hm]. now split.
  - intros [Hk ->]. exists n. split; [reflexivity|].
    apply filter_In. split; [|exact Hk].
    apply (Permutation_in _ (Permutation_sym (sort_perm (map fst d)))).
    apply lookup_names. unfold kept, read, readIpcFile in Hk.
    destruct (lookup n d) as [f|]; [now exists f|].
    cbn in Hk. now rewrite andb_false_r in Hk.
Qed.

(** What a drain leaves under a name. *)
Lemma drain_leaves (d : Dir) (n : str) :
  NoDup (map fst d) ->
  exists d', snd (drainIpcDir JSON_parse (Some d) filter_) = Some d'
             /\ NoDup (map fst d')
             /\ forall n, lookup n d'
                          = if deleted JSON_parse filter_ d n then None
                            else lookup n d.
Proof.
  intros Hnd. rewrite (drainIpcDir_eq d Hnd). cbn [snd].
  eexists. split; [reflexivity|]. split.
  - now apply filter_names_nodup.
  - intros m.
    rewrite (lookup_filter_names
               (fun k => negb (deleted JSON_parse filter_ d k)) m d).
    now destruct (deleted JSON_parse filter_ d m).
Qed.

End DrainLookup.

Lemma written_then_drained (JSON_parse : str -> option json)
    (JSON_stringify : json -> str) (dir : option Dir) (data : json)
    (prefix : str) (now : nat) (uuid : str) (unlinkable : bool)
    (filter_ : option (str -> bool)) :
  let d := match dir with Some d => d | None => [] end in
  let filename := ipc_filename prefix now uuid in
  NoDup (map fst d) ->
  JSON_parse (JSON_stringify data) = Some data ->
  data <> JNull ->
  startsWith prefix (lit ".") = false ->
  rejected filter_ filename = false ->
  exists d2 d3,
      writeIpcFile JSON_stringify dir data prefix now uuid unlinkable
      = Returns (filename, d2)
      /\ lookup (tmp_name filename) d2 = None
      /\ In (data, filename) (fst (drainIpcDir JSON_parse (Some d2) filter_))
      /\ snd (drainIpcDir JSON_parse (Some d2) filter_) = Some d3
      /\ lookup filename d3
         = if unlinkable then None
           else Some {| content := Some (JSON_stringify data); removable := false |}.
Proof.
  intros d filename Hnd Hround Hnull Hprefix Hfilter.
  destruct (writeIpcFile_spec JSON_stringify dir data prefix now uuid unlinkable)
    as [d2 [Hret [Hlook Hnd2]]].
  fold d in Hlook, Hnd2. fold filename in Hret, Hlook.
  specialize (Hnd2 Hnd).
  destruct (drain_leaves JSON_parse filter_ d2 filename Hnd2) as [d3 [Hd3 [_ Hafter]]].
  exists d2, d3.
  assert (Hfile : lookup filename d2
                  = Some {| content := Some (JSON_stringify data);
                            removable := unlinkable |}).
  { now rewrite Hlook, str_eqb_refl. }
  assert (Hread : read JSON_parse d2 filename = data)
    by (unfold read, readIpcFile; rewrite Hfile; cbn [content]; now rewrite Hround).
  assert (Hkept : kept JSON_parse filter_ d2 filename = true).
  { unfold kept, accepted. rewrite Hread, Hfilter.
    unfold filename at 1 2.
    rewrite ipc_filename_json, (ipc_filename_no_dot _ _ _ Hprefix).
    now destruct data. }
  split; [exact Hret|]. split.
  - rewrite Hlook.
    destruct (str_eqb (tmp_name filename) filename) eqn:E.
    + apply str_eqb_eq in E. apply (f_equal (@length ascii)) in E.
      unfold tmp_name in E. rewrite !length_app in E. cbn in E. lia.
    + now rewrite str_eqb_refl.
  - split; [apply (drain_results JSON_parse filter_ d2 data filename Hnd2); now split|].
    split; [exact Hd3|].
    rewrite Hafter. unfold deleted. rewrite Hkept, Hfile. cbn [removable andb].
    now destruct unlinkable.
Qed.

(** X11.  A value written with [writeIpcFile] is what [drainIpcDir] hands
    back: when [JSON.parse] inverts [JSON.stringify] on the data, the data is
    not [null], the prefix does not start with a dot and the filter lets the
    name through, the call returns the file name, leaves no temporary file,
    the next drain returns the data under that name, and afterwards the file is
    gone, unless it cannot be unlinked, in which case it stays. *)
Theorem writeIpcFile_drainIpcDir_round_trip :
  forall (JSON_parse : str -> option json) (JSON_stringify : json -> str)
         (dir : option Dir) (data : json) (prefix : str) (now : nat)
         (uuid : str) (unlinkable : bool) (filter_ : option (str -> bool)),
    let d := match dir with Some d => d | None => [] end in
    let filename := ipc_filename prefix now uuid in
    NoDup (map fst d) ->
    JSON_parse (JSON_stringify data) = Some data ->
    data <> JNull ->
    startsWith prefix (lit ".") = false ->
    rejected filter_ filename = false ->
    exists d2 d3,
      writeIpcFile JSON_stringify dir data prefix now uuid unlinkable
      = Returns (filename, d2)
      /\ lookup (tmp_name filename) d2 = None
      /\ In (data, filename) (fst (drainIpcDir JSON_parse (Some d2) filter_))
      /\ snd (drainIpcDir JSON_parse (Some d2) filter_) = Some d3
      /\ lookup filename d3
         = if unlinkable then None
           else Some {| content := Some (JSON_stringify data); removable := false |}.
Proof.
  intros JSON_parse JSON_stringify dir data prefix now uuid unlinkable filter_.
  apply written_then_drained.
Qed.

Lemma writeIpcFile_drainIpcDir_round_trip_witness :
  exists d2 d3,
    writeIpcFile example_stringify None example_output [] 42 (lit "0a1b2c3d-9999")
      true
    = Returns (lit "42-0a1b2c3d.json", d2)
    /\ lookup (tmp_name (lit "42-0a1b2c3d.json")) d2 = None
    /\ In (example_output, lit "42-0a1b2c3d.json")
          (fst (drainIpcDir example_parse (Some d2) None))
    /\ snd (drainIpcDir example_parse (Some d2) None) = Some d3
    /\ lookup (lit "42-0a1b2c3d.json") d3 = None.
Proof.
  apply (writeIpcFile_drainIpcDir_round_trip example_parse example_stringify None
           example_output [] 42 (lit "0a1b2c3d-9999") true None).
  - constructor.
  - reflexivity.
  - discriminate.
  - reflexivity.
  - reflexivity.
Defined.

(** X12.  Between the two steps of [writeIpcFile] the directory holds the
    data under the temporary name only.  A drain that runs at that moment
    returns what it would have returned before the write began, never an entry
    under the temporary name, and it leaves the temporary file in place. *)
Theorem writeIpcFile_tmp_invisible :
  forall (JSON_parse : str -> option json) (JSON_stringify : json -> str)
         (d : Dir) (data : json) (prefix : str) (now : nat) (uuid : str)
         (unlinkable : bool) (filter_ : option (str -> bool)),
    let filename := ipc_filename prefix now uuid in
    let d1 := writeFileSync (tmp_name filename) (JSON_stringify data)
                unlinkable d in
    NoDup (map fst d) ->
    writeIpcFile JSON_stringify (Some d) data prefix now uuid unlinkable
    = match renameSync (tmp_name filename) filename d1 with
      | Returns d2 => Returns (filename, d2)
      | Throws => Throws
      end
    /\ (forall v n,
          In (v, n) (fst (drainIpcDir JSON_parse (Some d1) filter_))
          <-> In (v, n) (fst (drainIpcDir JSON_parse (Some d) filter_)))
    /\ (forall v, ~ In (v, tmp_name filename)
                       (fst (drainIpcDir JSON_parse (Some d1) filter_)))
    /\ exists d', snd (drainIpcDir JSON_parse (Some d1) filter_) = Some d'
                  /\ lookup (tmp_name filename) d'
                     = Some {| content := Some (JSON_stringify data);
                               removable := unlinkable |}.
Proof.
  intros JSON_parse JSON_stringify d data prefix now uuid unlinkable filter_
         filename d1 Hnd.
  set (tmp := tmp_name filename) in *.
  assert (Hnd1 : NoDup (map fst d1)) by (unfold d1, writeFileSync; now apply put_nodup).
  assert (Hlook : forall m, lookup m d1
                            = if str_eqb m tmp
                              then Some {| content := Some (JSON_stringify data);
                                           removable := unlinkable |}
                              else lookup m d)
    by (intros m; unfold d1; apply writeFileSync_lookup).
  assert (Hacc : forall dd, kept JSON_parse filter_ dd tmp = false).
  { intros dd. unfold kept, accepted, tmp. now rewrite tmp_name_dot, andb_false_r. }
  assert (Hsame : forall n, n <> tmp ->
                            kept JSON_parse filter_ d1 n = kept JSON_parse filter_ d n
                            /\ read JSON_parse d1 n = read JSON_parse d n).
  { intros n Hn. apply str_eqb_neq in Hn. unfold kept, read.
    now rewrite Hlook, Hn. }
  split; [reflexivity|]. split; [|split].
  - intros v n.
    rewrite (drain_results JSON_parse filter_ d1 v n Hnd1).
    rewrite (drain_results JSON_parse filter_ d v n Hnd).
    destruct (str_eqb n tmp) eqn:E.
    + apply str_eqb_eq in E as ->. rewrite !Hacc. split; intros [H _]; discriminate.
    + apply str_eqb_neq in E. destruct (Hsame n E) as [-> ->]. reflexivity.
  - intros v Hin.
    apply (drain_results JSON_parse filter_ d1 v tmp Hnd1) in Hin as [Hk _].
    rewrite Hacc in Hk. discriminate.
  - destruct (drain_leaves JSON_parse filter_ d1 tmp Hnd1) as [d' [Hd' [_ Hafter]]].
    exists d'. split; [exact Hd'|].
    rewrite Hafter. unfold deleted. rewrite Hacc. cbn [andb].
    now rewrite Hlook, str_eqb_refl.
Qed.

Lemma writeIpcFile_tmp_invisible_witness :
  let filename := lit "42-0a1b2c3d.json" in
  let d1 := writeFileSync (tmp_name filename) example_output_text true example_dir in
  (forall v, ~ In (v, tmp_name filename)
                  (fst (drainIpcDir example_parse (Some d1) None)))
  /\ exists d', snd (drainIpcDir example_parse (Some d1) None) = Some d'
                /\ lookup (tmp_name filename) d'
                   = Some {| content := Some example_output_text; removable := true |}.
Proof.
  assert (Hnd : NoDup (map fst example_dir)).
  { repeat constructor; simpl; intros H;
      repeat (destruct H as [H | H]; [discriminate|]); exact H. }
  exact (proj2 (proj2 (writeIpcFile_tmp_invisible example_parse example_stringify
                         example_dir example_output [] 42 (lit "0a1b2c3d-9999")
                         true None Hnd))).
Defined.

Lemma drain_again (JSON_parse : str -> option json)
    (filter_ : option (str -> bool)) (d : Dir) :
  NoDup (map fst d) ->
  Forall (fun e => removable (snd e) = true) d ->
  drainIpcDir JSON_parse (snd (drainIpcDir JSON_parse (Some d) filter_)) filter_
  = ([], snd (drainIpcDir JSON_parse (Some d) filter_)).
Proof.
  intros Hnd Hrm.
  destruct (drain_leaves JSON_parse filter_ d [] Hnd) as [d' [Hd' [Hnd' Hafter]]].
  rewrite Hd'.
  assert (Hkept : forall n, kept JSON_parse filter_ d' n = false).
  { intros n. unfold kept, read. rewrite Hafter.
    destruct (deleted JSON_parse filter_ d n) eqn:Edel.
    - cbn. now rewrite andb_false_r.
    - unfold deleted, kept, read in Edel.
      destruct (lookup n d) as [f|] eqn:El.
      + assert (Hf : removable f = true).
        { rewrite Forall_forall in Hrm.
          assert (Hin : In (n, f) d).
          { clear - El. induction d as [|[m g] d IH]; simpl in *; [discriminate|].
            destruct (str_eqb n m) eqn:E.
            - apply str_eqb_eq in E as ->. injection El as ->. now left.
            - right. now apply IH. }
          apply (Hrm _ Hin). }
        rewrite Hf, andb_true_r in Edel. exact Edel.
      + cbn. now rewrite andb_false_r. }
  rewrite (drainIpcDir_eq JSON_parse filter_ d' Hnd').
  assert (Hnone : forall l, filter (kept JSON_parse filter_ d') l = []).
  { induction l as [|x l IH]; simpl; [reflexivity|]. now rewrite Hkept. }
  rewrite Hnone. cbn [map]. f_equal. f_equal.
  apply forallb_filter_id. apply forallb_forall. intros [n f] _. cbn [fst].
  unfold deleted. now rewrite Hkept.
Qed.

(** X13.  When every file of a directory can be unlinked, a second drain
    finds nothing: what the first drain returned is gone, and what it skipped
    is skipped again and left as it is. *)
Theorem drainIpcDir_twice :
  forall (JSON_parse : str -> option json) (filter_ : option (str -> bool))
         (d : Dir),
    NoDup (map fst d) ->
    Forall (fun e => removable (snd e) = true) d ->
    drainIpcDir JSON_parse (snd (drainIpcDir JSON_parse (Some d) filter_)) filter_
    = ([], snd (drainIpcDir JSON_parse (Some d) filter_)).
Proof. intros JSON_parse filter_ d. apply drain_again. Qed.

Lemma drainIpcDir_twice_witness :
  let d := [ (lit "10-a.json", {| content := Some example_output_text; removable := true |});
             (lit "30-c.json", {| content := Some (lit "{"); removable := true |}) ] in
  drainIpcDir example_parse (snd (drainIpcDir example_parse (Some d) None)) None
  = ([], snd (drainIpcDir example_parse (Some d) None)).
Proof.
  intros d. apply (drainIpcDir_twice example_parse None d).
  - repeat constructor; simpl; intros H;
      repeat (destruct H as [H | H]; [discriminate|]); exact H.
  - repeat constructor.
Defined.

(** *** First in, first out *)

Definition digit (k : nat) : ascii := ascii_of_nat (48 + k).

Lemma digits_fuel_acc (fuel n : nat) (acc : str) :
  n < fuel -> digits_fuel fuel n acc = digits_fuel fuel n [] ++ acc.
Proof.
  revert n acc; induction fuel as [|fuel IH]; intros n acc Hn; [lia|].
  cbn [digits_fuel]. destruct (n / 10 =? 0) eqn:E; [reflexivity|].
  apply Nat.eqb_neq in E.
  assert (Hlt : n / 10 < fuel).
  { assert (n / 10 < n); [|lia].
    apply Nat.div_lt; [|lia]. destruct n; [now cbn in E | lia]. }
  rewrite (IH _ (_ :: acc) Hlt), (IH _ [_] Hlt), <- app_assoc. reflexivity.
Qed.

Lemma digits_fuel_more (f1 f2 n : nat) (acc : str) :
  n < f1 -> n < f2 -> digits_fuel f1 n acc = digits_fuel f2 n acc.
Proof.
  revert f2 n acc; induction f1 as [|f1 IH]; intros f2 n acc H1 H2; [lia|].
  destruct f2 as [|f2]; [lia|].
  cbn [digits_fuel]. destruct (n / 10 =? 0) eqn:E; [reflexivity|].
  apply Nat.eqb_neq in E.
  assert (n / 10 < n)
    by (apply Nat.div_lt; [|lia]; destruct n; [now cbn in E | lia]).
  apply IH; lia.
Qed.

Lemma nat_to_str_small (n : nat) : n < 10 -> nat_to_str n = [digit n].
Proof.
  intros H. unfold nat_to_str. cbn [digits_fuel].
  rewrite (Nat.div_small n 10 H), (Nat.mod_small n 10 H). reflexivity.
Qed.

Lemma nat_to_str_step (n : nat) :
  10 <= n -> nat_to_str n = nat_to_str (n / 10) ++ [digit (n mod 10)].
Proof.
  intros H. unfold nat_to_str. cbn [digits_fuel].
  assert (Hd : n / 10 <> 0).
  { intros E. apply Nat.div_small_iff in E; lia. }
  rewrite (proj2 (Nat.eqb_neq _ _) Hd).
  assert (Hlt : n / 10 < n) by (apply Nat.div_lt; lia).
  rewrite (digits_fuel_acc n (n / 10) [_] Hlt).
  rewrite (digits_fuel_more n (S (n / 10)) (n / 10) [] Hlt); [reflexivity | lia].
Qed.

(** Strictly before, in the order of [sort]. *)
Definition str_lt (a b : str) : Prop := str_leb a b = true /\ str_leb b a = false.

Lemma str_leb_refl (a : str) : str_leb a a = true.
Proof.
  induction a as [|x a IH]; simpl; [reflexivity|].
  now rewrite Nat.ltb_irrefl.
Qed.

Lemma str_lt_app (a b x y : str) :
  length a = length b -> str_lt a b -> str_lt (a ++ x) (b ++ y).
Proof.
  unfold str_lt.
  revert b; induction a as [|c a IH]; intros [|e b] Hlen [H1 H2];
    simpl in *; try discriminate.
  destruct (nat_of_ascii c <? nat_of_ascii e) eqn:Ece;
    destruct (nat_of_ascii e <? nat_of_ascii c) eqn:Eec;
    try discriminate; try (now split).
  apply IH; [lia | now split].
Qed.

Lemma str_lt_prefix (p a b : str) : str_lt a b -> str_lt (p ++ a) (p ++ b).
Proof.
  intros H. induction p as [|c p IH]; [exact H|].
  destruct IH as [H1 H2]. split; simpl; now rewrite Nat.ltb_irrefl.
Qed.

(** Among decimal numerals of one length, the order of [sort] is the order of
    the numbers. *)
Lemma nat_to_str_lt (b a : nat) :
  a < b -> length (nat_to_str a) = length (nat_to_str b) ->
  str_lt (nat_to_str a) (nat_to_str b).
Proof.
  revert a; induction b as [b IH] using lt_wf_ind. intros a Hab Hlen.
  destruct (Nat.lt_ge_cases b 10) as [Hb | Hb].
  - rewrite (nat_to_str_small a) by lia. rewrite (nat_to_str_small b Hb).
    unfold str_lt, digit. cbn [str_leb].
    rewrite !digit_char by lia.
    rewrite (proj2 (Nat.ltb_lt (48 + a) (48 + b))) by lia.
    rewrite (proj2 (Nat.ltb_ge (48 + b) (48 + a))) by lia. now split.
  - rewrite (nat_to_str_step b Hb) in *.
    destruct (Nat.lt_ge_cases a 10) as [Ha | Ha].
    + rewrite (nat_to_str_small a Ha) in Hlen.
      destruct (nat_to_str_digits (b / 10)) as [_ Hne].
      rewrite length_app in Hlen. cbn [length] in Hlen.
      destruct (nat_to_str (b / 10)); [contradiction | cbn [length] in Hlen; lia].
    + rewrite (nat_to_str_step a Ha) in *.
      rewrite !length_app in Hlen. cbn [length] in Hlen.
      assert (Hma : a mod 10 < 10) by (apply Nat.mod_upper_bound; lia).
      assert (Hmb : b mod 10 < 10) by (apply Nat.mod_upper_bound; lia).
      pose proof (Nat.div_mod_eq a 10) as Ea.
      pose proof (Nat.div_mod_eq b 10) as Eb.
      destruct (Nat.lt_ge_cases (a / 10) (b / 10)) as [Hq | Hq].
      * apply str_lt_app; [lia|].
        apply IH; [apply Nat.div_lt; lia | exact Hq | lia].
      * assert (Eq : a / 10 = b / 10) by lia.
        rewrite Eq. apply str_lt_prefix.
        unfold str_lt, digit. cbn [str_leb]. rewrite !digit_char by lia.
        rewrite (proj2 (Nat.ltb_lt (48 + a mod 10) (48 + b mod 10))) by lia.
        rewrite (proj2 (Nat.ltb_ge (48 + b mod 10) (48 + a mod 10))) by lia.
        now split.
Qed.

Lemma ipc_filename_lt (prefix : str) (t1 t2 : nat) (uuid1 uuid2 : str) :
  t1 < t2 -> length (nat_to_str t1) = length (nat_to_str t2) ->
  str_lt (ipc_filename prefix t1 uuid1) (ipc_filename prefix t2 uuid2).
Proof.
  intros Hlt Hlen. unfold ipc_filename.
  apply str_lt_prefix, str_lt_app; [exact Hlen|].
  now apply nat_to_str_lt.
Qed.

(** In a list sorted by name, an entry whose name comes strictly first stands
    first. *)
Lemma sorted_before {A : Type} (l : list (A * str)) (e1 e2 : A * str) :
  StronglySorted str_le (map snd l) ->
  In e1 l -> In e2 l -> str_leb (snd e2) (snd e1) = false ->
  exists before between after, l = before ++ e1 :: between ++ e2 :: after.
Proof.
  induction l as [|x l IH]; intros Hs H1 H2 Hlt; [contradiction|].
  cbn [map] in Hs. inversion Hs as [|? ? Hs' Hall]; subst.
  rewrite Forall_forall in Hall.
  destruct H1 as [-> | H1].
  - destruct H2 as [-> | H2]; [now rewrite str_leb_refl in Hlt|].
    apply in_split in H2 as [m [a ->]]. now exists [], m, a.
  - destruct H2 as [-> | H2].
    + exfalso. assert (Hle : str_le (snd e2) (snd e1))
        by (apply Hall, in_map_iff; now exists e1).
      unfold str_le in Hle. congruence.
    + destruct (IH Hs' H1 H2 Hlt) as [b [m [a ->]]]. now exists (x :: b), m, a.
Qed.

(** X14.  Two values written with one prefix at times [t1 < t2] whose decimal
    numerals have the same length are drained in the order written, whatever
    the random parts of the names and whatever else the directory holds: the
    first name sorts strictly before the second, and [drainIpcDir] returns the
    first value before the second. *)
Theorem writeIpcFile_fifo :
  forall (JSON_parse : str -> option json) (JSON_stringify : json -> str)
         (d : Dir) (data1 data2 : json) (prefix : str) (t1 t2 : nat)
         (uuid1 uuid2 : str) (r1 r2 : bool) (filter_ : option (str -> bool)),
    let name1 := ipc_filename prefix t1 uuid1 in
    let name2 := ipc_filename prefix t2 uuid2 in
    t1 < t2 ->
    length (nat_to_str t1) = length (nat_to_str t2) ->
    NoDup (map fst d) ->
    startsWith prefix (lit ".") = false ->
    JSON_parse (JSON_stringify data1) = Some data1 -> data1 <> JNull ->
    JSON_parse (JSON_stringify data2) = Some data2 -> data2 <> JNull ->
    rejected filter_ name1 = false -> rejected filter_ name2 = false ->
    (str_leb name1 name2 = true /\ str_leb name2 name1 = false)
    /\ exists d1 d2,
         writeIpcFile JSON_stringify (Some d) data1 prefix t1 uuid1 r1
         = Returns (name1, d1)
         /\ writeIpcFile JSON_stringify (Some d1) data2 prefix t2 uuid2 r2
            = Returns (name2, d2)
         /\ exists before between after,
              fst (drainIpcDir JSON_parse (Some d2) filter_)
              = before ++ (data1, name1) :: between ++ (data2, name2) :: after.
Proof.
  intros JSON_parse JSON_stringify d data1 data2 prefix t1 t2 uuid1 uuid2 r1 r2
         filter_ name1 name2 Hlt Hlen Hnd Hprefix Hround1 Hnull1 Hround2 Hnull2
         Hf1 Hf2.
  pose proof (ipc_filename_lt prefix t1 t2 uuid1 uuid2 Hlt Hlen) as Hord.
  fold name1 name2 in Hord.
  split; [exact Hord|]. destruct Hord as [Hle Hnle].
  destruct (writeIpcFile_spec JSON_stringify (Some d) data1 prefix t1 uuid1 r1)
    as [d1 [Hret1 [Hlook1 Hnd1]]].
  fold name1 in Hret1, Hlook1. specialize (Hnd1 Hnd).
  destruct (writeIpcFile_spec JSON_stringify (Some d1) data2 prefix t2 uuid2 r2)
    as [d2 [Hret2 [Hlook2 Hnd2]]].
  fold name2 in Hret2, Hlook2. specialize (Hnd2 Hnd1).
  exists d1, d2. split; [exact Hret1|]. split; [exact Hret2|].
  assert (Hne : str_eqb name1 name2 = false).
  { apply str_eqb_neq. intros E. rewrite E, str_leb_refl in Hnle. discriminate. }
  assert (Hntmp : str_eqb name1 (tmp_name name2) = false).
  { apply str_eqb_neq. intros E.
    pose proof (ipc_filename_no_dot prefix t1 uuid1 Hprefix) as Hdot.
    fold name1 in Hdot. rewrite E, tmp_name_dot in Hdot. discriminate. }
  assert (Hfile1 : read JSON_parse d2 name1 = data1).
  { unfold read, readIpcFile. rewrite Hlook2, Hne, Hntmp, Hlook1, str_eqb_refl.
    cbn [content]. now rewrite Hround1. }
  assert (Hfile2 : read JSON_parse d2 name2 = data2).
  { unfold read, readIpcFile. rewrite Hlook2, str_eqb_refl.
    cbn [content]. now rewrite Hround2. }
  assert (Hk1 : kept JSON_parse filter_ d2 name1 = true).
  { unfold kept, accepted. rewrite Hfile1, Hf1. unfold name1.
    rewrite ipc_filename_json, (ipc_filename_no_dot _ _ _ Hprefix).
    now destruct data1. }
  assert (Hk2 : kept JSON_parse filter_ d2 name2 = true).
  { unfold kept, accepted. rewrite Hfile2, Hf2. unfold name2.
    rewrite ipc_filename_json, (ipc_filename_no_dot _ _ _ Hprefix).
    now destruct data2. }
  apply sorted_before.
  - rewrite (drainIpcDir_eq JSON_parse filter_ d2 Hnd2). cbn [fst].
    rewrite map_map. cbn [snd]. rewrite map_id.
    apply filter_sorted, sort_sorted.
  - apply (drain_results JSON_parse filter_ d2 data1 name1 Hnd2). now split.
  - apply (drain_results JSON_parse filter_ d2 data2 name2 Hnd2). now split.
  - exact Hnle.
Qed.

Lemma writeIpcFile_fifo_witness :
  let name1 := lit "m41-aaaaaaaa.json" in
  let name2 := lit "m42-00000000.json" in
  (str_leb name1 name2 = true /\ str_leb name2 name1 = false)
  /\ exists d1 d2,
       writeIpcFile example_stringify (Some []) example_output (lit "m") 41
         (lit "aaaaaaaa-1111") true
       = Returns (name1, d1)
       /\ writeIpcFile example_stringify (Some d1) example_output (lit "m") 42
            (lit "00000000-2222") true
          = Returns (name2, d2)
       /\ exists before between after,
            fst (drainIpcDir example_parse (Some d2) None)
            = before ++ (example_output, name1) :: between
                ++ (example_output, name2) :: after.
Proof.
  apply (writeIpcFile_fifo example_parse example_stringify [] example_output
           example_output (lit "m") 41 42 (lit "aaaaaaaa-1111")
           (lit "00000000-2222") true true None);
    try reflexivity; try discriminate.
  - lia.
  - constructor.
Defined.

(** ** The agent's side of the input directory *)

Lemma drain_loop_keeps (JSON_parse : str -> option json)
    (filter_ : option (str -> bool)) (m : str) (names : list str) :
  endsWith m (lit ".json") = false ->
  forall (d : Dir) (results : list (json * str)),
    lookup m (snd (drain_loop JSON_parse filter_ names d results)) = lookup m d.
Proof.
  intros Hm. induction names as [|name more IH]; intros d results; [reflexivity|].
  cbn [drain_loop].
  destruct (endsWith name (lit ".json")) eqn:Ejson; cbn [negb]; [|apply IH].
  destruct (startsWith name (lit ".")); [apply IH|].
  destruct (rejected filter_ name); [apply IH|].
  destruct (is_null (readIpcFile JSON_parse (lookup name d))); cbn [negb];
    [apply IH|].
  rewrite IH. destruct (lookup name d) as [f|]; [|reflexivity].
  destruct (removable f); [|reflexivity].
  rewrite lookup_unlink.
  destruct (str_eqb m name) eqn:E; [|reflexivity].
  apply str_eqb_eq in E as ->. congruence.
Qed.

Lemma input_loop_keeps (JSON_parse : str -> option json) (m : str)
    (names : list str) :
  ~ In m names ->
  forall (d : Dir) (messages : list json),
    lookup m (snd (AgentRunner.input_loop JSON_parse names d messages))
    = lookup m d.
Proof.
  induction names as [|name more IH]; intros Hm d messages; [reflexivity|].
  assert (Hmore : ~ In m more) by (intros H; apply Hm; now right).
  assert (Hname : str_eqb m name = false)
    by (apply str_eqb_neq; intros ->; apply Hm; now left).
  cbn [AgentRunner.input_loop].
  destruct (lookup name d) as [f|]; [|now apply IH].
  destruct (content f) as [raw|]; [|now apply IH].
  destruct (JSON_parse raw) as [data|]; [|now apply IH].
  destruct data; try (now apply IH);
    (rewrite IH by exact Hmore;
     destruct (removable f); [|reflexivity];
     now rewrite lookup_unlink, Hname).
Qed.

(** What may happen to an input directory once it exists: the host writes a
    message or a close sentinel into it, the agent drains it, or somebody
    drains it with [drainIpcDir]. *)
Inductive DirOp :=
| HostWrite (data : json) (prefix : str) (now : nat) (uuid : str)
            (unlinkable : bool)
| HostClose (unlinkable : bool)
| AgentDrain
| HostDrain (filter_ : option (str -> bool)).

Definition dir_step (JSON_parse : str -> option json)
    (JSON_stringify : json -> str) (dir : option Dir) (op : DirOp)
  : option Dir :=
  match op with
  | HostWrite data prefix now uuid unlinkable =>
      match writeIpcFile JSON_stringify dir data prefix now uuid unlinkable with
      | Returns (_, d) => Some d
      | Throws => dir
      end
  | HostClose unlinkable => Some (writeCloseSentinel dir unlinkable)
  | AgentDrain => snd (AgentRunner.drainIpcInput JSON_parse dir)
  | HostDrain filter_ => snd (drainIpcDir JSON_parse dir filter_)
  end.

Lemma dir_step_keeps_close (JSON_parse : str -> option json)
    (JSON_stringify : json -> str) (dir : option Dir) (op : DirOp) :
  AgentRunner.shouldClose dir = true ->
  AgentRunner.shouldClose (dir_step JSON_parse JSON_stringify dir op) = true.
Proof.
  unfold AgentRunner.shouldClose.
  destruct dir as [d|]; [|discriminate]. intros Hclose.
  destruct op as [data prefix now uuid r | r | | filter_]; cbn [dir_step].
  - destruct (writeIpcFile_spec JSON_stringify (Some d) data prefix now uuid r)
      as [d2 [Hret [Hlook _]]].
    rewrite Hret, Hlook.
    destruct (str_eqb (lit "_close") (ipc_filename prefix now uuid)) eqn:E1.
    { apply str_eqb_eq in E1.
      pose proof (ipc_filename_json prefix now uuid) as Hj.
      rewrite <- E1 in Hj. discriminate. }
    destruct (str_eqb (lit "_close") (tmp_name (ipc_filename prefix now uuid)))
      eqn:E2; [discriminate | exact Hclose].
  - unfold writeCloseSentinel. now rewrite writeFileSync_lookup, str_eqb_refl.
  - unfold AgentRunner.drainIpcInput.
    match goal with |- context [AgentRunner.input_loop _ ?names d []] =>
      pose proof (input_loop_keeps JSON_parse (lit "_close") names) as Hkeep;
      destruct (AgentRunner.input_loop JSON_parse names d []) as [messages d']
        eqn:Eloop
    end.
    cbn [snd]. specialize (Hkeep ltac:(
      intros Hin;
      apply (Permutation_in _ (sort_perm _)) in Hin;
      apply filter_In in Hin as [_ Hin]; discriminate) d []).
    rewrite Eloop in Hkeep. cbn [snd] in Hkeep. now rewrite Hkeep.
  - unfold drainIpcDir.
    match goal with |- context [drain_loop _ _ ?names d []] =>
      pose proof (drain_loop_keeps JSON_parse filter_ (lit "_close") names
                    eq_refl d []) as Hkeep;
      destruct (drain_loop JSON_parse filter_ names d []) as [results d']
    end.
    cbn [snd] in *. now rewrite Hkeep.
Qed.

(** X15.  Once the close sentinel is written into an input directory,
    [shouldClose()] answers true from then on: no write of a message, no drain
    by the agent and no [drainIpcDir] removes the sentinel, and no drain
    returns it as a message. *)
Theorem close_sentinel_stays :
  forall (JSON_parse : str -> option json) (JSON_stringify : json -> str)
         (dir : option Dir) (unlinkable : bool) (ops : list DirOp),
    let closed := Some (writeCloseSentinel dir unlinkable) in
    AgentRunner.shouldClose
      (fold_left (dir_step JSON_parse JSON_stringify) ops closed) = true
    /\ forallb (fun e => negb (str_eqb (snd e) (lit "_close")))
         (fst (drainIpcDir JSON_parse
                 (fold_left (dir_step JSON_parse JSON_stringify) ops closed) None))
       = true.
Proof.
  intros JSON_parse JSON_stringify dir unlinkable ops closed.
  assert (Hclosed : AgentRunner.shouldClose closed = true).
  { unfold closed, AgentRunner.shouldClose, writeCloseSentinel.
    now rewrite writeFileSync_lookup, str_eqb_refl. }
  split.
  - clearbody closed. revert closed Hclosed.
    induction ops as [|op ops IH]; intros closed Hclosed; [exact Hclosed|].
    cbn [fold_left]. apply IH. now apply dir_step_keeps_close.
  - generalize (fold_left (dir_step JSON_parse JSON_stringify) ops closed).
    intros [d|]; [|reflexivity].
    unfold drainIpcDir.
    assert (Hloop : forall names d0 results,
               forallb (fun e => negb (str_eqb (snd e) (lit "_close"))) results = true ->
               forallb (fun e => negb (str_eqb (snd e) (lit "_close")))
                 (fst (drain_loop JSON_parse None names d0 results)) = true).
    { induction names as [|name more IH]; intros d0 results Hres; [exact Hres|].
      cbn [drain_loop].
      destruct (endsWith name (lit ".json")) eqn:Ejson; cbn [negb]; [|now apply IH].
      destruct (startsWith name (lit ".")); [now apply IH|].
      cbn [rejected].
      destruct (is_null (readIpcFile JSON_parse (lookup name d0))); cbn [negb];
        [now apply IH|].
      apply IH. rewrite forallb_app, Hres. cbn [forallb snd].
      destruct (str_eqb name (lit "_close")) eqn:E; [|reflexivity].
      apply str_eqb_eq in E as ->. discriminate. }
    specialize (Hloop (sort (map fst d)) d [] eq_refl).
    now destruct (drain_loop JSON_parse None (sort (map fst d)) d []).
Qed.

Section InputFacts.

Variable JSON_parse : str -> option json.

(** The data the [try] block of [drainIpcInput] gets to work on. *)
Definition input_data (d : Dir) (n : str) : option json :=
  match lookup n d with
  | Some f =>
      match content f with
      | Some raw =>
          match JSON_parse raw with
          | Some JNull => None
          | r => r
          end
      | None => None
      end
  | None => None
  end.

Definition input_text (d : Dir) (n : str) : list json :=
  match input_data d n with
  | Some data =>
      match get_prop data (lit "text") with
      | Some text => if truthy text then [text] else []
      | None => []
      end
  | None => []
  end.

Definition input_consumed (d : Dir) (n : str) : bool :=
  match input_data d n, lookup n d with
  | Some _, Some f => removable f
  | _, _ => false
  end.

Lemma input_loop_spec (names : list str) :
  NoDup names ->
  forall (d : Dir) (messages : list json),
    AgentRunner.input_loop JSON_parse names d messages
    = (messages ++ flat_map (input_text d) names,
       unlink_all (filter (input_consumed d) names) d).
Proof.
  induction 1 as [|name more Hnotin Hnd IH]; intros d messages.
  - simpl. now rewrite app_nil_r.
  - assert (Hstep : forall d' messages',
               (forall n, In n more -> lookup n d' = lookup n d) ->
               AgentRunner.input_loop JSON_parse more d' messages'
               = (messages' ++ flat_map (input_text d) more,
                  unlink_all (filter (input_consumed d) more) d')).
    { intros d' messages' Hlook. rewrite IH. f_equal.
      - f_equal. rewrite !flat_map_concat_map. f_equal.
        apply map_ext_in. intros n Hn.
        unfold input_text, input_data. now rewrite (Hlook n Hn).
      - f_equal. apply filter_ext_in. intros n Hn.
        unfold input_consumed, input_data. now rewrite (Hlook n Hn). }
    assert (Hunlink : forall n, In n more -> lookup n (unlink name d) = lookup n d).
    { intros n Hn. apply lookup_unlink_other. intros ->. contradiction. }
    cbn [AgentRunner.input_loop flat_map filter].
    unfold input_consumed, input_text, input_data.
    destruct (lookup name d) as [f|]; [|now apply Hstep].
    destruct (content f) as [raw|]; [|now apply Hstep].
    destruct (JSON_parse raw) as [data|]; [|now apply Hstep].
    assert (Hdata : forall v : json,
               AgentRunner.input_loop JSON_parse more
                 (if removable f then unlink name d else d)
                 (match get_prop v (lit "text") with
                  | Some text => if truthy text then messages ++ [text] else messages
                  | None => messages
                  end)
               = (messages
                    ++ match get_prop v (lit "text") with
                       | Some text => if truthy text then [text] else []
                       | None => []
                       end ++ flat_map (input_text d) more,
                  unlink_all
                    (if removable f then name :: filter (input_consumed d) more
                     else filter (input_consumed d) more) d)).
    { intros v.
      destruct (removable f);
        [rewrite Hstep by exact Hunlink | rewrite Hstep by reflexivity];
        cbn [unlink_all fold_left]; f_equal;
        destruct (get_prop v (lit "text")) as [text|]; try reflexivity;
        destruct (truthy text); try reflexivity; now rewrite <- app_assoc. }
    destruct data; try (now apply Hstep); apply Hdata.
Qed.

Lemma drainIpcInput_eq (d : Dir) :
  NoDup (map fst d) ->
  let entries := sort (filter (fun f => endsWith f (lit ".json")
                                        && negb (startsWith f (lit ".")))
                              (map fst d)) in
  AgentRunner.drainIpcInput JSON_parse (Some d)
  = (flat_map (input_text d) entries,
     Some (unlink_all (filter (input_consumed d) entries) d)).
Proof.
  intros Hnd entries. unfold AgentRunner.drainIpcInput. fold entries.
  rewrite input_loop_spec; [reflexivity|].
  apply (Permutation_NoDup (Permutation_sym (sort_perm _))).
  now apply NoDup_filter.
Qed.

End InputFacts.

(** ** More on the group queue *)

(** *** Looking a group up *)

Lemma find_jid (j : str) (gs : list GroupState) (g : GroupState) :
  find (fun g => str_eqb (GroupQueue.jid g) j) gs = Some g ->
  GroupQueue.jid g = j /\ In g gs.
Proof.
  intros H. apply find_some in H as [Hin Hj].
  apply str_eqb_eq in Hj. now split.
Qed.

Lemma find_nodup (gs : list GroupState) (g : GroupState) :
  NoDup (map GroupQueue.jid gs) -> In g gs ->
  find (fun h => str_eqb (GroupQueue.jid h) (GroupQueue.jid g)) gs = Some g.
Proof.
  induction gs as [|h gs IH]; intros Hnd Hin; [contradiction|].
  cbn [map] in Hnd. inversion Hnd as [|? ? Hh Hnd']; subst.
  cbn [find]. destruct Hin as [-> | Hin]; [now rewrite str_eqb_refl|].
  destruct (str_eqb (GroupQueue.jid h) (GroupQueue.jid g)) eqn:E; [|now apply IH].
  apply str_eqb_eq in E. exfalso. apply Hh. rewrite E.
  apply in_map_iff. now exists g.
Qed.

Lemma find_update_same (j : str) (f : GroupState -> GroupState)
    (gs : list GroupState) :
  (forall g, GroupQueue.jid (f g) = GroupQueue.jid g) ->
  find (fun g => str_eqb (GroupQueue.jid g) j) (update j f gs)
  = option_map f (find (fun g => str_eqb (GroupQueue.jid g) j) gs).
Proof.
  intros Hf. induction gs as [|h gs IH]; [reflexivity|].
  cbn [update map find]. destruct (str_eqb (GroupQueue.jid h) j) eqn:E.
  - now rewrite Hf, E.
  - rewrite E. exact IH.
Qed.

Lemma find_update_other (j j' : str) (f : GroupState -> GroupState)
    (gs : list GroupState) :
  j' <> j ->
  (forall g, GroupQueue.jid (f g) = GroupQueue.jid g) ->
  find (fun g => str_eqb (GroupQueue.jid g) j') (update j f gs)
  = find (fun g => str_eqb (GroupQueue.jid g) j') gs.
Proof.
  intros Hne Hf. induction gs as [|h gs IH]; [reflexivity|].
  cbn [update map find]. destruct (str_eqb (GroupQueue.jid h) j) eqn:E.
  - rewrite Hf. apply str_eqb_eq in E. rewrite E.
    rewrite (proj2 (str_eqb_neq j j')) by congruence. exact IH.
  - destruct (str_eqb (GroupQueue.jid h) j'); [reflexivity | exact IH].
Qed.

Definition fresh_group (j : str) : GroupState :=
  {| GroupQueue.jid := j; process := None; containerName := None;
     groupFolder := None; processing := false; queue := [] |}.

Lemma getGroup_groups (st : State) (j : str) :
  groups (_getGroup st j)
  = if has_group j (groups st) then groups st else groups st ++ [fresh_group j].
Proof. unfold _getGroup. now destruct (has_group j (groups st)). Qed.

Lemma has_group_find (j : str) (gs : list GroupState) :
  has_group j gs
  = match find (fun g => str_eqb (GroupQueue.jid g) j) gs with
    | Some _ => true
    | None => false
    end.
Proof.
  unfold has_group. induction gs as [|h gs IH]; [reflexivity|].
  cbn [existsb find]. now destruct (str_eqb (GroupQueue.jid h) j).
Qed.

Lemma find_getGroup (st : State) (j j' : str) :
  find (fun g => str_eqb (GroupQueue.jid g) j') (groups (_getGroup st j))
  = match find (fun g => str_eqb (GroupQueue.jid g) j') (groups st) with
    | Some g => Some g
    | None => if str_eqb j j' && negb (has_group j (groups st))
              then Some (fresh_group j) else None
    end.
Proof.
  rewrite getGroup_groups.
  destruct (has_group j (groups st)) eqn:E.
  - rewrite andb_false_r.
    now destruct (find (fun g => str_eqb (GroupQueue.jid g) j') (groups st)).
  - rewrite find_app, andb_true_r. cbn [find fresh_group GroupQueue.jid].
    destruct (find (fun g => str_eqb (GroupQueue.jid g) j') (groups st));
      [reflexivity|].
    now destruct (str_eqb j j').
Qed.

(** All that [_getGroup], the enqueues, [registerProcess] and the queue's
    own steps do to the state, as far as the groups, the counter and the limit
    go.  A property of these three that the elementary changes keep is kept by
    every step. *)
Section CoreInvariant.

Variable P : list GroupState -> Z -> Z -> Prop.

(** The groups for which [registerProcess] may be called. *)
Variable may_register : str -> Prop.

Definition holds (st : State) : Prop :=
  P (groups st) (activeCount st) (maxConcurrentContainers st).

Hypothesis P_release : forall gs a m j,
  P gs a m -> P (update j release gs) (a - 1)%Z m.
Hypothesis P_take : forall gs a m g,
  (m <=? a)%Z = false -> In g gs -> processing g = false ->
  P gs a m -> P (update (GroupQueue.jid g) take gs) (a + 1)%Z m.
Hypothesis P_fresh : forall gs a m j,
  has_group j gs = false -> P gs a m -> P (gs ++ [fresh_group j]) a m.
Hypothesis P_queue : forall gs a m j q,
  P gs a m -> P (update j (fun g => set_queue (q g) g) gs) a m.
Hypothesis P_register : forall gs a m j proc cname folder,
  may_register j -> P gs a m -> P (update j (register proc cname folder) gs) a m.

Section Redrain.

Variable redrain : State -> State.
Hypothesis redrain_holds : forall s, holds s -> holds (redrain s).

Lemma holds_finally (st : State) (c : Call) :
  holds st -> holds (finally_ redrain st c).
Proof.
  intros H. unfold finally_.
  destruct ((MAX_RETRIES <=? attempt c) || negb (fn (item c))); [|exact H].
  apply redrain_holds. now apply P_release.
Qed.

Lemma holds_on_failure (st : State) (c : Call) :
  holds st -> holds (on_failure redrain st c).
Proof.
  intros H. unfold on_failure.
  destruct (attempt c <? MAX_RETRIES); now apply holds_finally.
Qed.

Lemma holds_settle (st : State) (c : Call) (o : Outcome) :
  holds st -> holds (settle redrain st c o).
Proof.
  intros H. destruct o; cbn [settle];
    [now apply holds_finally | now apply holds_on_failure].
Qed.

Lemma holds_processItem (st : State) (c : Call) :
  holds st -> holds (_processItem redrain st c).
Proof.
  intros H. unfold _processItem.
  destruct (fn (item c) || processMessagesFn _); [exact H|].
  now apply holds_on_failure.
Qed.

End Redrain.

Lemma holds_drain (n : nat) (st : State) : holds st -> holds (drain_fuel n st).
Proof.
  revert st; induction n as [|n IH]; intros st H; [exact H|].
  cbn [drain_fuel].
  destruct (maxConcurrentContainers st <=? activeCount st)%Z eqn:Eguard; [exact H|].
  destruct (pick st (groups st)) as [g|] eqn:Ep; [|exact H].
  apply pick_spec in Ep as [Hin [Hidle _]].
  destruct (queue g) as [|i q]; [exact H|].
  apply (holds_processItem (drain_fuel n) IH).
  now apply P_take.
Qed.

Lemma holds__drain (st : State) : holds st -> holds (_drain st).
Proof. apply holds_drain. Qed.

Lemma holds_getGroup (st : State) (j : str) : holds st -> holds (_getGroup st j).
Proof.
  intros H. unfold _getGroup.
  destruct (has_group j (groups st)) eqn:E; [exact H|].
  now apply P_fresh.
Qed.

Lemma holds_step (st : State) (op : Op) :
  match op with
  | RegisterProcess j _ _ _ => may_register j
  | _ => True
  end ->
  holds st -> holds (step st op).
Proof.
  intros Hop H. destruct op as [| j | j t | j proc cname folder | n o | n];
    cbn [step].
  - exact H.
  - unfold enqueueMessageCheck. apply holds__drain.
    apply (P_queue _ _ _ j (fun g => queue g ++ [_])). now apply holds_getGroup.
  - unfold enqueueTask. apply holds__drain.
    apply (P_queue _ _ _ j (fun g => _ :: queue g)). now apply holds_getGroup.
  - unfold registerProcess. apply P_register; [exact Hop|].
    now apply holds_getGroup.
  - destruct (nth_error (awaiting st) n) as [c|]; [|exact H].
    apply (holds_settle _drain holds__drain). exact H.
  - destruct (nth_error (timers st) n) as [[d c]|]; [|exact H].
    apply (holds_processItem _drain holds__drain). exact H.
Qed.

End CoreInvariant.

Lemma steps_keep_limit (st : State) (ops : list Op) :
  maxConcurrentContainers (GroupQueue.run st ops) = maxConcurrentContainers st.
Proof.
  unfold GroupQueue.run. revert st; induction ops as [|op ops IH]; intros st;
    [reflexivity|].
  cbn [fold_left]. rewrite IH.
  apply (holds_step (fun _ _ m => m = maxConcurrentContainers st) (fun _ => True));
    auto; try reflexivity.
  now destruct op.
Qed.

(** X16.  The counter of running items never exceeds the limit: in every
    state the queue reaches from its construction, whatever is enqueued,
    registered, settled or retried, [_activeCount] is at most
    [maxConcurrentContainers] (at most 0 when the limit is negative). *)
Theorem activeCount_within_limit :
  forall (maxConcurrent : Z) (ops : list Op),
    (activeCount (GroupQueue.run (constructor maxConcurrent) ops)
     <= Z.max 0 maxConcurrent)%Z.
Proof.
  intros maxConcurrent ops.
  assert (Hrun : forall st,
             holds (fun _ a m => (a <= Z.max 0 m)%Z) st ->
             holds (fun _ a m => (a <= Z.max 0 m)%Z) (GroupQueue.run st ops)).
  { unfold GroupQueue.run. induction ops as [|op ops IH]; intros st H; [exact H|].
    cbn [fold_left]. apply IH.
    apply (holds_step (fun _ a m => (a <= Z.max 0 m)%Z) (fun _ => True));
      try (intros; lia); try exact H; try (now destruct op). }
  specialize (Hrun (constructor maxConcurrent)). unfold holds in Hrun.
  rewrite steps_keep_limit in Hrun. cbn in Hrun. apply Hrun. lia.
Qed.

(** *** Registered processes *)

(** What the group [j] holds in one of its fields, if the group exists. *)
Definition group_field {A : Type} (field : GroupState -> A) (j : str)
    (gs : list GroupState) : option A :=
  option_map field (find (fun g => str_eqb (GroupQueue.jid g) j) gs).

Lemma hasActiveContainer_field (st : State) (j : str) :
  hasActiveContainer st j
  = match group_field process j (groups st) with
    | Some (Some _) => true
    | _ => false
    end.
Proof.
  unfold hasActiveContainer, group_field.
  now destruct (find (fun g => str_eqb (GroupQueue.jid g) j) (groups st)).
Qed.

Lemma group_field_update {A : Type} (field : GroupState -> A) (j j0 : str)
    (f : GroupState -> GroupState) (gs : list GroupState) :
  (forall g, GroupQueue.jid (f g) = GroupQueue.jid g) ->
  group_field field j (update j0 f gs)
  = if str_eqb j j0
    then option_map (fun g => field (f g))
           (find (fun g => str_eqb (GroupQueue.jid g) j) gs)
    else group_field field j gs.
Proof.
  intros Hf. unfold group_field. destruct (str_eqb j j0) eqn:E.
  - apply str_eqb_eq in E as ->. rewrite (find_update_same j0 f gs Hf).
    now destruct (find (fun g => str_eqb (GroupQueue.jid g) j0) gs).
  - apply str_eqb_neq in E. now rewrite (find_update_other j0 j f gs E Hf).
Qed.

Lemma group_field_fresh {A : Type} (field : GroupState -> A) (j j0 : str)
    (gs : list GroupState) :
  group_field field j (gs ++ [fresh_group j0])
  = match group_field field j gs with
    | Some x => Some x
    | None => if str_eqb j0 j then Some (field (fresh_group j0)) else None
    end.
Proof.
  unfold group_field. rewrite find_app. cbn [find fresh_group GroupQueue.jid].
  destruct (find (fun g => str_eqb (GroupQueue.jid g) j) gs); [reflexivity|].
  now destruct (str_eqb j0 j).
Qed.

(** Steps that keep a field of group [j] as it is, or reset it. *)
Section FieldKept.

Context {A : Type}.
Variable field : GroupState -> A.
Variable j : str.
Variable ok : option A -> Prop.

Hypothesis ok_fresh : ok None -> ok (Some (field (fresh_group j))).
Hypothesis field_take : forall g, field (take g) = field g.
Hypothesis field_queue : forall g q, field (set_queue q g) = field g.
Hypothesis ok_release : forall g, ok (Some (field g)) -> ok (Some (field (release g))).

Lemma field_kept_step (st : State) (op : Op) :
  match op with
  | RegisterProcess j0 _ _ _ => j0 <> j
  | _ => True
  end ->
  ok (group_field field j (groups st)) ->
  ok (group_field field j (groups (step st op))).
Proof.
  apply (holds_step (fun gs _ _ => ok (group_field field j gs)) (fun j0 => j0 <> j)).
  - intros gs a m j0 H. rewrite group_field_update by reflexivity.
    destruct (str_eqb j j0); [|exact H]. unfold group_field in H.
    destruct (find (fun g => str_eqb (GroupQueue.jid g) j) gs); [|exact H].
    now apply ok_release.
  - intros gs a m g _ _ _ H. rewrite group_field_update by reflexivity.
    destruct (str_eqb j (GroupQueue.jid g)); [|exact H]. unfold group_field in H.
    destruct (find (fun g => str_eqb (GroupQueue.jid g) j) gs); [|exact H].
    cbn [option_map] in *. now rewrite field_take.
  - intros gs a m j0 _ H. rewrite group_field_fresh.
    destruct (group_field field j gs); [exact H|].
    destruct (str_eqb j0 j) eqn:E; [|exact H].
    apply str_eqb_eq in E as ->. now apply ok_fresh.
  - intros gs a m j0 q H. rewrite group_field_update by reflexivity.
    destruct (str_eqb j j0); [|exact H]. unfold group_field in H.
    destruct (find (fun g => str_eqb (GroupQueue.jid g) j) gs); [|exact H].
    cbn [option_map] in *. now rewrite field_queue.
  - intros gs a m j0 proc cname folder Hne H.
    rewrite group_field_update by reflexivity.
    now rewrite (proj2 (str_eqb_neq j j0)) by congruence.
Qed.

End FieldKept.

Definition inactive (p : option (option nat)) : Prop :=
  match p with Some (Some _) => False | _ => True end.

Lemma registerProcess_field {A : Type} (field : GroupState -> A) (st : State)
    (j : str) (proc : nat) (cname folder : str) :
  group_field field j (groups (registerProcess st j proc cname folder))
  = Some (field (register proc cname folder
                   match find (fun g => str_eqb (GroupQueue.jid g) j) (groups st) with
                   | Some g => g
                   | None => fresh_group j
                   end)).
Proof.
  unfold registerProcess. cbn [groups with_groups].
  rewrite group_field_update by reflexivity. rewrite str_eqb_refl, find_getGroup.
  destruct (find (fun g => str_eqb (GroupQueue.jid g) j) (groups st)) eqn:E;
    [reflexivity|].
  rewrite has_group_find, E, str_eqb_refl. reflexivity.
Qed.

Lemma inactive_iff (st : State) (j : str) :
  hasActiveContainer st j = false
  <-> inactive (group_field process j (groups st)).
Proof.
  rewrite hasActiveContainer_field.
  destruct (group_field process j (groups st)) as [[p|]|]; cbn;
    split; try reflexivity; try discriminate; try contradiction; exact (fun _ => I).
Qed.

Lemma inactive_step (st : State) (op : Op) (j : str) :
  match op with
  | RegisterProcess j0 _ _ _ => j0 <> j
  | _ => True
  end ->
  hasActiveContainer st j = false ->
  hasActiveContainer (step st op) j = false.
Proof.
  intros Hop H. apply inactive_iff.
  apply (field_kept_step process j inactive); auto.
  - intros g _. exact I.
  - now apply inactive_iff.
Qed.

Lemma settle_inactive (st : State) (n : nat) (c : Call) (o : Outcome) :
  nth_error (awaiting st) n = Some c ->
  fn (item c) = false \/ MAX_RETRIES <= attempt c ->
  hasActiveContainer (step st (Settle n o)) (target c) = false.
Proof.
  intros Hn Hcond. cbn [step]. rewrite Hn.
  set (st0 := with_awaiting st (remove_nth n (awaiting st))).
  assert (Hcond' : (MAX_RETRIES <=? attempt c) || negb (fn (item c)) = true).
  { destruct Hcond as [-> | Hk]; [apply orb_true_r|].
    now rewrite (proj2 (Nat.leb_le _ _) Hk). }
  assert (Hfinal : forall s, hasActiveContainer (finally_ _drain s c) (target c)
                             = false).
  { intros s. unfold finally_. rewrite Hcond'. apply inactive_iff.
    apply (holds__drain (fun gs _ _ => inactive (group_field process (target c) gs))).
    - intros gs a m j H. rewrite group_field_update by reflexivity.
      destruct (str_eqb (target c) j); [|exact H].
      now destruct (find _ gs).
    - intros gs a m g _ _ _ H. rewrite group_field_update by reflexivity.
      destruct (str_eqb (target c) (GroupQueue.jid g)); [|exact H].
      unfold group_field in H. now destruct (find _ gs).
    - unfold holds. cbn [groups with_activeCount with_groups].
      rewrite group_field_update by reflexivity. rewrite str_eqb_refl.
      now destruct (find _ (groups s)). }
  destruct o as [result|]; cbn [settle]; [apply Hfinal|].
  unfold on_failure. destruct (attempt c <? MAX_RETRIES); apply Hfinal.
Qed.

Lemma getGroup_field {A : Type} (field : GroupState -> A) (st : State) (j : str) :
  group_field field j (groups (_getGroup st j))
  = Some (field match find (fun g => str_eqb (GroupQueue.jid g) j) (groups st) with
                | Some g => g
                | None => fresh_group j
                end).
Proof.
  unfold group_field. rewrite find_getGroup.
  destruct (find (fun g => str_eqb (GroupQueue.jid g) j) (groups st)) eqn:E;
    [reflexivity|].
  now rewrite has_group_find, E, str_eqb_refl.
Qed.

(** *** A slot that is never given back *)

Lemma jids_step (st : State) (op : Op) :
  NoDup (map GroupQueue.jid (groups st)) ->
  NoDup (map GroupQueue.jid (groups (step st op))).
Proof.
  apply (holds_step (fun gs _ _ => NoDup (map GroupQueue.jid gs)) (fun _ => True)).
  - intros gs a m j H. now rewrite update_jids.
  - intros gs a m g _ _ _ H. now rewrite update_jids.
  - intros gs a m j Hnew H. rewrite map_app. cbn [map fresh_group GroupQueue.jid].
    apply NoDup_app; [exact H | repeat constructor; intros [] |].
    intros x Hx [E | []]. subst x. now apply (has_group_absent j gs).
  - intros gs a m j q H. now rewrite update_jids.
  - intros gs a m j proc cname folder _ H. now rewrite update_jids.
  - now destruct op.
Qed.

Lemma jids_run (maxConcurrent : Z) (ops : list Op) :
  NoDup (map GroupQueue.jid (groups (GroupQueue.run (constructor maxConcurrent) ops))).
Proof.
  assert (H : forall st, NoDup (map GroupQueue.jid (groups st)) ->
                         NoDup (map GroupQueue.jid (groups (GroupQueue.run st ops)))).
  { unfold GroupQueue.run. induction ops as [|op ops IH]; intros st H; [exact H|].
    cbn [fold_left]. apply IH. now apply jids_step. }
  apply H. constructor.
Qed.

(** Group [j] is marked as processing while no call for it is suspended or
    waiting for a retry. *)
Definition stuck (j : str) (st : State) : Prop :=
  NoDup (map GroupQueue.jid (groups st))
  /\ group_processing st j = Some true
  /\ Forall (fun c => target c <> j) (awaiting st)
  /\ Forall (fun dc => target (snd dc) <> j) (timers st).

Section Stuck.

Variable j : str.

Lemma stuck_groups (st st' : State) :
  groups st' = groups st -> awaiting st' = awaiting st -> timers st' = timers st ->
  stuck j st -> stuck j st'.
Proof.
  unfold stuck, group_processing. intros -> -> ->. exact (fun H => H).
Qed.

Lemma stuck_update (st : State) (j0 : str) (f : GroupState -> GroupState) (a : Z) :
  (forall g, GroupQueue.jid (f g) = GroupQueue.jid g) ->
  (j0 = j -> forall g, processing (f g) = processing g) ->
  stuck j st ->
  stuck j (with_activeCount (with_groups st (update j0 f (groups st))) a).
Proof.
  intros Hjid Hproc [Hnd [Hp [Ha Ht]]]. unfold stuck.
  cbn [groups awaiting timers with_activeCount with_groups].
  split; [now rewrite update_jids|]. split; [|now split].
  unfold group_processing in *. cbn [groups with_activeCount with_groups].
  change (group_field processing j (update j0 f (groups st)) = Some true).
  rewrite group_field_update by exact Hjid.
  destruct (str_eqb j j0) eqn:E; [|exact Hp].
  apply str_eqb_eq in E. symmetry in E.
  destruct (find _ (groups st)) as [g|]; [|discriminate].
  cbn [option_map] in *. now rewrite (Hproc E).
Qed.

Lemma stuck_getGroup (st : State) (j0 : str) :
  stuck j st -> stuck j (_getGroup st j0).
Proof.
  intros [Hnd [Hp [Ha Ht]]]. unfold _getGroup.
  destruct (has_group j0 (groups st)) eqn:E; [now repeat split|].
  unfold stuck. cbn [groups awaiting timers with_groups].
  split; [|split; [|now split]].
  - rewrite map_app. cbn [map GroupQueue.jid].
    apply NoDup_app; [exact Hnd | repeat constructor; intros [] |].
    intros x Hx [E0 | []]. subst x. now apply (has_group_absent j0 (groups st)).
  - unfold group_processing in *. cbn [groups with_groups]. rewrite find_app.
    now destruct (find _ (groups st)).
Qed.

Section Redrain.

Variable redrain : State -> State.
Hypothesis redrain_stuck : forall s, stuck j s -> stuck j (redrain s).

Lemma stuck_finally (st : State) (c : Call) :
  target c <> j -> stuck j st -> stuck j (finally_ redrain st c).
Proof.
  intros Hc H. unfold finally_.
  destruct ((MAX_RETRIES <=? attempt c) || negb (fn (item c))); [|exact H].
  apply redrain_stuck. apply stuck_update; [reflexivity | congruence | exact H].
Qed.

Lemma stuck_on_failure (st : State) (c : Call) :
  target c <> j -> stuck j st -> stuck j (on_failure redrain st c).
Proof.
  intros Hc H. unfold on_failure.
  destruct (attempt c <? MAX_RETRIES); apply stuck_finally; try exact Hc.
  - destruct H as [Hnd [Hp [Ha Ht]]]. unfold stuck.
    cbn [groups awaiting timers with_timers emit].
    repeat split; try assumption.
    apply Forall_app. split; [exact Ht|]. now repeat constructor.
  - revert H. now apply stuck_groups.
Qed.

Lemma stuck_settle (st : State) (c : Call) (o : Outcome) :
  target c <> j -> stuck j st -> stuck j (settle redrain st c o).
Proof.
  intros Hc H. destruct o; cbn [settle].
  - apply stuck_finally; [exact Hc|]. revert H. now apply stuck_groups.
  - now apply stuck_on_failure.
Qed.

Lemma stuck_processItem (st : State) (c : Call) :
  target c <> j -> stuck j st -> stuck j (_processItem redrain st c).
Proof.
  intros Hc H. unfold _processItem.
  destruct (fn (item c) || processMessagesFn _).
  - destruct H as [Hnd [Hp [Ha Ht]]]. unfold stuck.
    cbn [groups awaiting timers with_awaiting emit].
    repeat split; try assumption.
    apply Forall_app. split; [exact Ha|]. now repeat constructor.
  - apply stuck_on_failure; [exact Hc|]. revert H. now apply stuck_groups.
Qed.

End Redrain.

Lemma stuck_drain (n : nat) (st : State) : stuck j st -> stuck j (drain_fuel n st).
Proof.
  revert st; induction n as [|n IH]; intros st H; [exact H|].
  cbn [drain_fuel].
  destruct (maxConcurrentContainers st <=? activeCount st)%Z; [exact H|].
  destruct (pick st (groups st)) as [g|] eqn:Ep; [|exact H].
  apply pick_spec in Ep as [Hin [Hidle _]].
  destruct (queue g) as [|i q]; [exact H|].
  assert (Hg : GroupQueue.jid g <> j).
  { intros <-. destruct H as [Hnd [Hp _]]. unfold group_processing in Hp.
    rewrite (find_nodup _ _ Hnd Hin) in Hp. cbn in Hp. congruence. }
  apply (stuck_processItem (drain_fuel n) IH); [exact Hg|].
  apply stuck_update; [reflexivity | congruence | exact H].
Qed.

Lemma stuck__drain (st : State) : stuck j st -> stuck j (_drain st).
Proof. apply stuck_drain. Qed.

Lemma stuck_step (st : State) (op : Op) : stuck j st -> stuck j (step st op).
Proof.
  intros H. destruct op as [| j0 | j0 t | j0 proc cname folder | n o | n];
    cbn [step].
  - revert H. now apply stuck_groups.
  - unfold enqueueMessageCheck. apply stuck__drain.
    apply (stuck_groups
             (with_activeCount
                (with_groups (_getGroup st j0)
                   (update j0 (push {| promise := promises (_getGroup st j0);
                                       fn := false; taskId := None |})
                      (groups (_getGroup st j0))))
                (activeCount (_getGroup st j0)))); try reflexivity.
    apply stuck_update; [reflexivity | reflexivity |]. now apply stuck_getGroup.
  - unfold enqueueTask. apply stuck__drain.
    apply (stuck_groups
             (with_activeCount
                (with_groups (_getGroup st j0)
                   (update j0 (unshift {| promise := promises (_getGroup st j0);
                                          fn := true; taskId := Some t |})
                      (groups (_getGroup st j0))))
                (activeCount (_getGroup st j0)))); try reflexivity.
    apply stuck_update; [reflexivity | reflexivity |]. now apply stuck_getGroup.
  - unfold registerProcess.
    apply (stuck_groups
             (with_activeCount
                (with_groups (_getGroup st j0)
                   (update j0 (register proc cname folder)
                      (groups (_getGroup st j0))))
                (activeCount (_getGroup st j0)))); try reflexivity.
    apply stuck_update; [reflexivity | reflexivity |]. now apply stuck_getGroup.
  - destruct (nth_error (awaiting st) n) as [c|] eqn:E; [|exact H].
    destruct H as [Hnd [Hp [Ha Ht]]].
    apply (stuck_settle _drain stuck__drain).
    + apply nth_error_In in E. revert c E. now apply Forall_forall.
    + unfold stuck. cbn [groups awaiting timers with_awaiting].
      repeat split; try assumption. now apply Forall_remove_nth.
  - destruct (nth_error (timers st) n) as [[d c]|] eqn:E; [|exact H].
    destruct H as [Hnd [Hp [Ha Ht]]].
    apply (stuck_processItem _drain stuck__drain).
    + apply nth_error_In in E.
      exact (proj1 (Forall_forall _ _) Ht (d, c) E).
    + unfold stuck. cbn [groups awaiting timers with_timers].
      repeat split; try assumption. now apply Forall_remove_nth.
Qed.

Lemma stuck_run (st : State) (ops : list Op) :
  stuck j st -> stuck j (GroupQueue.run st ops).
Proof.
  unfold GroupQueue.run. revert st; induction ops as [|op ops IH]; intros st H;
    [exact H|].
  cbn [fold_left]. apply IH. now apply stuck_step.
Qed.

Lemma in_flight_nil (st : State) :
  in_flight st j = []
  <-> Forall (fun c => target c <> j) (awaiting st)
      /\ Forall (fun dc => target (snd dc) <> j) (timers st).
Proof.
  unfold in_flight. rewrite filter_app. split.
  - intros H. apply app_eq_nil in H as [Ha Ht]. split.
    + apply Forall_forall. intros c Hc Hj.
      assert (Hin : In c (filter (fun c => str_eqb (target c) j) (awaiting st))).
      { apply filter_In. split; [exact Hc|]. subst. apply str_eqb_refl. }
      now rewrite Ha in Hin.
    + apply Forall_forall. intros dc Hc Hj.
      assert (Hin : In (snd dc)
                      (filter (fun c => str_eqb (target c) j) (map snd (timers st)))).
      { apply filter_In. split; [now apply in_map|]. rewrite <- Hj. apply str_eqb_refl. }
      now rewrite Ht in Hin.
  - intros [Ha Ht].
    assert (Hnone : forall l, Forall (fun c => target c <> j) l ->
                              filter (fun c => str_eqb (target c) j) l = []).
    { induction l as [|c l IH]; intros Hl; [reflexivity|].
      inversion Hl as [|? ? Hc Hl']; subst. cbn [filter].
      rewrite (proj2 (str_eqb_neq _ _) Hc). now apply IH. }
    rewrite (Hnone _ Ha), Hnone; [reflexivity|].
    apply Forall_forall. intros c Hc. apply in_map_iff in Hc as [dc [<- Hdc]].
    exact (proj1 (Forall_forall _ _) Ht dc Hdc).
Qed.

End Stuck.

(** *** One item per group, as long as only tasks are queued *)

(** How many calls for group [j] are suspended or waiting for a retry. *)
Definition flights (st : State) (j : str) : nat :=
  list_sum (map (fun c => Nat.b2n (str_eqb (target c) j)) (awaiting st))
  + list_sum (map (fun dc => Nat.b2n (str_eqb (target (snd dc)) j)) (timers st)).

Definition busy (gs : list GroupState) (j : str) : nat :=
  match group_field processing j gs with
  | Some true => 1
  | _ => 0
  end.

Lemma list_sum_cons (x : nat) (l : list nat) : list_sum (x :: l) = x + list_sum l.
Proof. reflexivity. Qed.

Lemma list_sum_one {A : Type} (f : A -> nat) (x : A) : list_sum (map f [x]) = f x.
Proof. cbn [map]. rewrite list_sum_cons. cbn. lia. Qed.

Lemma list_sum_none {A : Type} (f : A -> nat) : list_sum (map f []) = 0.
Proof. reflexivity. Qed.

Lemma flights_in_flight (st : State) (j : str) :
  length (in_flight st j) = flights st j.
Proof.
  assert (H : forall l, length (filter (fun c => str_eqb (target c) j) l)
                        = list_sum (map (fun c => Nat.b2n (str_eqb (target c) j)) l)).
  { induction l as [|c l IH]; [reflexivity|]. cbn [filter map]. rewrite list_sum_cons.
    destruct (str_eqb (target c) j); cbn [Nat.b2n length]; lia. }
  unfold in_flight, flights. rewrite filter_app, length_app, !H.
  now rewrite map_map.
Qed.

Lemma processing_update (g : GroupState) (f : GroupState -> GroupState)
    (gs : list GroupState) :
  NoDup (map GroupQueue.jid gs) -> In g gs ->
  length (filter processing (update (GroupQueue.jid g) f gs)) + Nat.b2n (processing g)
  = length (filter processing gs) + Nat.b2n (processing (f g)).
Proof.
  induction gs as [|h gs IH]; intros Hnd Hin; [contradiction|].
  cbn [map] in Hnd. inversion Hnd as [|? ? Hh Hnd']; subst.
  cbn [update map]. fold (update (GroupQueue.jid g) f gs).
  destruct Hin as [-> | Hin].
  - rewrite str_eqb_refl, (update_absent _ f gs Hh). cbn [filter].
    destruct (processing g), (processing (f g)); cbn [length Nat.b2n]; lia.
  - assert (E : str_eqb (GroupQueue.jid h) (GroupQueue.jid g) = false).
    { apply str_eqb_neq. intros E. apply Hh. rewrite E.
      apply in_map_iff. now exists g. }
    rewrite E. cbn [filter]. specialize (IH Hnd' Hin).
    destruct (processing h); cbn [length]; lia.
Qed.

Lemma busy_update (j j0 : str) (f : GroupState -> GroupState) (gs : list GroupState) :
  (forall g, GroupQueue.jid (f g) = GroupQueue.jid g) ->
  busy (update j0 f gs) j
  = if str_eqb j j0
    then match find (fun g => str_eqb (GroupQueue.jid g) j) gs with
         | Some g => Nat.b2n (processing (f g))
         | None => 0
         end
    else busy gs j.
Proof.
  intros Hf. unfold busy. rewrite group_field_update by exact Hf.
  destruct (str_eqb j j0); [|reflexivity].
  destruct (find _ gs) as [g|]; [|reflexivity].
  cbn [option_map]. now destruct (processing (f g)).
Qed.

Lemma busy_find (j : str) (gs : list GroupState) :
  1 <= busy gs j ->
  exists g, In g gs /\ GroupQueue.jid g = j /\ processing g = true.
Proof.
  unfold busy, group_field. intros H.
  destruct (find _ gs) as [g|] eqn:E; cbn [option_map] in H; [|lia].
  apply find_jid in E as [Hj Hin]. exists g.
  destruct (processing g); [now repeat split | lia].
Qed.

Lemma Forall_update (P : GroupState -> Prop) (j : str)
    (f : GroupState -> GroupState) (gs : list GroupState) :
  (forall g, P g -> P (f g)) -> Forall P gs -> Forall P (update j f gs).
Proof.
  intros Hf H. unfold update. apply Forall_map.
  revert H. apply Forall_impl. intros g Hg.
  destruct (str_eqb (GroupQueue.jid g) j); auto.
Qed.

Definition only_tasks (g : GroupState) : Prop :=
  Forall (fun i => fn i = true) (queue g).

(** The state while the calls in [hand] are running: resumed or just started,
    and in neither list. *)
Definition exclusive (hand : list Call) (st : State) : Prop :=
  NoDup (map GroupQueue.jid (groups st))
  /\ Forall only_tasks (groups st)
  /\ Forall (fun c => fn (item c) = true) (awaiting st)
  /\ Forall (fun dc => fn (item (snd dc)) = true) (timers st)
  /\ Forall (fun c => fn (item c) = true) hand
  /\ (forall j, flights st j
                + list_sum (map (fun c => Nat.b2n (str_eqb (target c) j)) hand)
                <= busy (groups st) j)
  /\ activeCount st = processing_count st.

Lemma exclusive_emit (hand : list Call) (st : State) (e : GroupQueue.Event) :
  exclusive hand st -> exclusive hand (emit st e).
Proof. exact (fun H => H). Qed.

Section Exclusive.

Variable redrain : State -> State.
Hypothesis redrain_exclusive : forall s, exclusive [] s -> exclusive [] (redrain s).

Lemma exclusive_drop (st : State) (c : Call) :
  exclusive [c] st -> exclusive [] st.
Proof.
  intros [Hnd [Hq [Ha [Ht [Hh [Hfl Hcount]]]]]].
  repeat split; try assumption; [constructor|].
  intros j. specialize (Hfl j). rewrite list_sum_one in Hfl.
  rewrite list_sum_none. lia.
Qed.

Lemma exclusive_release (st : State) (c : Call) :
  exclusive [c] st ->
  exclusive [] (with_activeCount
                  (with_groups st (update (target c) release (groups st)))
                  (activeCount st - 1)).
Proof.
  intros [Hnd [Hq [Ha [Ht [Hh [Hfl Hcount]]]]]].
  unfold exclusive. cbn [groups awaiting timers activeCount with_activeCount with_groups].
  split; [now rewrite update_jids|].
  split; [apply Forall_update; [now intros g|exact Hq]|].
  split; [exact Ha|]. split; [exact Ht|]. split; [constructor|].
  pose proof (Hfl (target c)) as Hc. rewrite list_sum_one in Hc.
  rewrite str_eqb_refl in Hc. cbn [Nat.b2n] in Hc.
  destruct (busy_find (target c) (groups st)) as [g [Hin [Hj Hg]]]; [lia|].
  split.
  - intros j. rewrite list_sum_none. rewrite busy_update by reflexivity.
    destruct (str_eqb j (target c)) eqn:E.
    + apply str_eqb_eq in E as ->.
      assert (busy (groups st) (target c) <= 1).
      { unfold busy. destruct (group_field processing (target c) (groups st))
          as [[|]|]; lia. }
      unfold flights in *. cbn [awaiting timers with_activeCount with_groups].
      lia.
    + specialize (Hfl j). rewrite list_sum_one in Hfl.
      unfold flights in *. cbn [awaiting timers with_activeCount with_groups]. lia.
  - unfold processing_count in *.
    cbn [groups with_activeCount with_groups].
    pose proof (processing_update g release (groups st) Hnd Hin) as Hp.
    rewrite Hj, Hg in Hp. cbn [release processing Nat.b2n] in Hp. lia.
Qed.

Lemma exclusive_finally (st : State) (c : Call) :
  exclusive [c] st -> exclusive [] (finally_ redrain st c).
Proof.
  intros H. unfold finally_.
  destruct ((MAX_RETRIES <=? attempt c) || negb (fn (item c)));
    [|now apply (exclusive_drop st c)].
  apply redrain_exclusive. now apply exclusive_release.
Qed.

Lemma exclusive_on_failure (st : State) (c : Call) :
  exclusive [c] st -> exclusive [] (on_failure redrain st c).
Proof.
  intros H. unfold on_failure.
  destruct (attempt c <? MAX_RETRIES) eqn:Ek; [|now apply exclusive_finally].
  unfold finally_.
  assert (Hfn : fn (item c) = true).
  { destruct H as [_ [_ [_ [_ [Hh _]]]]]. now inversion Hh. }
  apply Nat.ltb_lt in Ek. rewrite Hfn, (proj2 (Nat.leb_gt _ _) Ek).
  cbn [orb negb].
  destruct H as [Hnd [Hq [Ha [Ht [Hh [Hfl Hcount]]]]]].
  unfold exclusive. cbn [groups awaiting timers activeCount with_timers emit].
  repeat split; try assumption.
  - apply Forall_app. split; [exact Ht|]. now repeat constructor.
  - constructor.
  - intros j. specialize (Hfl j). unfold flights in *.
    cbn [awaiting timers with_timers emit] in *.
    rewrite list_sum_one in Hfl.
    rewrite map_app, list_sum_app, list_sum_one, list_sum_none.
    cbn [snd retry target]. lia.
Qed.

Lemma exclusive_settle (st : State) (c : Call) (o : Outcome) :
  exclusive [c] st -> exclusive [] (settle redrain st c o).
Proof.
  intros H. destruct o; cbn [settle];
    [now apply exclusive_finally | now apply exclusive_on_failure].
Qed.

Lemma exclusive_processItem (st : State) (c : Call) :
  exclusive [c] st -> exclusive [] (_processItem redrain st c).
Proof.
  intros H. unfold _processItem.
  assert (Hfn : fn (item c) = true).
  { destruct H as [_ [_ [_ [_ [Hh _]]]]]. now inversion Hh. }
  rewrite Hfn. cbn [orb].
  destruct H as [Hnd [Hq [Ha [Ht [Hh [Hfl Hcount]]]]]].
  unfold exclusive. cbn [groups awaiting timers activeCount with_awaiting emit].
  repeat split; try assumption.
  - apply Forall_app. split; [exact Ha|]. now repeat constructor.
  - constructor.
  - intros j. specialize (Hfl j). unfold flights in *.
    cbn [awaiting timers with_awaiting emit] in *.
    rewrite list_sum_one in Hfl.
    rewrite map_app, list_sum_app, list_sum_one, list_sum_none. lia.
Qed.

End Exclusive.

Lemma exclusive_drain (n : nat) (st : State) :
  exclusive [] st -> exclusive [] (drain_fuel n st).
Proof.
  revert st; induction n as [|n IH]; intros st H; [exact H|].
  cbn [drain_fuel].
  destruct (maxConcurrentContainers st <=? activeCount st)%Z; [exact H|].
  destruct (pick st (groups st)) as [g|] eqn:Ep; [|exact H].
  apply pick_spec in Ep as [Hin [Hidle _]].
  destruct (queue g) as [|i q] eqn:Eq; [exact H|].
  apply (exclusive_processItem (drain_fuel n)).
  destruct H as [Hnd [Hq [Ha [Ht [_ [Hfl Hcount]]]]]].
  assert (Hg : only_tasks g) by exact (proj1 (Forall_forall _ _) Hq g Hin).
  unfold only_tasks in Hg. rewrite Eq in Hg. inversion Hg as [|? ? Hi Hq']; subst.
  unfold exclusive.
  cbn [groups awaiting timers activeCount with_activeCount with_groups].
  split; [now rewrite update_jids|].
  split.
  { apply Forall_update; [|exact Hq]. intros h Hh. unfold only_tasks in *.
    cbn [take queue]. destruct (queue h); [constructor|]. now inversion Hh. }
  split; [exact Ha|]. split; [exact Ht|].
  split; [now repeat constructor|]. split.
  - intros j. rewrite list_sum_one. cbn [target].
    rewrite busy_update by reflexivity.
    specialize (Hfl j). rewrite list_sum_none in Hfl.
    unfold flights in *. cbn [awaiting timers with_activeCount with_groups].
    destruct (str_eqb j (GroupQueue.jid g)) eqn:E.
    + apply str_eqb_eq in E as ->. rewrite str_eqb_refl.
      rewrite (find_nodup _ _ Hnd Hin). cbn [take processing Nat.b2n].
      unfold busy, group_field in Hfl. rewrite (find_nodup _ _ Hnd Hin) in Hfl.
      cbn [option_map] in Hfl. rewrite Hidle in Hfl. lia.
    + assert (E' : str_eqb (GroupQueue.jid g) j = false).
      { apply str_eqb_neq. apply str_eqb_neq in E. congruence. }
      rewrite E'. cbn [Nat.b2n]. lia.
  - unfold processing_count in *. cbn [groups with_activeCount with_groups].
    pose proof (processing_update g take (groups st) Hnd Hin) as Hp.
    rewrite Hidle in Hp. cbn [take processing Nat.b2n] in Hp. lia.
Qed.

Lemma exclusive__drain (st : State) : exclusive [] st -> exclusive [] (_drain st).
Proof. apply exclusive_drain. Qed.

Lemma exclusive_getGroup (st : State) (j0 : str) :
  exclusive [] st -> exclusive [] (_getGroup st j0).
Proof.
  intros H. unfold _getGroup.
  destruct (has_group j0 (groups st)) eqn:E; [exact H|].
  destruct H as [Hnd [Hq [Ha [Ht [_ [Hfl Hcount]]]]]].
  unfold exclusive. cbn [groups awaiting timers activeCount with_groups].
  split.
  { rewrite map_app. cbn [map GroupQueue.jid].
    apply NoDup_app; [exact Hnd | repeat constructor; intros [] |].
    intros x Hx [E0 | []]. subst x. now apply (has_group_absent j0 (groups st)). }
  split; [apply Forall_app; split; [exact Hq | repeat constructor]|].
  split; [exact Ha|]. split; [exact Ht|]. split; [constructor|]. split.
  - intros j. specialize (Hfl j). unfold flights in *.
    cbn [awaiting timers with_groups].
    enough (busy (groups st) j <= busy (groups st ++ [fresh_group j0]) j)
      by (change (groups st ++ _) with (groups st ++ [fresh_group j0]); lia).
    unfold busy. rewrite group_field_fresh.
    destruct (group_field processing j (groups st)) as [[|]|]; lia.
  - unfold processing_count in *. cbn [groups with_groups].
    rewrite filter_app, length_app. cbn [filter processing length]. lia.
Qed.

Lemma exclusive_edit (st : State) (j0 : str) (f : GroupState -> GroupState) :
  (forall g, GroupQueue.jid (f g) = GroupQueue.jid g) ->
  (forall g, processing (f g) = processing g) ->
  (forall g, only_tasks g -> only_tasks (f g)) ->
  exclusive [] st ->
  exclusive [] (with_groups st (update j0 f (groups st))).
Proof.
  intros Hjid Hproc Htasks [Hnd [Hq [Ha [Ht [_ [Hfl Hcount]]]]]].
  unfold exclusive. cbn [groups awaiting timers activeCount with_groups].
  split; [now rewrite update_jids|].
  split; [now apply Forall_update|].
  split; [exact Ha|]. split; [exact Ht|]. split; [constructor|]. split.
  - intros j. specialize (Hfl j). unfold flights in *.
    cbn [awaiting timers with_groups].
    rewrite busy_update by exact Hjid.
    destruct (str_eqb j j0); [|exact Hfl].
    unfold busy, group_field in Hfl.
    destruct (find _ (groups st)) as [g|]; cbn [option_map] in Hfl; [|exact Hfl].
    rewrite Hproc. now destruct (processing g).
  - rewrite Hcount. unfold processing_count. cbn [groups with_groups]. f_equal.
    unfold update. clear - Hproc. induction (groups st) as [|h gs IH]; [reflexivity|].
    cbn [map filter].
    assert (E : processing (if str_eqb (GroupQueue.jid h) j0 then f h else h)
                = processing h)
      by (destruct (str_eqb (GroupQueue.jid h) j0); [apply Hproc | reflexivity]).
    rewrite E. destruct (processing h); cbn [length]; now rewrite IH.
Qed.

Definition not_message_check (op : Op) : Prop :=
  match op with
  | EnqueueMessageCheck _ => False
  | _ => True
  end.

Lemma exclusive_step (st : State) (op : Op) :
  not_message_check op -> exclusive [] st -> exclusive [] (step st op).
Proof.
  intros Hop H. destruct op as [| j0 | j0 t | j0 proc cname folder | n o | n];
    cbn [step]; [exact H | contradiction | | | |].
  - unfold enqueueTask. apply exclusive__drain.
    apply (exclusive_edit (_getGroup st j0) j0
             (unshift {| promise := promises (_getGroup st j0); fn := true;
                         taskId := Some t |})); try reflexivity.
    + intros g Hg. unfold only_tasks in *. cbn [unshift set_queue queue].
      now constructor.
    + now apply exclusive_getGroup.
  - unfold registerProcess.
    apply (exclusive_edit (_getGroup st j0) j0 (register proc cname folder));
      try reflexivity; [now intros g | now apply exclusive_getGroup].
  - destruct (nth_error (awaiting st) n) as [c|] eqn:E; [|exact H].
    apply (exclusive_settle _drain exclusive__drain).
    destruct H as [Hnd [Hq [Ha [Ht [_ [Hfl Hcount]]]]]].
    unfold exclusive. cbn [groups awaiting timers activeCount with_awaiting].
    repeat split; try assumption.
    + now apply Forall_remove_nth.
    + constructor; [|constructor].
      exact (proj1 (Forall_forall _ _) Ha c (nth_error_In _ _ E)).
    + intros j. specialize (Hfl j). rewrite list_sum_none in Hfl.
      rewrite list_sum_one. unfold flights in *. cbn [awaiting timers with_awaiting].
      pose proof (list_sum_remove_nth (fun c => Nat.b2n (str_eqb (target c) j))
                    (awaiting st) n c E). lia.
  - destruct (nth_error (timers st) n) as [[d c]|] eqn:E; [|exact H].
    apply (exclusive_processItem _drain).
    destruct H as [Hnd [Hq [Ha [Ht [_ [Hfl Hcount]]]]]].
    unfold exclusive. cbn [groups awaiting timers activeCount with_timers].
    repeat split; try assumption.
    + now apply Forall_remove_nth.
    + constructor; [|constructor].
      exact (proj1 (Forall_forall _ _) Ht (d, c) (nth_error_In _ _ E)).
    + intros j. specialize (Hfl j). rewrite list_sum_none in Hfl.
      rewrite list_sum_one. unfold flights in *. cbn [awaiting timers with_timers].
      pose proof (list_sum_remove_nth
                    (fun dc : Z * Call => Nat.b2n (str_eqb (target (snd dc)) j))
                    (timers st) n (d, c) E) as Hs.
      cbn [snd] in Hs. lia.
Qed.

(** X17.  With tasks only, the queue keeps one item per group.  In every state
    reached from the construction by steps other than [enqueueMessageCheck]
    (tasks enqueued, processes registered, task functions settling, retry
    timers firing), [_activeCount] is the number of groups that are
    [processing], no group has more than one call in flight, and a group with
    a call in flight is [processing]. *)
Theorem tasks_keep_exclusivity :
  forall (maxConcurrent : Z) (ops : list Op),
    Forall not_message_check ops ->
    activeCount (GroupQueue.run (constructor maxConcurrent) ops)
    = processing_count (GroupQueue.run (constructor maxConcurrent) ops)
    /\ forall j : str,
         length (in_flight (GroupQueue.run (constructor maxConcurrent) ops) j) <= 1
         /\ (in_flight (GroupQueue.run (constructor maxConcurrent) ops) j <> [] ->
             group_processing (GroupQueue.run (constructor maxConcurrent) ops) j
             = Some true).
Proof.
  intros maxConcurrent ops Hops.
  assert (Hrun : forall st, exclusive [] st -> exclusive [] (GroupQueue.run st ops)).
  { unfold GroupQueue.run. induction Hops as [|op ops Hop _ IH]; intros st H;
      [exact H|].
    cbn [fold_left]. apply IH. now apply exclusive_step. }
  destruct (Hrun (constructor maxConcurrent)) as [_ [_ [_ [_ [_ [Hfl Hcount]]]]]].
  { unfold exclusive, constructor, processing_count, flights.
    cbn [groups awaiting timers activeCount map filter length].
    repeat split; constructor. }
  split; [exact Hcount|]. intros j. specialize (Hfl j).
  rewrite list_sum_none in Hfl. rewrite flights_in_flight.
  assert (Hbusy : busy (groups (GroupQueue.run (constructor maxConcurrent) ops)) j <= 1).
  { unfold busy. destruct (group_field processing j _) as [[|]|]; lia. }
  split; [lia|]. intros Hne.
  assert (Hpos : 1 <= flights (GroupQueue.run (constructor maxConcurrent) ops) j).
  { rewrite <- flights_in_flight.
    destruct (in_flight _ j); [contradiction | cbn [length]; lia]. }
  unfold busy in Hfl. unfold group_processing.
  change (option_map processing
            (find (fun g => str_eqb (GroupQueue.jid g) j)
               (groups (GroupQueue.run (constructor maxConcurrent) ops))))
    with (group_field processing j
            (groups (GroupQueue.run (constructor maxConcurrent) ops))).
  destruct (group_field processing j _) as [[|]|]; [reflexivity | lia | lia].
Qed.

Lemma tasks_keep_exclusivity_witness :
  let g := lit "g" in
  let st := GroupQueue.run (constructor 5)
              [ EnqueueTask g (lit "t1"); EnqueueTask g (lit "t2");
                Settle 0 Failed; Fire 0 ] in
  activeCount st = processing_count st
  /\ length (in_flight st g) <= 1
  /\ group_processing st g = Some true.
Proof.
  intros g st.
  destruct (tasks_keep_exclusivity 5
              [ EnqueueTask g (lit "t1"); EnqueueTask g (lit "t2");
                Settle 0 Failed; Fire 0 ]) as [Hcount Hfl].
  { repeat constructor. }
  split; [exact Hcount|]. destruct (Hfl g) as [Hone Hp].
  split; [exact Hone|]. apply Hp. discriminate.
Defined.

(** X18.  A task that succeeds before its last attempt never gives its slot
    back.  When the function of a task item ([fn] set) fulfils at an attempt
    below 5, the [finally] block changes neither the groups nor
    [_activeCount]: the group stays [processing].  And from a state in which
    a group is [processing] with no call of its own in flight, no later
    enqueue, registration, settlement or retry timer ever starts an item of
    that group or clears the flag. *)
Theorem fulfilled_task_keeps_slot :
  (forall (st : State) (n : nat) (c : Call) (result : bool),
      nth_error (awaiting st) n = Some c ->
      fn (item c) = true ->
      attempt c < MAX_RETRIES ->
      groups (step st (Settle n (Fulfilled result))) = groups st
      /\ activeCount (step st (Settle n (Fulfilled result))) = activeCount st
      /\ awaiting (step st (Settle n (Fulfilled result)))
         = remove_nth n (awaiting st)
      /\ timers (step st (Settle n (Fulfilled result))) = timers st)
  /\ (forall (maxConcurrent : Z) (before after : list Op) (j : str),
        group_processing (GroupQueue.run (constructor maxConcurrent) before) j
        = Some true ->
        in_flight (GroupQueue.run (constructor maxConcurrent) before) j = [] ->
        group_processing
          (GroupQueue.run (GroupQueue.run (constructor maxConcurrent) before) after) j
        = Some true
        /\ in_flight
             (GroupQueue.run (GroupQueue.run (constructor maxConcurrent) before) after) j
           = []).
Proof.
  split.
  - intros st n c result Hn Hfn Hk. cbn [step]. rewrite Hn. cbn [settle].
    unfold finally_. rewrite Hfn.
    rewrite (proj2 (Nat.leb_gt _ _) Hk). cbn [orb negb]. now repeat split.
  - intros maxConcurrent before after j Hp Hfl.
    assert (H : stuck j (GroupQueue.run (constructor maxConcurrent) before)).
    { split; [apply jids_run|]. split; [exact Hp|]. now apply in_flight_nil. }
    apply (stuck_run j _ after) in H. destruct H as [_ [Hp' H]].
    split; [exact Hp'|]. now apply in_flight_nil.
Qed.

Lemma fulfilled_task_keeps_slot_witness :
  let g := lit "g" in
  let st := GroupQueue.run (constructor 5) [ EnqueueTask g (lit "t1") ] in
  let st1 := step st (Settle 0 (Fulfilled true)) in
  let st2 := GroupQueue.run
               (GroupQueue.run (constructor 5)
                  [ EnqueueTask g (lit "t1"); Settle 0 (Fulfilled true) ])
               [ EnqueueTask g (lit "t2"); SetProcessMessagesFn;
                 EnqueueMessageCheck g ] in
  (groups st1 = groups st /\ activeCount st1 = 1%Z)
  /\ group_processing st2 g = Some true
  /\ in_flight st2 g = []
  /\ trace st2 = [ Attempted 0 0; Resolved 0 true ].
Proof.
  intros g st st1 st2.
  destruct fulfilled_task_keeps_slot as [Hkeep Hstuck].
  destruct (Hkeep st 0
              {| target := g;
                 item := {| promise := 0; fn := true; taskId := Some (lit "t1") |};
                 attempt := 0 |} true eq_refl eq_refl) as [Hg [Ha _]].
  { unfold MAX_RETRIES. cbn [attempt]. lia. }
  split; [split; [exact Hg | reflexivity]|].
  destruct (Hstuck 5%Z [ EnqueueTask g (lit "t1"); Settle 0 (Fulfilled true) ]
              [ EnqueueTask g (lit "t2"); SetProcessMessagesFn;
                EnqueueMessageCheck g ] g eq_refl eq_refl) as [Hp Hfl].
  split; [exact Hp|]. split; [exact Hfl | reflexivity].
Defined.

(** X19.  [hasActiveContainer] answers true for a group exactly from a
    [registerProcess] for it on: registering a process for [j] makes the
    answer true for [j] and changes it for no other group; no other step of
    the queue turns the answer from false to true; and when an item without
    [fn], or one at its last attempt, settles, the answer for its group is
    false again. *)
Theorem hasActiveContainer_lifecycle :
  (forall (st : State) (j : str) (proc : nat) (cname folder j' : str),
      hasActiveContainer (registerProcess st j proc cname folder) j'
      = str_eqb j' j || hasActiveContainer st j')
  /\ (forall (st : State) (op : Op) (j : str),
        match op with
        | RegisterProcess j0 _ _ _ => j0 <> j
        | _ => True
        end ->
        hasActiveContainer st j = false ->
        hasActiveContainer (step st op) j = false)
  /\ (forall (st : State) (n : nat) (c : Call) (o : Outcome),
        nth_error (awaiting st) n = Some c ->
        fn (item c) = false \/ MAX_RETRIES <= attempt c ->
        hasActiveContainer (step st (Settle n o)) (target c) = false).
Proof.
  split; [|split].
  - intros st j proc cname folder j'.
    destruct (str_eqb j' j) eqn:E.
    + apply str_eqb_eq in E as ->.
      now rewrite hasActiveContainer_field, registerProcess_field.
    + cbn [orb]. rewrite !hasActiveContainer_field.
      unfold registerProcess. cbn [groups with_groups].
      rewrite group_field_update by reflexivity. rewrite E.
      unfold group_field. rewrite find_getGroup.
      destruct (find (fun g => str_eqb (GroupQueue.jid g) j') (groups st));
        [reflexivity|].
      apply str_eqb_neq in E.
      now rewrite (proj2 (str_eqb_neq j j')) by congruence.
  - exact inactive_step.
  - exact settle_inactive.
Qed.

Lemma hasActiveContainer_lifecycle_witness :
  let st := GroupQueue.run (constructor 5)
              [ SetProcessMessagesFn; EnqueueMessageCheck (lit "g");
                RegisterProcess (lit "g") 1 (lit "c1") (lit "f1") ] in
  hasActiveContainer st (lit "g") = true
  /\ hasActiveContainer (step st (EnqueueTask (lit "h") (lit "t"))) (lit "h") = false
  /\ hasActiveContainer (step st (Settle 0 (Fulfilled true))) (lit "g") = false.
Proof.
  intros st. split; [reflexivity|]. split.
  - apply (proj1 (proj2 hasActiveContainer_lifecycle) st
             (EnqueueTask (lit "h") (lit "t")) (lit "h") I). reflexivity.
  - apply (proj2 (proj2 hasActiveContainer_lifecycle) st 0
             {| target := lit "g";
                item := {| promise := 0; fn := false; taskId := None |};
                attempt := 0 |}
             (Fulfilled true) eq_refl). now left.
Defined.

Lemma sendMessage_answer (st : State) (j : str) (text : json) (timestamp : str) :
  snd (sendMessage st j text timestamp)
  = match group_field process j (groups (_getGroup st j)),
          group_field groupFolder j (groups (_getGroup st j)) with
    | Some (Some _), Some (Some ((_ :: _) as folder)) =>
        Some (folder, JObj [ (lit "text", text);
                             (lit "timestamp", JStr timestamp) ])
    | _, _ => None
    end.
Proof.
  unfold sendMessage, group_field. cbn [snd].
  destruct (find _ (groups (_getGroup st j))) as [g|]; [|reflexivity].
  cbn [option_map]. destruct (process g); [|reflexivity].
  now destruct (groupFolder g) as [[|]|].
Qed.

(** X20.  [sendMessage] pipes a message only to a group with a registered
    process: it answers false for a group without one, and so for the group
    of an item without [fn] that has just settled; right after
    [registerProcess] with a non-empty folder it answers true and hands
    [{ text, timestamp }] to the input directory of that folder.  Asking for
    a group the queue has never seen creates its entry. *)
Theorem sendMessage_needs_registered_process :
  (forall (st : State) (j : str) (text : json) (timestamp : str),
      hasActiveContainer st j = false ->
      snd (sendMessage st j text timestamp) = None)
  /\ (forall (st : State) (n : nat) (c : Call) (o : Outcome) (text : json)
             (timestamp : str),
        nth_error (awaiting st) n = Some c ->
        fn (item c) = false ->
        snd (sendMessage (step st (Settle n o)) (target c) text timestamp) = None)
  /\ (forall (st : State) (j : str) (proc : nat) (cname folder : str)
             (text : json) (timestamp : str),
        folder <> [] ->
        snd (sendMessage (registerProcess st j proc cname folder) j text timestamp)
        = Some (folder, JObj [ (lit "text", text);
                               (lit "timestamp", JStr timestamp) ]))
  /\ (forall (st : State) (j : str) (text : json) (timestamp : str),
        has_group j (groups st) = false ->
        groups (fst (sendMessage st j text timestamp))
        = groups st ++ [fresh_group j]).
Proof.
  assert (Hnone : forall st j text timestamp,
             hasActiveContainer st j = false ->
             snd (sendMessage st j text timestamp) = None).
  { intros st j text timestamp H. rewrite sendMessage_answer, getGroup_field.
    rewrite hasActiveContainer_field in H. unfold group_field in H.
    destruct (find (fun g => str_eqb (GroupQueue.jid g) j) (groups st)) as [g|];
      cbn [option_map] in H; [|reflexivity].
    destruct (process g); [discriminate|reflexivity]. }
  split; [exact Hnone|]. split; [|split].
  - intros st n c o text timestamp Hn Hfn. apply Hnone.
    apply settle_inactive; [exact Hn|now left].
  - intros st j proc cname folder text timestamp Hfolder.
    rewrite sendMessage_answer.
    assert (Hsame : _getGroup (registerProcess st j proc cname folder) j
                    = registerProcess st j proc cname folder).
    { unfold _getGroup at 1. rewrite has_group_find.
      pose proof (registerProcess_field process st j proc cname folder) as H.
      unfold group_field in H.
      destruct (find _ (groups (registerProcess st j proc cname folder)));
        [reflexivity|discriminate]. }
    rewrite Hsame, !registerProcess_field. cbn [register process groupFolder].
    destruct folder; [contradiction|reflexivity].
  - intros st j text timestamp H. unfold sendMessage, _getGroup. cbn [fst].
    now rewrite H.
Qed.

Lemma sendMessage_needs_registered_process_witness :
  let st := GroupQueue.run (constructor 5)
              [ SetProcessMessagesFn; EnqueueMessageCheck (lit "g") ] in
  snd (sendMessage st (lit "g") (JStr (lit "hi")) (lit "t0")) = None
  /\ snd (sendMessage (registerProcess st (lit "g") 1 (lit "c1") (lit "f1"))
            (lit "g") (JStr (lit "hi")) (lit "t0"))
     = Some (lit "f1", JObj [ (lit "text", JStr (lit "hi"));
                              (lit "timestamp", JStr (lit "t0")) ])
  /\ snd (sendMessage
            (step (registerProcess st (lit "g") 1 (lit "c1") (lit "f1"))
               (Settle 0 (Fulfilled true)))
            (lit "g") (JStr (lit "hi")) (lit "t0")) = None
  /\ groups (fst (sendMessage st (lit "h") (JStr (lit "hi")) (lit "t0")))
     = groups st ++ [fresh_group (lit "h")].
Proof.
  intros st.
  destruct sendMessage_needs_registered_process as [Hnone [Hdone [Hreg Hnew]]].
  split; [apply Hnone; reflexivity|]. split; [apply Hreg; discriminate|]. split.
  - apply (Hdone (registerProcess st (lit "g") 1 (lit "c1") (lit "f1")) 0
             {| target := lit "g";
                item := {| promise := 0; fn := false; taskId := None |};
                attempt := 0 |}); reflexivity.
  - apply Hnew. reflexivity.
Defined.

Lemma closeContainer_answer (st : State) (j : str) :
  snd (closeContainer st j)
  = match group_field groupFolder j (groups (_getGroup st j)) with
    | Some (Some ((_ :: _) as folder)) => Some folder
    | _ => None
    end.
Proof.
  unfold closeContainer, group_field. cbn [snd].
  now destruct (find _ (groups (_getGroup st j))) as [g|].
Qed.

(** X21.  The folder of a group outlives its container: once
    [registerProcess] has stored a non-empty folder for a group,
    [closeContainer] writes the close sentinel to that folder after any
    further steps of the queue that do not register the group again, also
    when the item has finished and [hasActiveContainer] is false. *)
Theorem closeContainer_folder_outlives_process :
  forall (st : State) (j : str) (proc : nat) (cname folder : str) (ops : list Op),
    folder <> [] ->
    Forall (fun op => match op with
                      | RegisterProcess j0 _ _ _ => j0 <> j
                      | _ => True
                      end) ops ->
    snd (closeContainer
           (GroupQueue.run (registerProcess st j proc cname folder) ops) j)
    = Some folder.
Proof.
  intros st j proc cname folder ops Hfolder Hops.
  assert (Hrun : forall s,
             group_field groupFolder j (groups s) = Some (Some folder) ->
             group_field groupFolder j (groups (GroupQueue.run s ops))
             = Some (Some folder)).
  { unfold GroupQueue.run. induction Hops as [|op ops Hop _ IH]; intros s H;
      [exact H|].
    cbn [fold_left]. apply IH.
    apply (field_kept_step groupFolder j (fun x => x = Some (Some folder)));
      auto; discriminate. }
  specialize (Hrun _ (registerProcess_field groupFolder st j proc cname folder)).
  cbn [register groupFolder] in Hrun.
  rewrite closeContainer_answer.
  assert (Hsame : forall s, group_field groupFolder j (groups s) = Some (Some folder) ->
                            _getGroup s j = s).
  { intros s H. unfold _getGroup. rewrite has_group_find. unfold group_field in H.
    now destruct (find _ (groups s)). }
  rewrite (Hsame _ Hrun), Hrun. destruct folder; [contradiction|reflexivity].
Qed.

Lemma closeContainer_folder_outlives_process_witness :
  let st := GroupQueue.run (constructor 5)
              [ SetProcessMessagesFn; EnqueueMessageCheck (lit "g") ] in
  let st' := GroupQueue.run (registerProcess st (lit "g") 1 (lit "c1") (lit "f1"))
               [ Settle 0 (Fulfilled true) ] in
  hasActiveContainer st' (lit "g") = false
  /\ snd (closeContainer st' (lit "g")) = Some (lit "f1").
Proof.
  intros st st'. split; [reflexivity|].
  apply (closeContainer_folder_outlives_process st (lit "g") 1 (lit "c1") (lit "f1")
           [ Settle 0 (Fulfilled true) ]); [discriminate|].
  repeat constructor.
Defined.

(** ** What one tick of the watcher may do *)

Lemma in_poll_dirs (rejects : Effect -> bool) (JSON_parse : str -> option json)
    (groups : list RegisteredGroup) (dirs : list (str * Mailboxes)) (e : Effect) :
  In e (fst (poll_dirs rejects JSON_parse groups dirs)) ->
  exists groupFolder boxes,
    In (groupFolder, boxes) dirs
    /\ In e (fst (poll_group rejects JSON_parse groups groupFolder boxes)).
Proof.
  induction dirs as [|[groupFolder boxes] more IH]; cbn [poll_dirs];
    [intros []|].
  destruct (poll_group rejects JSON_parse groups groupFolder boxes)
    as [effects boxes'] eqn:Eg.
  destruct (poll_dirs rejects JSON_parse groups more) as [later more'].
  cbn [fst] in *. intros Hin. apply in_app_or in Hin as [Hin | Hin].
  - exists groupFolder, boxes. split; [now left|]. now rewrite Eg.
  - destruct (IH Hin) as [f [b [Hb He]]]. exists f, b. split; [now right | exact He].
Qed.

Lemma in_poll_group (rejects : Effect -> bool) (JSON_parse : str -> option json)
    (groups : list RegisteredGroup) (groupFolder : str) (boxes : Mailboxes)
    (e : Effect) :
  In e (fst (poll_group rejects JSON_parse groups groupFolder boxes)) ->
  (exists data filename,
      In e (process_message rejects groups groupFolder
              (is_main groups groupFolder) data filename))
  \/ (exists data filename,
        In e (process_task rejects groupFolder (is_main groups groupFolder)
                data filename)).
Proof.
  unfold poll_group.
  destruct (drainIpcDir JSON_parse (messages boxes) None) as [msgs messages'].
  destruct (drainIpcDir JSON_parse (tasks boxes) None) as [tsks tasks'].
  cbn [fst]. intros Hin. apply in_app_or in Hin as [Hin | Hin];
    apply in_flat_map in Hin as [[data filename] [_ Hin]];
    [left | right]; now exists data, filename.
Qed.

Lemma in_dispatch (rejects : Effect -> bool) (call e : Effect)
    (what dir filename groupFolder : str) :
  In e (dispatch rejects call what dir filename groupFolder) ->
  e = call \/ In e (failed what dir filename groupFolder).
Proof.
  unfold dispatch. intros [H | H]; [now left|].
  destruct (rejects call); [now right | destruct H].
Qed.

Lemma is_main_registered (groups : list RegisteredGroup) (groupFolder : str) :
  is_main groups groupFolder = true ->
  groupFolder = lit "main"
  /\ exists g, In g groups /\ folder g = lit "main".
Proof.
  unfold is_main. intros H. apply existsb_exists in H as [g [Hin Hg]].
  apply andb_true_iff in Hg as [H1 H2].
  apply str_eqb_eq in H1, H2. split; [congruence|]. now exists g.
Qed.

(** The calls the watcher makes are guarded: [sendMessage] gets a truthy jid
    and a truthy text; [onTask] gets a truthy type, the folder the directive
    was drained from, and [isMain] only for the folder "main" of a registered
    group. *)
Definition guarded (groups : list RegisteredGroup) (e : Effect) : Prop :=
  match e with
  | SendMessage resolvedJid text _ => truthy resolvedJid = true /\ truthy text = true
  | OnTask type _ sourceGroup isMain =>
      truthy type = true
      /\ (isMain = true ->
          sourceGroup = lit "main"
          /\ exists g, In g groups /\ folder g = lit "main")
  | _ => True
  end.

Lemma failed_guarded (groups : list RegisteredGroup)
    (what dir filename groupFolder : str) (e : Effect) :
  In e (failed what dir filename groupFolder) -> guarded groups e.
Proof. intros [<- | [<- | []]]; exact I. Qed.

Lemma process_message_guarded (rejects : Effect -> bool)
    (groups : list RegisteredGroup) (groupFolder : str) (isMain : bool)
    (data : json) (filename : str) (e : Effect) :
  In e (process_message rejects groups groupFolder isMain data filename) ->
  guarded groups e.
Proof.
  assert (Hroute : In e (route_message rejects groups groupFolder isMain data
                           filename) -> guarded groups e).
  { unfold route_message.
    destruct (get_prop data (lit "text")) as [txt|];
      [|intros [<- | []]; exact I].
    destruct (truthy txt) eqn:Etxt; cbn [negb]; [|intros [<- | []]; exact I].
    match goal with |- In e (if ?b then _ else _) -> _ => destruct b end;
      [intros [<- | []]; exact I|].
    match goal with |- In e (match ?x with _ => _ end) -> _ =>
      destruct x as [resolved|]; [|intros []] end.
    destruct (truthy resolved) eqn:Er; [|intros []].
    intros H. apply in_dispatch in H as [-> | H];
      [now split | now apply (failed_guarded groups) in H]. }
  destruct data; cbn [process_message]; try exact Hroute.
  apply failed_guarded.
Qed.

Lemma process_task_guarded (rejects : Effect -> bool)
    (groups : list RegisteredGroup) (groupFolder : str) (data : json)
    (filename : str) (e : Effect) :
  In e (process_task rejects groupFolder (is_main groups groupFolder) data
          filename) ->
  guarded groups e.
Proof.
  assert (Hroute : In e (route_task rejects groupFolder
                           (is_main groups groupFolder) data filename)
                   -> guarded groups e).
  { unfold route_task.
    destruct (get_prop data (lit "type")) as [type|];
      [|intros [<- | []]; exact I].
    destruct (truthy type) eqn:Etype; [|intros [<- | []]; exact I].
    intros H. apply in_dispatch in H as [-> | H];
      [|now apply (failed_guarded groups) in H].
    split; [exact Etype | apply is_main_registered]. }
  destruct data; cbn [process_task]; try exact Hroute.
  apply failed_guarded.
Qed.

(** X22.  In one tick of the watcher, over all group directories and
    whatever the files hold: [sendMessage] is only called with a truthy jid and
    a truthy text, and [onTask] only with a truthy type; [onTask] is told
    [isMain] only for a directive drained from the folder "main", and only
    when [getRegisteredGroups()] lists a group with that folder. *)
Theorem poll_calls_guarded :
  forall (rejects : Effect -> bool) (JSON_parse : str -> option json)
         (groups : list RegisteredGroup)
         (ipc : option (list (str * Mailboxes))),
    Forall (guarded groups) (fst (poll rejects JSON_parse groups ipc)).
Proof.
  intros rejects JSON_parse groups ipc. apply Forall_forall. intros e Hin.
  destruct ipc as [dirs|]; cbn [poll] in Hin; [|destruct Hin].
  destruct (poll_dirs rejects JSON_parse groups dirs) as [effects dirs'] eqn:Ed.
  cbn [fst] in Hin.
  assert (Hin' : In e (fst (poll_dirs rejects JSON_parse groups dirs)))
    by now rewrite Ed.
  apply in_poll_dirs in Hin' as [groupFolder [boxes [_ Hg]]].
  apply in_poll_group in Hg as [[data [filename H]] | [data [filename H]]].
  - now apply process_message_guarded in H.
  - now apply process_task_guarded in H.
Qed.

(** A mailbox whose files have distinct names and can all be unlinked. *)
Definition mailbox_ok (m : option Dir) : Prop :=
  match m with
  | Some d => NoDup (map fst d) /\ Forall (fun e => removable (snd e) = true) d
  | None => True
  end.

Lemma drain_again_mailbox (JSON_parse : str -> option json) (m : option Dir) :
  mailbox_ok m ->
  drainIpcDir JSON_parse (snd (drainIpcDir JSON_parse m None)) None
  = ([], snd (drainIpcDir JSON_parse m None)).
Proof.
  destruct m as [d|]; [|reflexivity].
  intros [Hnd Hrm]. now apply drain_again.
Qed.

Lemma poll_group_again (rejects : Effect -> bool)
    (JSON_parse : str -> option json) (groups : list RegisteredGroup)
    (groupFolder : str) (boxes : Mailboxes) :
  mailbox_ok (messages boxes) -> mailbox_ok (tasks boxes) ->
  poll_group rejects JSON_parse groups groupFolder
    (snd (poll_group rejects JSON_parse groups groupFolder boxes))
  = ([], snd (poll_group rejects JSON_parse groups groupFolder boxes)).
Proof.
  intros Hm Ht.
  pose proof (drain_again_mailbox JSON_parse _ Hm) as Em.
  pose proof (drain_again_mailbox JSON_parse _ Ht) as Et.
  unfold poll_group at 2 3.
  destruct (drainIpcDir JSON_parse (messages boxes) None) as [msgs messages'].
  destruct (drainIpcDir JSON_parse (tasks boxes) None) as [tsks tasks'].
  cbn [snd] in *. unfold poll_group. cbn [messages tasks].
  now rewrite Em, Et.
Qed.



(** ** The tools of the container and the watcher of the host *)

Section ToolFacts.

Variable env : McpServer.ProcessEnv.
Variable cron_parses : option json -> bool.

(** The data [send_message] writes. *)
Lemma send_message_data (args : json) (timestamp dir : str) (data : json) :
  McpServer.handleToolCall env cron_parses (lit "send_message") args timestamp
  = Some (dir, data) ->
  dir = McpServer.IPC_MESSAGES_DIR
  /\ (McpServer.IS_MAIN env = false ->
      truthy_opt (get_prop args (lit "target_jid")) = false)
  /\ get_prop data (lit "text") = get_prop args (lit "text")
  /\ get_prop data (lit "sender")
     = (if truthy_opt (get_prop args (lit "sender"))
        then get_prop args (lit "sender") else None)
  /\ get_prop data (lit "targetJid")
     = or_else (get_prop args (lit "target_jid"))
               (Some (JStr (McpServer.CHAT_JID env)))
  /\ get_prop data (lit "target_jid") = None
  /\ get_prop data (lit "sourceGroup") = Some (JStr (McpServer.GROUP_FOLDER env)).
Proof.
  unfold McpServer.handleToolCall.
  change (str_eqb (lit "send_message") (lit "send_message")) with true. cbv iota.
  generalize (get_prop args (lit "text")) (get_prop args (lit "sender"))
             (get_prop args (lit "target_jid")).
  intros text sender target.
  unfold or_else.
  destruct (truthy_opt target) eqn:Etarget;
    destruct (McpServer.IS_MAIN env) eqn:Emain; cbn [andb negb];
    try discriminate;
    intros H; injection H as <- <-;
    (split; [reflexivity|]); (split; [congruence|]);
    destruct target as [target|]; try discriminate;
    destruct text as [text|]; destruct sender as [sender|];
    cbn [truthy_opt]; try destruct (truthy sender);
    repeat split; reflexivity.
Qed.

End ToolFacts.

(** X24.  A container that is not the main group cannot name another chat:
    with [JSCLAW_IS_MAIN] other than "true", whatever the arguments, every file
    the [send_message] tool writes carries the container's own [CHAT_JID] as
    targetJid, every directive the [schedule_task] tool writes carries it as
    [chat_jid], and a call that names another target writes nothing. *)
Theorem non_main_tools_own_chat_only :
  forall (env : McpServer.ProcessEnv) (cron_parses : option json -> bool)
         (args : json) (timestamp : str),
    McpServer.IS_MAIN env = false ->
    (forall dir data,
        McpServer.handleToolCall env cron_parses (lit "send_message") args timestamp
        = Some (dir, data) ->
        dir = McpServer.IPC_MESSAGES_DIR
        /\ get_prop data (lit "targetJid") = Some (JStr (McpServer.CHAT_JID env)))
    /\ (forall dir data,
          McpServer.handleToolCall env cron_parses (lit "schedule_task") args
            timestamp
          = Some (dir, data) ->
          dir = McpServer.IPC_TASKS_DIR
          /\ exists payload,
               get_prop data (lit "data") = Some payload
               /\ get_prop payload (lit "chat_jid")
                  = Some (JStr (McpServer.CHAT_JID env)))
    /\ (truthy_opt (get_prop args (lit "target_jid")) = true ->
        McpServer.handleToolCall env cron_parses (lit "send_message") args timestamp
        = None)
    /\ (truthy_opt (get_prop args (lit "target_group_jid")) = true ->
        McpServer.handleToolCall env cron_parses (lit "schedule_task") args
          timestamp
        = None).
Proof.
  intros env cron_parses args timestamp Hmain. split; [|split; [|split]].
  - intros dir data H.
    destruct (send_message_data env cron_parses args timestamp dir data H)
      as [Hdir [Htarget [_ [_ [Hjid _]]]]].
    split; [exact Hdir|]. rewrite Hjid. unfold or_else.
    now rewrite (Htarget Hmain).
  - intros dir data. unfold McpServer.handleToolCall.
    change (str_eqb (lit "schedule_task") (lit "send_message")) with false.
    change (str_eqb (lit "schedule_task") (lit "schedule_task")) with true.
    cbv iota. rewrite Hmain.
    generalize (get_prop args (lit "prompt")) (get_prop args (lit "schedule_type"))
               (get_prop args (lit "schedule_value"))
               (get_prop args (lit "context_mode"))
               (get_prop args (lit "target_group_jid")).
    intros prompt schedule_type schedule_value context_mode target.
    match goal with |- (if ?c then _ else _) = _ -> _ => destruct c end;
      [discriminate|].
    unfold or_else.
    destruct (truthy_opt target) eqn:Etarget; cbn [andb negb]; [discriminate|].
    intros H; injection H as <- <-. split; [reflexivity|].
    eexists. split; [reflexivity|].
    destruct prompt; destruct schedule_type; destruct schedule_value;
      destruct context_mode as [mode|]; cbn [truthy_opt];
      try destruct (truthy mode); reflexivity.
  - intros Htarget. unfold McpServer.handleToolCall.
    change (str_eqb (lit "send_message") (lit "send_message")) with true.
    cbv iota. now rewrite Htarget, Hmain.
  - intros Htarget. unfold McpServer.handleToolCall.
    change (str_eqb (lit "schedule_task") (lit "send_message")) with false.
    change (str_eqb (lit "schedule_task") (lit "schedule_task")) with true.
    cbv iota. rewrite Htarget, Hmain.
    now match goal with |- (if ?c then _ else _) = _ => destruct c end.
Qed.

Definition example_env : McpServer.ProcessEnv :=
  {| McpServer.JSCLAW_CHAT_JID := Some (lit "j2");
     McpServer.JSCLAW_GROUP_FOLDER := Some (lit "g2");
     McpServer.JSCLAW_IS_MAIN := Some (lit "false") |}.

Lemma non_main_tools_own_chat_only_witness :
  let args := JObj [ (lit "text", JStr (lit "hi")) ] in
  let spoofed := JObj [ (lit "text", JStr (lit "hi"));
                        (lit "target_jid", JStr (lit "j1")) ] in
  (forall dir data,
      McpServer.handleToolCall example_env (fun _ => true) (lit "send_message")
        args (lit "t0")
      = Some (dir, data) ->
      dir = McpServer.IPC_MESSAGES_DIR
      /\ get_prop data (lit "targetJid") = Some (JStr (lit "j2")))
  /\ McpServer.handleToolCall example_env (fun _ => true) (lit "send_message")
       spoofed (lit "t0")
     = None.
Proof.
  intros args spoofed. split.
  - exact (proj1 (non_main_tools_own_chat_only example_env (fun _ => true) args
                    (lit "t0") eq_refl)).
  - exact (proj1 (proj2 (proj2 (non_main_tools_own_chat_only example_env
                                  (fun _ => true) spoofed (lit "t0") eq_refl)))
             eq_refl).
Defined.


Definition hi_message : json :=
  JObj [ (lit "text", JStr (lit "hi")); (lit "targetJid", JStr (lit "j2"));
         (lit "sourceGroup", JStr (lit "g2")); (lit "timestamp", JStr (lit "t0")) ].

Definition hi_parse (raw : str) : option json :=
  if str_eqb raw (lit "note") then Some hi_message else None.


(** ** From the queue of the host to the agent *)

Lemma writeIpcFile_fresh (JSON_stringify : json -> str) (data : json)
    (prefix : str) (now : nat) (uuid : str) (r : bool) (dir : option Dir) :
  match dir with Some d => d | None => [] end = [] ->
  writeIpcFile JSON_stringify dir data prefix now uuid r
  = Returns (ipc_filename prefix now uuid,
             [ (ipc_filename prefix now uuid,
                {| content := Some (JSON_stringify data); removable := r |}) ]).
Proof.
  intros Hd. unfold writeIpcFile. rewrite Hd.
  unfold writeFileSync, renameSync. cbn [unlink app lookup].
  rewrite str_eqb_refl. cbn [unlink].
  destruct (str_eqb (ipc_filename prefix now uuid)
                    (tmp_name (ipc_filename prefix now uuid)));
    cbn [unlink]; now rewrite ?str_eqb_refl.
Qed.

(** X26.  From the host to the agent: when [sendMessage] answers true, the
    file it hands to [writeIpcFile], once written into the input directory of
    the group's folder, is read by the agent's next [drainIpcInput], which
    returns the text if it is truthy.  Into a fresh directory: the drain
    returns exactly that text, or nothing at all when the text is falsy (the
    file is consumed all the same), and it leaves the directory empty unless
    the file cannot be unlinked. *)
Theorem sendMessage_reaches_agent :
  forall (JSON_parse : str -> option json) (JSON_stringify : json -> str)
         (st : State) (groupJid : str) (text : json) (timestamp folder : str)
         (data : json) (input : option Dir) (now : nat) (uuid : str)
         (unlinkable : bool),
    let d := match input with Some d => d | None => [] end in
    snd (sendMessage st groupJid text timestamp) = Some (folder, data) ->
    JSON_parse (JSON_stringify data) = Some data ->
    NoDup (map fst d) ->
    exists filename d2,
      writeIpcFile JSON_stringify input data [] now uuid unlinkable
      = Returns (filename, d2)
      /\ (truthy text = true ->
          In text (fst (AgentRunner.drainIpcInput JSON_parse (Some d2))))
      /\ (d = [] ->
          AgentRunner.drainIpcInput JSON_parse (Some d2)
          = (if truthy text then [text] else [],
             Some (if unlinkable then [] else d2))).
Proof.
  intros JSON_parse JSON_stringify st groupJid text timestamp folder data input
         now uuid unlinkable d Hsend Hround Hnd.
  assert (Hdata : data = JObj [ (lit "text", text);
                                (lit "timestamp", JStr timestamp) ]).
  { unfold sendMessage in Hsend. cbn [snd] in Hsend.
    destruct (find _ _) as [g|]; [|discriminate].
    destruct (process g); [|discriminate].
    destruct (groupFolder g) as [[|c f]|]; try discriminate.
    now injection Hsend as _ <-. }
  destruct (writeIpcFile_spec JSON_stringify input data [] now uuid unlinkable)
    as [d2 [Hret [Hlook Hnd2]]].
  fold d in Hlook, Hnd2. specialize (Hnd2 Hnd).
  set (filename := ipc_filename [] now uuid) in *.
  exists filename, d2. split; [exact Hret|].
  assert (Hfile : lookup filename d2
                  = Some {| content := Some (JSON_stringify data);
                            removable := unlinkable |})
    by (now rewrite Hlook, str_eqb_refl).
  assert (Hinput : input_data JSON_parse d2 filename = Some data).
  { unfold input_data. rewrite Hfile. cbn [content]. rewrite Hround.
    now rewrite Hdata. }
  assert (Htext : input_text JSON_parse d2 filename
                  = if truthy text then [text] else []).
  { unfold input_text. rewrite Hinput, Hdata. reflexivity. }
  assert (Hname : endsWith filename (lit ".json")
                  && negb (startsWith filename (lit ".")) = true).
  { unfold filename.
    rewrite ipc_filename_json, (ipc_filename_no_dot [] now uuid eq_refl).
    reflexivity. }
  split.
  - intros Htruthy.
    rewrite (drainIpcInput_eq JSON_parse d2 Hnd2). cbn [fst].
    apply in_flat_map. exists filename. split.
    + apply (Permutation_in _ (Permutation_sym (sort_perm _))).
      apply filter_In. split; [|exact Hname].
      apply lookup_names. eexists. exact Hfile.
    + rewrite Htext, Htruthy. now left.
  - intros Hd.
    rewrite (writeIpcFile_fresh JSON_stringify data [] now uuid unlinkable input Hd)
      in Hret.
    injection Hret as <-.
    unfold AgentRunner.drainIpcInput. cbn [map fst filter].
    fold filename. rewrite Hname. cbn [sort insert_sorted AgentRunner.input_loop lookup].
    rewrite str_eqb_refl. cbn [content removable]. rewrite Hround, Hdata.
    cbn [get_prop assoc]. rewrite str_eqb_refl.
    cbn [unlink]. rewrite str_eqb_refl.
    destruct (truthy text); destruct unlinkable; reflexivity.
Qed.

Definition note_parse (raw : str) : option json :=
  if str_eqb raw (lit "note")
  then Some (JObj [ (lit "text", JStr (lit "hi")); (lit "timestamp", JStr (lit "t0")) ])
  else None.

Lemma sendMessage_reaches_agent_witness :
  let st := registerProcess (constructor 5) (lit "g") 1 (lit "c1") (lit "f1") in
  let data := JObj [ (lit "text", JStr (lit "hi"));
                     (lit "timestamp", JStr (lit "t0")) ] in
  snd (sendMessage st (lit "g") (JStr (lit "hi")) (lit "t0")) = Some (lit "f1", data)
  /\ exists filename d2,
       writeIpcFile (fun _ => lit "note") None data [] 42 (lit "0a1b2c3d-9999") true
       = Returns (filename, d2)
       /\ In (JStr (lit "hi")) (fst (AgentRunner.drainIpcInput note_parse (Some d2)))
       /\ AgentRunner.drainIpcInput note_parse (Some d2)
          = ([JStr (lit "hi")], Some []).
Proof.
  intros st data. split; [reflexivity|].
  destruct (sendMessage_reaches_agent note_parse (fun _ => lit "note") st (lit "g")
              (JStr (lit "hi")) (lit "t0") (lit "f1") data None 42
              (lit "0a1b2c3d-9999") true eq_refl eq_refl (NoDup_nil _))
    as [filename [d2 [Hret [Hin Hall]]]].
  exists filename, d2. split; [exact Hret|]. split.
  - now apply Hin.
  - now apply Hall.
Defined.

(** ** Splitting a reply into chunks *)

Import TelegramExample.

(** [text] is the chunks put together again, where after each chunk one line
    feed may be missing: the one the split has dropped. *)
Inductive rejoins : list str -> str -> Prop :=
| rejoins_nil : rejoins [] []
| rejoins_next (c : str) (cs : list str) (t : str) :
    rejoins cs t -> rejoins (c :: cs) (c ++ t)
| rejoins_LF (c : str) (cs : list str) (t : str) :
    rejoins cs t -> rejoins (c :: cs) (c ++ LF :: t).

Lemma lastIndexOf_LF_le (s : str) (from i : nat) :
  lastIndexOf_LF s from = Some i -> i <= from.
Proof.
  revert from i; induction s as [|x s IH]; intros from i; [discriminate|].
  cbn [lastIndexOf_LF]. destruct from as [|from].
  - destruct (Ascii.eqb x LF); [|discriminate]. intros H; injection H as <-. lia.
  - destruct (lastIndexOf_LF s from) as [k|] eqn:E.
    + intros H; injection H as <-. specialize (IH from k E). lia.
    + destruct (Ascii.eqb x LF); [|discriminate]. intros H; injection H as <-. lia.
Qed.

Lemma drop_leading_LF_cases (s : str) :
  s = drop_leading_LF s \/ s = LF :: drop_leading_LF s.
Proof.
  destruct s as [|c t]; [now left|]. cbn [drop_leading_LF].
  destruct (Ascii.eqb c LF) eqn:E; [|now left].
  apply Ascii.eqb_eq in E as ->. now right.
Qed.

Lemma split_loop_spec (maxLen : nat) :
  1 <= maxLen ->
  forall (fuel : nat) (remaining : str) (chunks : list str),
    length remaining < fuel ->
    exists out,
      split_loop fuel remaining maxLen chunks = Some (chunks ++ out)
      /\ Forall (fun c => 1 <= length c <= maxLen) out
      /\ rejoins out remaining.
Proof.
  intros Hmax. induction fuel as [|fuel IH]; intros remaining chunks Hfuel; [lia|].
  cbn [split_loop].
  destruct (length remaining =? 0) eqn:E0.
  { apply Nat.eqb_eq in E0. exists []. rewrite app_nil_r.
    destruct remaining; [|discriminate]. repeat split; constructor. }
  apply Nat.eqb_neq in E0.
  destruct (length remaining <=? maxLen) eqn:Emax.
  { apply Nat.leb_le in Emax. exists [remaining]. split; [reflexivity|]. split.
    - constructor; [lia | constructor].
    - rewrite <- (app_nil_r remaining) at 2. constructor. constructor. }
  apply Nat.leb_gt in Emax. cbv zeta.
  set (splitAt := match lastIndexOf_LF remaining maxLen with
                  | Some i => if 2 * i <? maxLen then maxLen else i
                  | None => maxLen
                  end).
  assert (Hsplit : 1 <= splitAt <= maxLen).
  { unfold splitAt. destruct (lastIndexOf_LF remaining maxLen) as [i|] eqn:Ei; [|lia].
    apply lastIndexOf_LF_le in Ei.
    destruct (2 * i <? maxLen) eqn:Eh; [lia|]. apply Nat.ltb_ge in Eh. lia. }
  unfold slice, slice_from. rewrite Nat.sub_0_r. cbn [skipn].
  pose proof (firstn_skipn splitAt remaining) as Hparts.
  pose proof (length_skipn splitAt remaining) as Hrest.
  pose proof (length_firstn splitAt remaining) as Hchunk.
  assert (Hshort : length (drop_leading_LF (skipn splitAt remaining)) < fuel).
  { destruct (drop_leading_LF_cases (skipn splitAt remaining)) as [E | E];
      rewrite E in Hrest; cbn [length] in Hrest; lia. }
  destruct (IH _ (chunks ++ [firstn splitAt remaining]) Hshort)
    as [out [Hout [Hlen Hre]]].
  exists (firstn splitAt remaining :: out). split; [|split].
  - rewrite <- app_assoc in Hout. exact Hout.
  - constructor; [lia | exact Hlen].
  - rewrite <- Hparts at 2.
    destruct (drop_leading_LF_cases (skipn splitAt remaining)) as [E | E];
      rewrite E at 1; now constructor.
Qed.

(** X27.  For a limit of at least 1, [splitMessage] returns, every chunk is
    at most [maxLen] long, no chunk is empty unless the text is, and the text
    is the chunks in order with nothing lost but, at most, one line feed
    after each chunk. *)
Theorem splitMessage_chunks :
  forall (text : str) (maxLen : nat),
    1 <= maxLen ->
    exists chunks,
      splitMessage text maxLen = Some chunks
      /\ Forall (fun c => length c <= maxLen) chunks
      /\ (text <> [] -> Forall (fun c => c <> []) chunks)
      /\ rejoins chunks text.
Proof.
  intros text maxLen Hmax. unfold splitMessage.
  destruct (length text <=? maxLen) eqn:E.
  - apply Nat.leb_le in E. exists [text]. split; [reflexivity|].
    split; [now repeat constructor|]. split; [now repeat constructor|].
    rewrite <- (app_nil_r text) at 2. constructor. constructor.
  - destruct (split_loop_spec maxLen Hmax (S (length text)) text [])
      as [out [Hout [Hlen Hre]]]; [lia|].
    exists out. split; [exact Hout|]. split; [|split; [intros _|exact Hre]].
    + revert Hlen. apply Forall_impl. intros c Hc. lia.
    + revert Hlen. apply Forall_impl. intros c Hc ->. cbn [length] in Hc. lia.
Qed.

Lemma splitMessage_chunks_witness :
  exists chunks,
    splitMessage (lit "ab" ++ LF :: lit "cdef") 4 = Some chunks
    /\ Forall (fun c => length c <= 4) chunks
    /\ Forall (fun c => c <> []) chunks
    /\ rejoins chunks (lit "ab" ++ LF :: lit "cdef").
Proof.
  destruct (splitMessage_chunks (lit "ab" ++ LF :: lit "cdef") 4)
    as [chunks [Hrun [Hlen [Hne Hre]]]]; [lia|].
  exists chunks. repeat split; try assumption. apply Hne. discriminate.
Defined.

(** X28.  With the limit 0 the loop of [splitMessage] makes no progress on a
    text that does not start with a line feed: every turn pushes an empty
    chunk and leaves [remaining] as it is, so that no number of turns ends
    it. *)
Theorem splitMessage_limit_zero_loops :
  forall (fuel : nat) (c : ascii) (rest : str) (chunks : list str),
    c <> LF ->
    split_loop fuel (c :: rest) 0 chunks = None.
Proof.
  intros fuel c rest chunks Hc. revert chunks.
  induction fuel as [|fuel IH]; intros chunks; [reflexivity|].
  cbn [split_loop length Nat.eqb Nat.leb lastIndexOf_LF].
  apply Ascii.eqb_neq in Hc. rewrite Hc.
  unfold slice, slice_from. cbn [skipn drop_leading_LF]. rewrite Hc.
  apply IH.
Qed.

Lemma splitMessage_limit_zero_loops_witness :
  splitMessage (lit "hello") 0 = None
  /\ split_loop 1000 (lit "hello") 0 [] = None.
Proof.
  split.
  - apply (splitMessage_limit_zero_loops 6 "h"%char (lit "ello") []). discriminate.
  - apply (splitMessage_limit_zero_loops 1000 "h"%char (lit "ello") []). discriminate.
Defined.
